(** * Analytics engine of my-python-data-tool: indicators, risk, regime,
      correlation and portfolio statistics

    Shallow embedding of [src/core/indicators.py],
    [src/core/market_analyzer.py] and the loader of
    [src/core/data_loader.py].

    Numbers.  A pandas column holds IEEE doubles; here a cell is a value of
    [val]: a rational, one of the two infinities, or NaN (which is also pandas'
    missing marker).  Arithmetic on finite cells is exact rational arithmetic
    (rounding is not modelled, a zero is the positive zero); every special
    case of IEEE arithmetic the code can reach (x/0, 0/0, inf-inf, 0*inf,
    comparisons with NaN) is written out.  Finite results are kept in lowest
    terms, so that equal numbers are equal terms.

    What the theorems say.  The program rounds every operation to the nearest
    double, so a property that needs exact arithmetic holds of this model and
    not of the program: a mean of doubles can leave the range of its values
    by a unit in the last place, and two expressions that are equal as
    rationals can differ after rounding.  The theorems therefore state only
    what rounding to nearest keeps: which cells are missing, which calls
    raise, comparisons between cells, and bounds and orderings that follow
    from the monotonicity of each operation.  The lemmas on exact values
    (means, weighted sums) are steps of those proofs, about the model. *)

From Stdlib Require Import QArith Qreduction Qabs Qround Lia Lqa ZArith List Bool.
From stdpp Require Import gmap strings list pretty sorting.

Open Scope Q_scope.

(* ================================================================= *)
(** ** Cells *)

Inductive val : Type :=
  | NaN
  | NInf
  | Fin (q : Q)
  | PInf.

Definition num (q : Q) : val := Fin (Qred q).

Definition Qlt_bool (a b : Q) : bool := negb (Qle_bool b a).

Definition is_nan (v : val) : bool :=
  match v with NaN => true | _ => false end.

Definition is_fin (v : val) : bool :=
  match v with Fin _ => true | _ => false end.

Definition vneg (a : val) : val :=
  match a with
  | NaN => NaN
  | NInf => PInf
  | Fin q => num (- q)
  | PInf => NInf
  end.

Definition vadd (a b : val) : val :=
  match a, b with
  | NaN, _ | _, NaN => NaN
  | PInf, NInf | NInf, PInf => NaN
  | PInf, _ | _, PInf => PInf
  | NInf, _ | _, NInf => NInf
  | Fin x, Fin y => num (x + y)
  end.

Definition vsub (a b : val) : val := vadd a (vneg b).

(** An infinity times a finite cell: the sign of the product, NaN at zero. *)
Definition inf_times (pos : bool) (q : Q) : val :=
  if Qeq_bool q 0 then NaN
  else if Bool.eqb pos (Qlt_bool 0 q) then PInf else NInf.

Definition vmul (a b : val) : val :=
  match a, b with
  | NaN, _ | _, NaN => NaN
  | PInf, PInf | NInf, NInf => PInf
  | PInf, NInf | NInf, PInf => NInf
  | PInf, Fin q | Fin q, PInf => inf_times true q
  | NInf, Fin q | Fin q, NInf => inf_times false q
  | Fin x, Fin y => num (x * y)
  end.

(** Division as numpy performs it on doubles: no exception, x/0 is an
    infinity with the sign of x, 0/0 is NaN. *)
Definition vdiv (a b : val) : val :=
  match a, b with
  | NaN, _ | _, NaN => NaN
  | (PInf | NInf), (PInf | NInf) => NaN
  | Fin _, (PInf | NInf) => num 0
  | PInf, Fin y => if Qlt_bool y 0 then NInf else PInf
  | NInf, Fin y => if Qlt_bool y 0 then PInf else NInf
  | Fin x, Fin y =>
      if Qeq_bool y 0 then
        (if Qeq_bool x 0 then NaN else if Qlt_bool 0 x then PInf else NInf)
      else num (x / y)
  end.

Definition vabs (a : val) : val :=
  match a with
  | NaN => NaN
  | NInf | PInf => PInf
  | Fin q => num (Qabs q)
  end.

(** Comparisons; every comparison with NaN is false, [!=] is true. *)
Definition vlt (a b : val) : bool :=
  match a, b with
  | NaN, _ | _, NaN => false
  | _, NInf => false
  | NInf, _ => true
  | PInf, _ => false
  | Fin _, PInf => true
  | Fin x, Fin y => Qlt_bool x y
  end.

Definition veq (a b : val) : bool :=
  match a, b with
  | NInf, NInf | PInf, PInf => true
  | Fin x, Fin y => Qeq_bool x y
  | _, _ => false
  end.

Definition vle (a b : val) : bool := vlt a b || veq a b.
Definition vgt (a b : val) : bool := vlt b a.
Definition vge (a b : val) : bool := vle b a.
Definition vne (a b : val) : bool := negb (veq a b).

(** [np.sign]. *)
Definition vsign (a : val) : val :=
  match a with
  | NaN => NaN
  | NInf => Fin (-1)
  | PInf => Fin 1
  | Fin q => if Qlt_bool 0 q then Fin 1 else if Qlt_bool q 0 then Fin (-1) else Fin 0
  end.

(** Maximum and minimum of two cells as Python's [max]/[min] on non-NaN
    floats. *)
Definition vmax (a b : val) : val := if vlt a b then b else a.
Definition vmin (a b : val) : val := if vlt b a then b else a.

Definition of_bool (b : bool) : val := if b then Fin 1 else Fin 0.
Definition of_nat (n : nat) : val := Fin (inject_Z (Z.of_nat n)).

(* ================================================================= *)
(** ** Library functions that leave the rationals

    [np.sqrt] and [np.log] on a finite argument, the least-squares solver
    behind [np.polyfit] and scikit-learn's PCA are not defined in the
    repository.  They are a parameter of the embedding; a theorem that needs
    a property of one of them states it.

    - [np_polyfit_slope x y] is [np.polyfit(x, y, 1)[0]], [None] when the
      call raises;
    - [pca_explained_variance_ratio k rows] is [explained_variance_ratio_] of
      [PCA(n_components=k)] fitted on the standardised rows, [None] when
      scikit-learn raises. *)

Class NumLib : Type := {
  np_sqrt : Q -> Q;
  np_log : Q -> Q;
  np_polyfit_slope : list val -> list val -> option val;
  pca_explained_variance_ratio : nat -> list (list val) -> option (list val)
}.

Definition vsqrt `{NumLib} (a : val) : val :=
  match a with
  | NaN | NInf => NaN
  | PInf => PInf
  | Fin q => if Qlt_bool q 0 then NaN else num (np_sqrt q)
  end.

Definition vlog `{NumLib} (a : val) : val :=
  match a with
  | NaN | NInf => NaN
  | PInf => PInf
  | Fin q => if Qlt_bool q 0 then NaN
             else if Qeq_bool q 0 then NInf else num (np_log q)
  end.

(* ================================================================= *)
(** ** pandas Series operations used by the engine

    A column is the list of its cells in index order.  Operations that align
    two columns of one frame are positional ([zip_with]). *)

Definition finite_value (v : val) : option Q :=
  match v with Fin q => Some q | _ => None end.

Definition dropna (s : list val) : list val :=
  filter (fun v => is_nan v = false) s.

(** [s.shift(k)] for [k >= 0] and [s.shift(-k)]. *)
Definition shift (k : nat) (s : list val) : list val :=
  take (length s) (replicate k NaN ++ s).

Definition shift_back (k : nat) (s : list val) : list val :=
  drop k s ++ replicate (Nat.min k (length s)) NaN.

Definition diff (s : list val) : list val := zip_with vsub s (shift 1 s).

(** [s.where(cond, other)] with the condition computed from the cell. *)
Definition where_ (cond : val -> bool) (other : val) (s : list val) : list val :=
  map (fun v => if cond v then v else other) s.

Definition fillna (x : val) (s : list val) : list val :=
  map (fun v => if is_nan v then x else v) s.

(** Forward fill, the [fill_method='pad'] default of [pct_change]. *)
Fixpoint ffill_from (last : val) (s : list val) : list val :=
  match s with
  | [] => []
  | v :: s' => let v' := if is_nan v then last else v in v' :: ffill_from v' s'
  end.

Definition ffill (s : list val) : list val := ffill_from NaN s.

(** [s.pct_change(periods=k)]: pad, then [s / s.shift(k) - 1]. *)
Definition pct_change (k : nat) (s : list val) : list val :=
  let p := ffill s in
  map (fun v => vsub v (Fin 1)) (zip_with vdiv p (shift k p)).

(** Running sum and product; a NaN cell stays NaN and is skipped. *)
Fixpoint cum_from (op : val -> val -> val) (acc : option val) (s : list val) : list val :=
  match s with
  | [] => []
  | v :: s' =>
      if is_nan v then NaN :: cum_from op acc s'
      else let a := match acc with Some a => op a v | None => v end in
           a :: cum_from op (Some a) s'
  end.

Definition cumsum (s : list val) : list val := cum_from vadd None s.
Definition cumprod (s : list val) : list val := cum_from vmul None s.

(** *** Windows

    [s.rolling(window=w)] has [min_periods = w]: the cell at position [i] is
    defined only when the [w] cells ending at [i] exist and are all observed.
    pandas turns infinities into NaN before a window function runs. *)
Definition finite_values (l : list val) : option (list Q) := mapM finite_value l.

Definition window (w i : nat) (s : list val) : option (list Q) :=
  if (w =? 0)%nat || (i + 1 <? w)%nat then None
  else finite_values (take w (drop (i + 1 - w) s)).

Definition rolling (w : nat) (agg : list Q -> val) (s : list val) : list val :=
  imap (fun i _ => from_option agg NaN (window w i s)) s.

Definition Qsum (l : list Q) : Q := fold_right Qplus 0 l.
Definition Qlen (l : list Q) : Q := inject_Z (Z.of_nat (length l)).
Definition Qmean (l : list Q) : Q := Qsum l / Qlen l.

Definition agg_sum (l : list Q) : val := num (Qsum l).
Definition agg_mean (l : list Q) : val := num (Qmean l).

(** Sum of squared deviations from the mean, divided by [n - ddof]. *)
Definition Qvar (ddof : nat) (l : list Q) : Q :=
  Qsum (map (fun x => (x - Qmean l) * (x - Qmean l)) l)
  / inject_Z (Z.of_nat (length l - ddof)).

Definition agg_std `{NumLib} (l : list Q) : val :=
  if (length l <=? 1)%nat then NaN else vsqrt (Fin (Qvar 1 l)).

Definition Qmax (a b : Q) : Q := if Qlt_bool a b then b else a.
Definition Qmin (a b : Q) : Q := if Qlt_bool b a then b else a.

Definition agg_max (l : list Q) : val :=
  match l with [] => NaN | x :: l' => num (fold_left Qmax l' x) end.

Definition agg_min (l : list Q) : val :=
  match l with [] => NaN | x :: l' => num (fold_left Qmin l' x) end.

(** [s.expanding().max()]: [min_periods = 1], unobserved cells are skipped. *)
Definition expanding_max (s : list val) : list val :=
  imap (fun i _ => agg_max (omap finite_value (take (S i) s))) s.

(** *** Exponentially weighted mean, [s.ewm(span=p, adjust=False).mean()]

    [span >= 1] is required ([ValueError] otherwise).  The loop keeps the
    running average and the weight of the past, which decays over missing
    cells. *)
Definition ewm_step (alpha : Q) (st : val * val) (cur : val) : val * val :=
  let '(weighted, old_wt) := st in
  if is_nan weighted then ((if is_nan cur then weighted else cur), old_wt)
  else
    let old_wt := vmul old_wt (Fin (1 - alpha)) in
    if is_nan cur then (weighted, old_wt)
    else
      let weighted' :=
        if vne weighted cur
        then vdiv (vadd (vmul old_wt weighted) (vmul (Fin alpha) cur))
                  (vadd old_wt (Fin alpha))
        else weighted in
      (weighted', Fin 1).

Fixpoint ewm_loop (alpha : Q) (st : val * val) (s : list val) : list val :=
  match s with
  | [] => []
  | cur :: s' => let st' := ewm_step alpha st cur in st'.1 :: ewm_loop alpha st' s'
  end.

Definition ewm_mean (span : nat) (s : list val) : option (list val) :=
  if (span <? 1)%nat then None
  else
    let alpha := 2 / (inject_Z (Z.of_nat span) + 1) in
    match s with
    | [] => Some []
    | v :: s' => Some (v :: ewm_loop alpha (v, Fin 1) s')
    end.

(** *** Column arithmetic and reductions *)
Definition s_add := zip_with vadd.
Definition s_sub := zip_with vsub.
Definition s_mul := zip_with vmul.
Definition s_div := zip_with vdiv.
Definition s_scale (k : val) (s : list val) : list val := map (fun v => vmul v k) s.
Definition s_over (k : val) (s : list val) : list val := map (fun v => vdiv v k) s.
Definition s_flag (p : val -> val -> bool) (a b : list val) : list bool := zip_with p a b.
Definition s_and := zip_with andb.
Definition astype_int (s : list bool) : list val := map of_bool s.

Definition vsum (s : list val) : val := fold_left vadd s (Fin 0).

(** [s.mean()], [s.var()], [s.std()] (ddof = 1) and [s.min()] of a Series:
    missing cells are skipped. *)
Definition s_mean (s : list val) : val :=
  let xs := dropna s in vdiv (vsum xs) (of_nat (length xs)).

Definition s_var (ddof : nat) (s : list val) : val :=
  let xs := dropna s in
  if (length xs <=? ddof)%nat then NaN
  else
    let avg := vdiv (vsum xs) (of_nat (length xs)) in
    vdiv (vsum (map (fun x => vmul (vsub avg x) (vsub avg x)) xs))
         (of_nat (length xs - ddof)).

Definition s_std `{NumLib} (ddof : nat) (s : list val) : val := vsqrt (s_var ddof s).

Definition s_min (s : list val) : val :=
  match dropna s with [] => NaN | x :: xs => fold_left vmin xs x end.

Definition s_max (s : list val) : val :=
  match dropna s with [] => NaN | x :: xs => fold_left vmax xs x end.

(* ================================================================= *)
(** ** Frames *)

(** A DataFrame: the index (timestamps of the bars) and the columns by name.
    [df[name]] on a missing column raises [KeyError], here [None]. *)
Record DataFrame : Type := {
  index : list Z;
  columns : gmap string (list val)
}.

Definition col (name : string) (df : DataFrame) : option (list val) :=
  columns df !! name.

Definition set_col (name : string) (s : list val) (df : DataFrame) : DataFrame :=
  {| index := index df; columns := <[name := s]> (columns df) |}.

Definition has_col (name : string) (df : DataFrame) : bool :=
  bool_decide (is_Some (columns df !! name)).

(** [len(df)] and [df.empty]. *)
Definition df_len (df : DataFrame) : nat := length (index df).
Definition df_empty (df : DataFrame) : bool :=
  bool_decide (columns df = ∅) || (df_len df =? 0)%nat.

(* ================================================================= *)
(** ** indicators.py *)

Record IndicatorConfig : Type := {
  sma_periods : list nat;
  ema_periods : list nat;
  rsi_period : nat;
  macd_fast : nat;
  macd_slow : nat;
  macd_signal : nat;
  bb_period : nat;
  bb_std : val;
  stochastic_k : nat;
  stochastic_d : nat
}.

(** [IndicatorConfig()] after [__post_init__]. *)
Definition default_config : IndicatorConfig := {|
  sma_periods := [5; 10; 20; 50; 200]%nat;
  ema_periods := [8; 12; 21; 26; 50]%nat;
  rsi_period := 14;
  macd_fast := 12;
  macd_slow := 26;
  macd_signal := 9;
  bb_period := 20;
  bb_std := Fin 2;
  stochastic_k := 14;
  stochastic_d := 3
|}.

(** A crossing flag: [(a > b) & (a.shift(1) <= b.shift(1))] and its mirror. *)
Definition cross_above (a b : list val) : list val :=
  astype_int (s_and (s_flag vgt a b) (s_flag vle (shift 1 a) (shift 1 b))).

Definition cross_below (a b : list val) : list val :=
  astype_int (s_and (s_flag vlt a b) (s_flag vge (shift 1 a) (shift 1 b))).

Definition add_sma (odf : option DataFrame) (period : nat) : option DataFrame :=
  df ← odf;
  close ← col "Close" df;
  Some (set_col ("SMA_" +:+ pretty period) (rolling period agg_mean close) df).

Definition add_ema (odf : option DataFrame) (period : nat) : option DataFrame :=
  df ← odf;
  close ← col "Close" df;
  e ← ewm_mean period close;
  Some (set_col ("EMA_" +:+ pretty period) e df).

Definition _calculate_moving_averages (config : IndicatorConfig) (df : DataFrame)
  : option DataFrame :=
  df ← fold_left add_sma (sma_periods config) (Some df);
  df ← fold_left add_ema (ema_periods config) (Some df);
  if has_col "SMA_50" df && has_col "SMA_200" df then
    s50 ← col "SMA_50" df;
    s200 ← col "SMA_200" df;
    let df := set_col "Golden_Cross" (cross_above s50 s200) df in
    s50 ← col "SMA_50" df;
    s200 ← col "SMA_200" df;
    Some (set_col "Death_Cross" (cross_below s50 s200) df)
  else Some df.

Definition _calculate_rsi (config : IndicatorConfig) (df : DataFrame)
  : option DataFrame :=
  close ← col "Close" df;
  let delta := diff close in
  let gain := rolling (rsi_period config) agg_mean
                (where_ (fun d => vgt d (Fin 0)) (Fin 0) delta) in
  let loss := rolling (rsi_period config) agg_mean
                (map vneg (where_ (fun d => vlt d (Fin 0)) (Fin 0) delta)) in
  let rs := s_div gain loss in
  let rsi := map (fun r => vsub (Fin 100) (vdiv (Fin 100) (vadd (Fin 1) r))) rs in
  let df := set_col "RSI" rsi df in
  r ← col "RSI" df;
  let df := set_col "RSI_Overbought" (astype_int (map (fun v => vgt v (Fin 70)) r)) df in
  r ← col "RSI" df;
  Some (set_col "RSI_Oversold" (astype_int (map (fun v => vlt v (Fin 30)) r)) df).

Definition _calculate_macd (config : IndicatorConfig) (df : DataFrame)
  : option DataFrame :=
  close ← col "Close" df;
  ema_fast ← ewm_mean (macd_fast config) close;
  close ← col "Close" df;
  ema_slow ← ewm_mean (macd_slow config) close;
  let df := set_col "MACD" (s_sub ema_fast ema_slow) df in
  macd ← col "MACD" df;
  sig ← ewm_mean (macd_signal config) macd;
  let df := set_col "MACD_Signal" sig df in
  macd ← col "MACD" df;
  sig ← col "MACD_Signal" df;
  let df := set_col "MACD_Histogram" (s_sub macd sig) df in
  let df := set_col "MACD_Bullish_Cross" (cross_above macd sig) df in
  Some (set_col "MACD_Bearish_Cross" (cross_below macd sig) df).

Definition _calculate_bollinger_bands `{NumLib} (config : IndicatorConfig) (df : DataFrame)
  : option DataFrame :=
  close ← col "Close" df;
  let sma := rolling (bb_period config) agg_mean close in
  close ← col "Close" df;
  let std := rolling (bb_period config) agg_std close in
  let df := set_col "BB_Upper" (s_add sma (s_scale (bb_std config) std)) df in
  let df := set_col "BB_Lower" (s_sub sma (s_scale (bb_std config) std)) df in
  let df := set_col "BB_Middle" sma df in
  upper ← col "BB_Upper" df;
  lower ← col "BB_Lower" df;
  let df := set_col "BB_Width" (s_sub upper lower) df in
  close ← col "Close" df;
  lower ← col "BB_Lower" df;
  upper ← col "BB_Upper" df;
  let df := set_col "BB_Position" (s_div (s_sub close lower) (s_sub upper lower)) df in
  let df := set_col "BB_Overbought" (astype_int (s_flag vgt close upper)) df in
  Some (set_col "BB_Oversold" (astype_int (s_flag vlt close lower)) df).

Definition _calculate_stochastic (config : IndicatorConfig) (df : DataFrame)
  : option DataFrame :=
  low ← col "Low" df;
  let low_min := rolling (stochastic_k config) agg_min low in
  high ← col "High" df;
  let high_max := rolling (stochastic_k config) agg_max high in
  close ← col "Close" df;
  let df := set_col "Stoch_K"
              (map (vmul (Fin 100)) (s_div (s_sub close low_min) (s_sub high_max low_min))) df in
  k ← col "Stoch_K" df;
  let df := set_col "Stoch_D" (rolling (stochastic_d config) agg_mean k) df in
  k ← col "Stoch_K" df;
  let df := set_col "Stoch_Overbought" (astype_int (map (fun v => vgt v (Fin 80)) k)) df in
  k ← col "Stoch_K" df;
  Some (set_col "Stoch_Oversold" (astype_int (map (fun v => vlt v (Fin 20)) k)) df).

Definition _calculate_williams_r (df : DataFrame) : option DataFrame :=
  high ← col "High" df;
  let high_max := rolling 14 agg_max high in
  low ← col "Low" df;
  let low_min := rolling 14 agg_min low in
  close ← col "Close" df;
  Some (set_col "Williams_R"
          (map (vmul (Fin (-100))) (s_div (s_sub high_max close) (s_sub high_max low_min))) df).

(** The window function of the CCI: [np.mean(np.abs(x - np.mean(x)))]. *)
Definition agg_mad (l : list Q) : val :=
  num (Qmean (map (fun x => Qabs (x - Qmean l)) l)).

Definition typical_price (df : DataFrame) : option (list val) :=
  high ← col "High" df;
  low ← col "Low" df;
  close ← col "Close" df;
  Some (s_over (Fin 3) (s_add (s_add high low) close)).

Definition _calculate_cci (df : DataFrame) : option DataFrame :=
  tp ← typical_price df;
  let sma_tp := rolling 20 agg_mean tp in
  let mad := rolling 20 agg_mad tp in
  Some (set_col "CCI" (s_div (s_sub tp sma_tp) (map (vmul (Fin (3 # 200))) mad)) df).

Definition _calculate_volume_indicators (df : DataFrame) : option DataFrame :=
  close ← col "Close" df;
  volume ← col "Volume" df;
  let df := set_col "OBV"
              (cumsum (fillna (Fin 0) (s_mul (map vsign (diff close)) volume))) df in
  volume ← col "Volume" df;
  let df := set_col "Volume_ROC" (s_scale (Fin 100) (pct_change 10 volume)) df in
  volume ← col "Volume" df;
  let df := set_col "Volume_MA" (rolling 20 agg_mean volume) df in
  volume ← col "Volume" df;
  ma ← col "Volume_MA" df;
  Some (set_col "Volume_Ratio" (s_div volume ma) df).

(** [ranges.max(axis=1)] over three aligned columns: the largest observed
    cell of the row. *)
Definition row_max3 (a b c : list val) : list val :=
  zip_with (fun x yz => s_max [x; yz.1; yz.2]) a (zip b c).

Definition _calculate_atr (df : DataFrame) : option DataFrame :=
  high ← col "High" df;
  low ← col "Low" df;
  let high_low := s_sub high low in
  high ← col "High" df;
  close ← col "Close" df;
  let high_close := map vabs (s_sub high (shift 1 close)) in
  low ← col "Low" df;
  close ← col "Close" df;
  let low_close := map vabs (s_sub low (shift 1 close)) in
  let true_range := row_max3 high_low high_close low_close in
  Some (set_col "ATR" (rolling 14 agg_mean true_range) df).

Definition _calculate_keltner_channels (df : DataFrame) : option DataFrame :=
  close ← col "Close" df;
  ema ← ewm_mean 20 close;
  df ← (if has_col "ATR" df then Some df else _calculate_atr df);
  atr ← col "ATR" df;
  let df := set_col "KC_Upper" (s_add ema (s_scale (Fin 2) atr)) df in
  let df := set_col "KC_Lower" (s_sub ema (s_scale (Fin 2) atr)) df in
  Some (set_col "KC_Middle" ema df).

Definition mid_range (w : nat) (df : DataFrame) : option (list val) :=
  high ← col "High" df;
  low ← col "Low" df;
  Some (s_over (Fin 2) (s_add (rolling w agg_max high) (rolling w agg_min low))).

Definition _calculate_ichimoku (df : DataFrame) : option DataFrame :=
  tenkan ← mid_range 9 df;
  let df := set_col "Ichimoku_Tenkan" tenkan df in
  kijun ← mid_range 26 df;
  let df := set_col "Ichimoku_Kijun" kijun df in
  t ← col "Ichimoku_Tenkan" df;
  k ← col "Ichimoku_Kijun" df;
  let df := set_col "Ichimoku_Senkou_A" (shift 26 (s_over (Fin 2) (s_add t k))) df in
  b ← mid_range 52 df;
  let df := set_col "Ichimoku_Senkou_B" (shift 26 b) df in
  close ← col "Close" df;
  Some (set_col "Ichimoku_Chikou" (shift_back 26 close) df).

Definition _calculate_vwap (df : DataFrame) : option DataFrame :=
  tp ← typical_price df;
  volume ← col "Volume" df;
  let cumulative_tpv := cumsum (s_mul tp volume) in
  volume ← col "Volume" df;
  let cumulative_volume := cumsum volume in
  Some (set_col "VWAP" (s_div cumulative_tpv cumulative_volume) df).

(** *** Frame objects

    [calculate_all] works on a copy: [data.copy()] allocates a new frame
    object, and every [_calculate_*] method assigns columns of the object it
    is handed and returns that same object.  The store maps an object
    identity to the frame it currently holds. *)
Abbreviation store := (gmap nat DataFrame).
Definition M (A : Type) : Type := store -> option (A * store).

Definition ret {A} (a : A) : M A := fun σ => Some (a, σ).
Definition bind {A B} (m : M A) (k : A -> M B) : M B :=
  fun σ => match m σ with Some (a, σ') => k a σ' | None => None end.

Notation "'do' x <- m ; k" := (bind m (fun x => k))
  (at level 10, x name, m at level 100, k at level 200).

(** [data.copy()]. *)
Definition copy (r : nat) : M nat :=
  fun σ => df ← σ !! r;
           let r' := fresh (dom σ) in Some (r', <[r' := df]> σ).

(** A method that mutates the frame behind [r] and returns [r]. *)
Definition in_place (f : DataFrame -> option DataFrame) (r : nat) : M nat :=
  fun σ => df ← σ !! r; df' ← f df; Some (r, <[r := df']> σ).

Definition calculate_all `{NumLib} (config : IndicatorConfig) (data : nat) : M nat :=
  do df <- copy data;
  do df <- in_place (_calculate_moving_averages config) df;
  do df <- in_place (_calculate_rsi config) df;
  do df <- in_place (_calculate_macd config) df;
  do df <- in_place (_calculate_bollinger_bands config) df;
  do df <- in_place (_calculate_stochastic config) df;
  do df <- in_place _calculate_williams_r df;
  do df <- in_place _calculate_cci df;
  do df <- in_place _calculate_volume_indicators df;
  do df <- in_place _calculate_atr df;
  do df <- in_place _calculate_keltner_channels df;
  do df <- in_place _calculate_ichimoku df;
  do df <- in_place _calculate_vwap df;
  ret df.

(* ================================================================= *)
(** ** market_analyzer.py *)

(** *** Series with their index *)

(** A Series that keeps its labels: [(timestamp, cell)] in index order. *)
Definition iseries (name : string) (df : DataFrame) : option (list (Z * val)) :=
  c ← col name df; Some (zip (index df) c).

Definition i_pct_change (s : list (Z * val)) : list (Z * val) :=
  zip s.*1 (pct_change 1 s.*2).

Definition i_dropna (s : list (Z * val)) : list (Z * val) :=
  filter (fun p => is_nan p.2 = false) s.

(** [a.index.intersection(b.index)] on indexes without repeated labels. *)
Definition index_intersection (a b : list Z) : list Z :=
  filter (fun t => t ∈ b) a.

Definition label_lookup (t : Z) (s : list (Z * val)) : option val :=
  (fun r => r.2.2) <$> list_find (fun p => p.1 = t) s.

(** [s[labels]]: the rows of [s] at the given labels. *)
Definition loc (labels : list Z) (s : list (Z * val)) : list (Z * val) :=
  omap (fun t => v ← label_lookup t s; Some (t, v)) labels.

(** *** numpy and scipy reductions *)

Fixpoint vinsert (x : val) (l : list val) : list val :=
  match l with
  | [] => [x]
  | y :: l' => if vlt y x then y :: vinsert x l' else x :: l
  end.

Definition vsort (l : list val) : list val := fold_right vinsert [] l.

(** [np.percentile(a, q)] with the default linear interpolation, [a] without
    NaN and not empty. *)
Definition lerp (a b : val) (t : Q) : val :=
  let d := vsub b a in
  if Qle_bool (1 # 2) t then vsub b (vmul d (Fin (1 - t)))
  else vadd a (vmul d (Fin t)).

Definition percentile (a : list val) (q : Q) : val :=
  let sorted := vsort a in
  let n := length a in
  let virt := q / 100 * inject_Z (Z.of_nat (n - 1)) in
  let lo := Z.to_nat (Qfloor virt) in
  let gamma := virt - inject_Z (Qfloor virt) in
  lerp (default NaN (sorted !! lo)) (default NaN (sorted !! Nat.min (lo + 1) (n - 1))) gamma.

(** Sum of the products of deviations from the two means. *)
Definition codeviation (a b : list val) : val :=
  let ma := vdiv (vsum a) (of_nat (length a)) in
  let mb := vdiv (vsum b) (of_nat (length b)) in
  vsum (zip_with (fun x y => vmul (vsub x ma) (vsub y mb)) a b).

(** [np.cov(a, b)[0, 1]] with [ddof = 1]. *)
Definition np_cov (a b : list val) : val :=
  vdiv (codeviation a b) (of_nat (length a - 1)).

Definition clip (lo hi v : val) : val :=
  if vlt v lo then lo else if vlt hi v then hi else v.

(** [np.corrcoef(a, b)[0, 1]]: the covariance divided by both standard
    deviations in turn, clipped to [-1, 1]. *)
Definition np_corrcoef `{NumLib} (a b : list val) : val :=
  clip (Fin (-1)) (Fin 1)
    (vdiv (vdiv (np_cov a b) (vsqrt (np_cov a a))) (vsqrt (np_cov b b))).

(** Rows where both cells are observed ([nancorr] and [nancov]). *)
Definition valid_pairs (a b : list val) : list (val * val) :=
  filter (fun p => is_nan p.1 = false ∧ is_nan p.2 = false) (zip a b).

(** [a.corr(b)] and [a.cov(b)] of two Series with the same index. *)
Definition s_corr `{NumLib} (a b : list val) : val :=
  let v := valid_pairs a b in
  if (length v <? 1)%nat then NaN else np_corrcoef v.*1 v.*2.

Definition s_cov (a b : list val) : val :=
  let v := valid_pairs a b in
  if (length v <? 1)%nat then NaN else np_cov v.*1 v.*2.

(** The slope of [scipy.stats.linregress(x, y)]: the two series have the same
    length ([ValueError] otherwise) and [x] is not constant. *)
Definition linregress_slope (x y : list val) : option val :=
  if negb (length x =? length y)%nat then None
  else if (length x <? 2)%nat then None
  else
    let n := of_nat (length x) in
    let ssxm := vdiv (codeviation x x) n in
    let ssxym := vdiv (codeviation x y) n in
    if veq ssxm (Fin 0) then None else Some (vdiv ssxym ssxm).

(** *** Risk metrics *)

Record RiskMetrics : Type := {
  var_95 : val;
  var_99 : val;
  expected_shortfall : val;
  max_drawdown : val;
  sharpe_ratio : val;
  sortino_ratio : val;
  calmar_ratio : val;
  beta : val;
  alpha : val
}.

(** [data['Close'].pct_change().dropna()]. *)
Definition close_returns (data : DataFrame) : option (list val) :=
  close ← col "Close" data; Some (dropna (pct_change 1 close)).

Definition drawdown_series (returns : list val) : list val :=
  let cumulative := cumprod (map (vadd (Fin 1)) returns) in
  let running_max := expanding_max cumulative in
  s_div (s_sub cumulative running_max) running_max.

Definition _calculate_risk_metrics `{NumLib} (data : DataFrame) : option RiskMetrics :=
  returns ← close_returns data;
  if (length returns <? 30)%nat then
    Some {| var_95 := Fin 0; var_99 := Fin 0; expected_shortfall := Fin 0;
            max_drawdown := Fin 0; sharpe_ratio := Fin 0; sortino_ratio := Fin 0;
            calmar_ratio := Fin 0; beta := Fin 0; alpha := Fin 0 |}
  else
    let var_95 := percentile returns 5 in
    let var_99 := percentile returns 1 in
    let expected_shortfall := s_mean (filter (fun r => vle r var_95 = true) returns) in
    let max_drawdown := s_min (drawdown_series returns) in
    let sharpe_ratio :=
      if vne (s_std 1 returns) (Fin 0)
      then vmul (vdiv (s_mean returns) (s_std 1 returns)) (vsqrt (Fin 252))
      else Fin 0 in
    let negative_returns := filter (fun r => vlt r (Fin 0) = true) returns in
    let downside_deviation :=
      if (0 <? length negative_returns)%nat
      then vsqrt (s_mean (map (fun r => vmul r r) negative_returns))
      else Fin 0 in
    let sortino_ratio :=
      if vne downside_deviation (Fin 0)
      then vmul (vdiv (s_mean returns) downside_deviation) (vsqrt (Fin 252))
      else Fin 0 in
    let calmar_ratio :=
      if vne max_drawdown (Fin 0)
      then vdiv (vmul (s_mean returns) (Fin 252)) (vabs max_drawdown)
      else Fin 0 in
    Some {| var_95 := var_95; var_99 := var_99;
            expected_shortfall := expected_shortfall;
            max_drawdown := max_drawdown; sharpe_ratio := sharpe_ratio;
            sortino_ratio := sortino_ratio; calmar_ratio := calmar_ratio;
            beta := Fin 1; alpha := vmul (s_mean returns) (Fin 252) |}.

(** *** Market regime *)

Inductive Regime : Type :=
  | HIGH_VOLATILITY
  | LOW_VOLATILITY
  | TRENDING
  | MEAN_REVERTING
  | NORMAL
  | UNKNOWN.

Record MarketRegime : Type := {
  regime : Regime;
  volatility : val;
  trend_strength : val;
  mean_reversion : val
}.

(** [s[-k:]] and [s.iloc[-1]]. *)
Definition tail_slice {A} (k : nat) (s : list A) : list A := drop (length s - k) s.
Definition iloc_last (s : list val) : option val := last s.

(** The bare [except] turns every failure of the fit into 0.5. *)
Definition _calculate_hurst_exponent `{NumLib} (returns : list val) : val :=
  let lags := seq 2 (Nat.min 100 (length returns / 2) - 2) in
  let tau := map (fun lag => s_std 0 (rolling lag agg_sum returns)) lags in
  match np_polyfit_slope (map (fun lag => vlog (of_nat lag)) lags) (map vlog tau) with
  | Some slope => slope
  | None => Fin (1 # 2)
  end.

Definition _detect_market_regime `{NumLib} (data : DataFrame) : option MarketRegime :=
  returns ← close_returns data;
  if (length returns <? 20)%nat then
    Some {| regime := UNKNOWN; volatility := Fin 0; trend_strength := Fin 0;
            mean_reversion := Fin 0 |}
  else
    sd ← iloc_last (rolling 20 agg_std returns);
    let volatility := vmul sd (vsqrt (Fin 252)) in
    let x := map of_nat (seq 0 (length (tail_slice 20 returns))) in
    close ← col "Close" data;
    let y := tail_slice 20 close in
    slope ← linregress_slope x y;
    close ← col "Close" data;
    last_close ← iloc_last close;
    let trend_strength := vmul (vdiv (vabs slope) last_close) (Fin 100) in
    let mean_reversion := _calculate_hurst_exponent (tail_slice 100 returns) in
    let regime :=
      if vgt volatility (Fin (3 # 10)) then HIGH_VOLATILITY
      else if vlt volatility (Fin (1 # 10)) then LOW_VOLATILITY
      else if vgt trend_strength (Fin (1 # 2)) then TRENDING
      else if vlt mean_reversion (Fin (1 # 2)) then MEAN_REVERTING
      else NORMAL in
    Some {| regime := regime; volatility := volatility;
            trend_strength := trend_strength; mean_reversion := mean_reversion |}.

(** *** Correlation with a benchmark *)

(** The dict returned by [_calculate_correlations]; the empty dict is [None]. *)
Record CorrelationResult : Type := {
  correlation_with_benchmark : val;
  benchmark_beta : val;
  r_squared : val
}.

Definition _calculate_beta `{NumLib} (returns benchmark_returns : list val) : val :=
  if (length returns <? 2)%nat || veq (s_std 1 benchmark_returns) (Fin 0) then Fin 1
  else
    let covariance := s_cov returns benchmark_returns in
    let benchmark_variance := s_var 1 benchmark_returns in
    vdiv covariance benchmark_variance.

Definition _calculate_correlations `{NumLib} (data benchmark : DataFrame)
  : option (option CorrelationResult) :=
  if df_empty benchmark || negb (df_len data =? df_len benchmark)%nat then Some None
  else
    close ← iseries "Close" data;
    let returns := i_dropna (i_pct_change close) in
    bclose ← iseries "Close" benchmark;
    let benchmark_returns := i_dropna (i_pct_change bclose) in
    let common_dates := index_intersection returns.*1 benchmark_returns.*1 in
    if (length common_dates <? 10)%nat then Some None
    else
      let aligned_returns := (loc common_dates returns).*2 in
      let aligned_benchmark := (loc common_dates benchmark_returns).*2 in
      let correlation := s_corr aligned_returns aligned_benchmark in
      Some (Some {| correlation_with_benchmark := correlation;
                    benchmark_beta := _calculate_beta aligned_returns aligned_benchmark;
                    r_squared := vmul correlation correlation |}).

(** *** Portfolio *)

Record PortfolioSnapshot : Type := {
  portfolio_symbols : list string;
  correlation_matrix : list (list val);
  pca_explained_variance : list val;
  portfolio_volatility : val;
  diversification_ratio : val
}.

(** [returns_data[symbol] = ...] on a dict kept in insertion order. *)
Definition dict_set {V} (k : string) (v : V) (d : list (string * V)) : list (string * V) :=
  if bool_decide (k ∈ d.*1)
  then map (fun e => if bool_decide (e.1 = k) then (k, v) else e) d
  else d ++ [(k, v)].

Definition collect_returns (data : gmap string DataFrame)
    (acc : option (list (string * list (Z * val)))) (symbol : string)
  : option (list (string * list (Z * val))) :=
  returns_data ← acc;
  match data !! symbol with
  | Some df =>
      if df_empty df then Some returns_data
      else close ← iseries "Close" df;
           Some (dict_set symbol (i_pct_change close) returns_data)
  | None => Some returns_data
  end.

(** [pd.DataFrame(returns_data)]: the rows over the sorted union of the
    indexes, a cell missing where a series has no such label. *)
Definition union_index (series : list (list (Z * val))) : list Z :=
  merge_sort Z.le (remove_dups (concat (map (fun s => s.*1) series))).

Definition frame_rows (series : list (list (Z * val))) : list (list val) :=
  map (fun t => map (fun s => default NaN (label_lookup t s)) series) (union_index series).

(** [df.dropna()]: rows with a missing cell are dropped. *)
Definition dropna_rows (rows : list (list val)) : list (list val) :=
  filter (fun r => forallb (fun v => negb (is_nan v)) r = true) rows.

Definition column_of (j : nat) (rows : list (list val)) : list val :=
  map (fun r => default NaN (r !! j)) rows.

(** One entry of [returns_df.corr()]: no value without observations or when
    a series does not vary, clipped to [-1, 1] otherwise. *)
Definition pandas_corr `{NumLib} (a b : list val) : val :=
  if (length a <? 1)%nat then NaN
  else
    let divisor := vsqrt (vmul (codeviation a a) (codeviation b b)) in
    if vne divisor (Fin 0)
    then clip (Fin (-1)) (Fin 1) (vdiv (codeviation a b) divisor)
    else NaN.

Definition corr_matrix `{NumLib} (ncols : nat) (rows : list (list val)) : list (list val) :=
  map (fun i => map (fun j => pandas_corr (column_of i rows) (column_of j rows))
                    (seq 0 ncols))
      (seq 0 ncols).

(** The entries above the diagonal, [values[np.triu_indices_from(values, k=1)]]. *)
Definition upper_triangle (m : list (list val)) : list val :=
  concat (imap (fun i row => drop (S i) row) m).

Definition np_mean (a : list val) : val := vdiv (vsum a) (of_nat (length a)).

Definition _calculate_diversification_ratio `{NumLib} (correlation_matrix : list (list val))
  : val :=
  let n_assets := length correlation_matrix in
  if (n_assets =? 1)%nat then Fin 1
  else
    let avg_corr := np_mean (upper_triangle correlation_matrix) in
    vdiv (Fin 1) (vmul avg_corr (vsqrt (of_nat n_assets))).

(** The result is [Some None] for the empty dict and [None] when the call
    raises. *)
Definition _analyze_portfolio `{NumLib} (data : gmap string DataFrame) (symbols : list string)
  : option (option PortfolioSnapshot) :=
  returns_data ← fold_left (collect_returns data) symbols (Some []);
  if bool_decide (returns_data = []) then Some None
  else
    let returns_df := dropna_rows (frame_rows returns_data.*2) in
    let ncols := length returns_data in
    let correlation_matrix := corr_matrix ncols returns_df in
    evr ← pca_explained_variance_ratio (Nat.min 3 (length symbols)) returns_df;
    let n_assets := length symbols in
    let weight := vdiv (Fin 1) (of_nat n_assets) in
    if negb (ncols =? n_assets)%nat then None
    else
      let portfolio_returns := map (fun r => vsum (map (fun v => vmul v weight) r)) returns_df in
      Some (Some {| portfolio_symbols := returns_data.*1;
                    correlation_matrix := correlation_matrix;
                    pca_explained_variance := evr;
                    portfolio_volatility := vmul (s_std 1 portfolio_returns) (vsqrt (Fin 252));
                    diversification_ratio :=
                      _calculate_diversification_ratio correlation_matrix |}).

(* ================================================================= *)
(** ** Vocabulary of the specification *)

(** A cell that holds the number [q]. *)
Definition holds (v : val) (q : Q) : Prop := exists q', v = Fin q' /\ q' == q.

(** Every cell of the column is a number: nothing missing, no infinity. *)
Definition all_numbers (s : list val) : Prop := Forall (fun v => is_fin v = true) s.

(** Every close is a positive number, as a price is. *)
Definition positive_prices (s : list val) : Prop :=
  Forall (fun v => exists q, v = Fin q /\ 0 < q) s.

(** Every bar has Low <= Close <= High. *)
Definition bars_ordered (low close high : list val) : Prop :=
  Forall3 (fun l c h => exists ql qc qh,
             l = Fin ql /\ c = Fin qc /\ h = Fin qh /\ ql <= qc /\ qc <= qh)
          low close high.

(** A price series has the four columns the indicators read. *)
Definition price_frame (df : DataFrame) : Prop :=
  is_Some (col "Close" df) /\ is_Some (col "High" df) /\
  is_Some (col "Low" df) /\ is_Some (col "Volume" df).

(** Every period handed to [ewm(span=...)] is at least 1. *)
Definition valid_config (config : IndicatorConfig) : Prop :=
  Forall (fun p => 1 <= p)%nat (ema_periods config) /\
  (1 <= macd_fast config)%nat /\ (1 <= macd_slow config)%nat /\
  (1 <= macd_signal config)%nat.

(** *** Gains and losses of a window *)

(** The change from bar [j] to bar [j+1] is a loss, or a gain.  No change
    leads into the first bar. *)
Definition loss_at (close : list val) (j : nat) : Prop :=
  exists a b, close !! j = Some (Fin a) /\ close !! S j = Some (Fin b) /\ b < a.


(** The changes of the window of [p] bars that ends at bar [i] are those
    that lead into the bars [i+1-p .. i]. *)
Definition in_window (p i j : nat) : Prop := (i + 1 - p <= S j <= i)%nat.

Definition no_loss_in_window (close : list val) (p i : nat) : Prop :=
  forall j, in_window p i j -> ~ loss_at close j.


(** *** Drawdown *)

(** Consecutive cells never decrease. *)
Definition nondecreasing (s : list val) : Prop :=
  forall i a b, s !! i = Some a -> s !! S i = Some b -> vle a b = true.

(** The running product of one plus each return. *)
Definition cumulative_path (returns : list val) : list val :=
  cumprod (map (vadd (Fin 1)) returns).

Definition zero_risk_metrics : RiskMetrics :=
  {| var_95 := Fin 0; var_99 := Fin 0; expected_shortfall := Fin 0;
     max_drawdown := Fin 0; sharpe_ratio := Fin 0; sortino_ratio := Fin 0;
     calmar_ratio := Fin 0; beta := Fin 0; alpha := Fin 0 |}.

(** *** Regime rules *)

(** First match wins. *)
Fixpoint first_match {A} (rules : list (bool * A)) (otherwise : A) : A :=
  match rules with
  | [] => otherwise
  | (true, a) :: _ => a
  | (false, _) :: rules' => first_match rules' otherwise
  end.

Definition classify (volatility trend_strength mean_reversion : val) : Regime :=
  first_match
    [ (vgt volatility (Fin (3 # 10)), HIGH_VOLATILITY);
      (vlt volatility (Fin (1 # 10)), LOW_VOLATILITY);
      (vgt trend_strength (Fin (1 # 2)), TRENDING);
      (vlt mean_reversion (Fin (1 # 2)), MEAN_REVERTING) ]
    NORMAL.

Definition unknown_regime : MarketRegime :=
  {| regime := UNKNOWN; volatility := Fin 0; trend_strength := Fin 0;
     mean_reversion := Fin 0 |}.

(** *** Alignment *)

(** The timestamps at which both series have a return. *)
Definition overlapping_observations (close bclose : list (Z * val)) : list Z :=
  index_intersection (i_dropna (i_pct_change close)).*1
                     (i_dropna (i_pct_change bclose)).*1.

(** *** The pipeline of [calculate_all] *)

(** What [calculate_all] does to the copied frame: the twelve methods in
    turn. *)
Definition indicator_pipeline `{NumLib} (config : IndicatorConfig) (df : DataFrame)
  : option DataFrame :=
  df ← _calculate_moving_averages config df;
  df ← _calculate_rsi config df;
  df ← _calculate_macd config df;
  df ← _calculate_bollinger_bands config df;
  df ← _calculate_stochastic config df;
  df ← _calculate_williams_r df;
  df ← _calculate_cci df;
  df ← _calculate_volume_indicators df;
  df ← _calculate_atr df;
  df ← _calculate_keltner_channels df;
  df ← _calculate_ichimoku df;
  _calculate_vwap df.

(** A method succeeds on a price series and leaves a price series. *)
Definition keeps_prices (f : DataFrame -> option DataFrame) : Prop :=
  forall df, price_frame df -> exists df', f df = Some df' /\ price_frame df'.

(* ================================================================= *)
(** ** A numeric library that computes

    Fixed-point stand-ins with 2^-30 resolution, used to evaluate the
    examples: the square root rounded up (zero only at zero), the logarithm
    by scaling the argument into (1/2, 2) and a truncated series, and the
    closed form of the least-squares slope on finite data.  The principal
    components are not evaluated; the stand-in reports none. *)

Definition fixed_bits : Z := 30.

Definition sqrt_fixed (q : Q) : Q :=
  Qred (inject_Z (Z.sqrt_up (Qceiling (q * inject_Z (2 ^ (2 * fixed_bits)))))
        / inject_Z (2 ^ fixed_bits)).

Definition ln2 : Q := 6931471805599453 # 10000000000000000.

Definition log_fixed (q : Q) : Q :=
  let n := (Z.log2 (Qnum q) - Z.log2 (Zpos (Qden q)))%Z in
  let m := q / Qpower 2 n in
  let z := (m - 1) / (m + 1) in
  let z2 := z * z in
  let series := z * (1 + z2 * ((1 # 3) + z2 * ((1 # 5) + z2 * ((1 # 7) + z2 * (1 # 9))))) in
  Qred (inject_Z (Qfloor ((inject_Z n * ln2 + 2 * series) * inject_Z (2 ^ fixed_bits)))
        / inject_Z (2 ^ fixed_bits)).

Definition lstsq_slope (x y : list val) : option val :=
  match finite_values x, finite_values y with
  | Some _, Some _ => linregress_slope x y
  | _, _ => None
  end.

Definition computing_lib : NumLib := {|
  np_sqrt := sqrt_fixed;
  np_log := log_fixed;
  np_polyfit_slope := lstsq_slope;
  pca_explained_variance_ratio := fun _ _ => Some []
|}.

(* ================================================================= *)
(** ** Example inputs and their evaluated results *)

(** A frame with only a Close column, its timestamps counting from [start]. *)
Definition frame_at (start : Z) (close : list Q) : DataFrame :=
  {| index := map (fun i => (start + Z.of_nat i)%Z) (seq 0 (length close));
     columns := <["Close" := map Fin close]> ∅ |}.

(** The Close column of such a frame with its timestamps. *)
Definition labelled_close (start : Z) (close : list Q) : list (Z * val) :=
  zip (index (frame_at start close)) (map Fin close).

Definition ohlcv (open high low close volume : list Q) : DataFrame :=
  {| index := map Z.of_nat (seq 0 (length close));
     columns := <["Open" := map Fin open]> (<["High" := map Fin high]>
                (<["Low" := map Fin low]> (<["Close" := map Fin close]>
                (<["Volume" := map Fin volume]> ∅)))) |}.

Definition example_bars : DataFrame :=
  ohlcv [10; 11; 12] [12; 13; 14] [9; 10; 11] [11; 12; 13] [500; 700; 300].

(** Closes 100, 101, 102, ... and 100, 101, 104, 109, ... *)
Definition ramp (n : nat) : list Q :=
  map (fun i => 100 + inject_Z (Z.of_nat i)) (seq 0 n).

Definition squares (n : nat) : list Q :=
  map (fun i => 100 + inject_Z (Z.of_nat (i * i))) (seq 0 n).

Definition ramp_returns : list val :=
  Eval vm_compute in dropna (pct_change 1 (map Fin (ramp 22))).

Definition ramp31_returns : list val :=
  Eval vm_compute in dropna (pct_change 1 (map Fin (ramp 31))).

(** A configuration with short windows. *)
Definition short_config : IndicatorConfig := {|
  sma_periods := [5; 10; 20; 50; 200]%nat;
  ema_periods := [8; 12; 21; 26; 50]%nat;
  rsi_period := 2; macd_fast := 12; macd_slow := 26; macd_signal := 9;
  bb_period := 3; bb_std := Fin 2; stochastic_k := 3; stochastic_d := 3 |}.

(** Two-asset portfolios: returns of +-10% that are uncorrelated, and
    returns that move against each other at two strengths. *)
Definition portfolio_of (a b : list Q) : gmap string DataFrame :=
  <["A" := frame_at 0 a]> (<["B" := frame_at 0 b]> ∅).

Definition uncorrelated_portfolio : gmap string DataFrame :=
  portfolio_of [100; 110; 99; 108.9; 98.01] [100; 110; 121; 108.9; 98.01].

Definition mirrored_portfolio : gmap string DataFrame :=
  portfolio_of [100; 110; 99; 108.9; 98.01] [100; 90; 99; 89.1; 98.01].

Definition opposed_portfolio : gmap string DataFrame :=
  portfolio_of [100; 110; 99; 110; 100] [100; 90; 100; 95; 100].

Definition empty_frame : DataFrame := {| index := []; columns := ∅ |}.

Definition empty_snapshot : PortfolioSnapshot :=
  {| portfolio_symbols := []; correlation_matrix := []; pca_explained_variance := [];
     portfolio_volatility := NaN; diversification_ratio := NaN |}.

Definition the_snapshot (r : option (option PortfolioSnapshot)) : PortfolioSnapshot :=
  match r with Some (Some s) => s | _ => empty_snapshot end.

Definition bollinger_example : DataFrame :=
  Eval vm_compute in
    default empty_frame
      (@_calculate_bollinger_bands computing_lib short_config (frame_at 0 [5; 6; 7])).

Definition stochastic_example : DataFrame :=
  Eval vm_compute in default empty_frame (_calculate_stochastic short_config example_bars).

Definition rsi_example : DataFrame :=
  Eval vm_compute in
    default empty_frame (_calculate_rsi short_config (frame_at 0 [5; 5; 5; 6; 7; 6; 5])).

Definition rsi_flat_example : DataFrame :=
  Eval vm_compute in default empty_frame (_calculate_rsi short_config (frame_at 0 [5; 5; 5])).

Definition uncorrelated_snapshot : PortfolioSnapshot :=
  Eval vm_compute in
    the_snapshot (@_analyze_portfolio computing_lib uncorrelated_portfolio ["A"; "B"]).

Definition mirrored_snapshot : PortfolioSnapshot :=
  Eval vm_compute in
    the_snapshot (@_analyze_portfolio computing_lib mirrored_portfolio ["A"; "B"]).

Definition opposed_snapshot : PortfolioSnapshot :=
  Eval vm_compute in
    the_snapshot (@_analyze_portfolio computing_lib opposed_portfolio ["A"; "B"]).


(* ================================================================= *)
(** ** indicators.py: support and resistance levels *)

(** [s.rolling(window=w, center=True)]: the window of the cell at [i] ends
    [(w - 1) // 2] cells after it; where it would run past either end of the
    column it holds fewer than [w] cells and the result is missing. *)
Definition window_center (w i : nat) (s : list val) : option (list Q) :=
  let offset := ((w - 1) / 2)%nat in
  if (length s <? i + 1 + offset)%nat then None else window w (i + offset) s.

Definition rolling_center (w : nat) (agg : list Q -> val) (s : list val) : list val :=
  imap (fun i _ => from_option agg NaN (window_center w i s)) s.

(** [s[s == other]]: the cells of [s] at the positions where the two columns
    are equal. *)
Definition select_eq (s other : list val) : list val :=
  (filter (fun p => veq p.1 p.2 = true) (zip s other)).*1.

(** [s.nlargest(k)] and [s.nsmallest(k)]: missing cells are left out, the
    largest (smallest) comes first. *)
Definition nlargest (k : nat) (s : list val) : list val :=
  take k (reverse (vsort (dropna s))).

Definition nsmallest (k : nat) (s : list val) : list val :=
  take k (vsort (dropna s)).

Record SupportResistance : Type := {
  resistance : list val;
  support : list val
}.

Definition calculate_support_resistance (w : nat) (df : DataFrame)
  : option SupportResistance :=
  high ← col "High" df;
  let highs := rolling_center w agg_max high in
  low ← col "Low" df;
  let lows := rolling_center w agg_min low in
  let resistance_levels := dropna (select_eq highs (rolling_center w agg_max highs)) in
  let support_levels := dropna (select_eq lows (rolling_center w agg_min lows)) in
  Some {| resistance := nlargest 3 resistance_levels;
          support := nsmallest 3 support_levels |}.

(* ================================================================= *)
(** ** market_analyzer.py: technical summary *)

Inductive MomentumSignal : Type := OVERBOUGHT | OVERSOLD | MOMENTUM_NEUTRAL.
Inductive TradeSignal : Type := BUY | SELL.
Inductive VolumeSignal : Type := VOLUME_HIGH | VOLUME_NORMAL.

(** One entry of the [interpretations] dict:
    [lambda x: 'OVERBOUGHT' if x > hi else 'OVERSOLD' if x < lo else 'NEUTRAL']. *)
Definition momentum_rule (hi lo : Q) (x : val) : MomentumSignal :=
  if vgt x (Fin hi) then OVERBOUGHT
  else if vlt x (Fin lo) then OVERSOLD
  else MOMENTUM_NEUTRAL.

Definition interpretations : gmap string (val -> MomentumSignal) :=
  list_to_map [ ("RSI", momentum_rule 70 30);
                ("Stoch_K", momentum_rule 80 20);
                ("Williams_R", momentum_rule (-20) (-80));
                ("CCI", momentum_rule 100 (-100)) ].

Definition _interpret_momentum_indicator (indicator : string) (value : val)
  : MomentumSignal :=
  default (fun _ => MOMENTUM_NEUTRAL) (interpretations !! indicator) value.

(** [data.iloc[-1][name]]: [IndexError] on a frame without rows, [KeyError]
    on a missing column. *)
Definition latest (name : string) (data : DataFrame) : option val :=
  if (df_len data =? 0)%nat then None
  else c ← col name data; iloc_last c.

(** The entries a loop adds for the columns of [names] that are in the
    frame. *)
Definition entry_if_present {A} (data : DataFrame) (f : string -> val -> A)
    (name : string) : option (list (string * A)) :=
  if has_col name data then v ← latest name data; Some [(name, f name v)]
  else Some [].

Definition entries {A} (data : DataFrame) (f : string -> val -> A)
    (names : list string) : option (list (string * A)) :=
  l ← mapM (entry_if_present data f) names; Some (concat l).

Record TechnicalSummary : Type := {
  current_price : val;
  sma_signals : list (string * (val * TradeSignal));
  momentum_signals : list (string * (val * MomentumSignal));
  volatility_signals : list (string * val);
  volume_signals : option (val * VolumeSignal)
}.

Definition _extract_technical_summary (data : DataFrame) : option TechnicalSummary :=
  close ← latest "Close" data;
  sma ← entries data (fun _ v => (v, if vgt close v then BUY else SELL))
           (map (fun period : nat => "SMA_" +:+ pretty period) [20; 50; 200]%nat);
  momentum ← entries data (fun name v => (v, _interpret_momentum_indicator name v))
                ["RSI"; "MACD"; "Stoch_K"; "Williams_R"; "CCI"];
  volatility_signals ←
    (if has_col "ATR" data
     then atr ← latest "ATR" data;
          close ← latest "Close" data;
          Some [("ATR", atr); ("ATR_ratio", vdiv atr close)]
     else Some []);
  volume_signals ←
    (if has_col "Volume_Ratio" data
     then r ← latest "Volume_Ratio" data;
          Some (Some (r, if vgt r (Fin (3 # 2)) then VOLUME_HIGH else VOLUME_NORMAL))
     else Some None);
  Some {| current_price := close; sma_signals := sma; momentum_signals := momentum;
          volatility_signals := volatility_signals; volume_signals := volume_signals |}.

(* ================================================================= *)
(** ** market_analyzer.py: performance metrics *)

(** The loop of [_max_consecutive_wins] and [_max_consecutive_losses] over
    the 0/1 flags: the running streak and the longest one so far. *)
Definition streak_step (st : nat * nat) (flag : val) : nat * nat :=
  let '(consecutive, max_consecutive) := st in
  if veq flag (Fin 1)
  then (S consecutive, Nat.max max_consecutive (S consecutive))
  else (0%nat, max_consecutive).

Definition longest_streak (flags : list val) : nat :=
  (fold_left streak_step flags (0%nat, 0%nat)).2.

Definition _max_consecutive_wins (returns : list val) : nat :=
  longest_streak (astype_int (map (fun r => vgt r (Fin 0)) returns)).

Definition _max_consecutive_losses (returns : list val) : nat :=
  longest_streak (astype_int (map (fun r => vlt r (Fin 0)) returns)).

(** [x ** y] on doubles is left to the platform: a parameter, like the
    functions of [NumLib]. *)
Class FloatPow : Type := { float_pow : val -> val -> val }.

(** The power is not evaluated in the examples; the stand-in reports no
    value. *)
Definition computing_pow : FloatPow := {| float_pow := fun _ _ => NaN |}.

(** The dict returned by [_calculate_performance_metrics]; the empty dict is
    [None]. *)
Record PerformanceMetrics : Type := {
  total_return_pct : val;
  annualized_return_pct : val;
  volatility_pct : val;
  performance_sharpe_ratio : val;
  max_consecutive_wins : nat;
  max_consecutive_losses : nat
}.

Definition iloc_first (s : list val) : option val := head s.

Definition _calculate_performance_metrics `{NumLib} `{FloatPow} (data : DataFrame)
  : option (option PerformanceMetrics) :=
  returns ← close_returns data;
  if (length returns =? 0)%nat then Some None
  else
    close ← col "Close" data;
    last_close ← iloc_last close;
    close ← col "Close" data;
    first_close ← iloc_first close;
    let total_return := vmul (vsub (vdiv last_close first_close) (Fin 1)) (Fin 100) in
    let days := length returns in
    let annualized_return :=
      vsub (float_pow (vadd (Fin 1) (vdiv total_return (Fin 100)))
                      (vdiv (Fin 252) (of_nat days)))
           (Fin 1) in
    let volatility := vmul (s_std 1 returns) (vsqrt (Fin 252)) in
    let sharpe_ratio :=
      if vne volatility (Fin 0) then vdiv annualized_return volatility else Fin 0 in
    Some (Some {| total_return_pct := total_return;
                  annualized_return_pct := vmul annualized_return (Fin 100);
                  volatility_pct := vmul volatility (Fin 100);
                  performance_sharpe_ratio := sharpe_ratio;
                  max_consecutive_wins := _max_consecutive_wins returns;
                  max_consecutive_losses := _max_consecutive_losses returns |}).

(* ================================================================= *)
(** ** data_loader.py: validation of a loaded frame *)

Definition required_columns : list string := ["Open"; "High"; "Low"; "Close"; "Volume"].

(** [_validate_data] raises [ValueError] on an empty frame and on a missing
    required column; a high share of missing cells is only logged. *)
Definition _validate_data (data : DataFrame) : option unit :=
  if df_empty data then None
  else
    let missing_columns := filter (fun c => has_col c data = false) required_columns in
    if bool_decide (missing_columns = []) then Some tt else None.

(* ================================================================= *)
(** ** market_analyzer.py: the analysis of a batch of symbols *)

Record SymbolAnalysis : Type := {
  technical_indicators : TechnicalSummary;
  risk_metrics : RiskMetrics;
  market_regime : MarketRegime;
  support_resistance : SupportResistance;
  correlations : option CorrelationResult;
  performance_metrics : option PerformanceMetrics
}.

(** A value of the result dict: the analysis of a symbol, or the portfolio
    entry. *)
Inductive AnalysisEntry : Type :=
  | SymbolEntry (a : SymbolAnalysis)
  | PortfolioEntry (p : option PortfolioSnapshot).

(** The body of the loop for a symbol with data.  [calculate_all] works on a
    copy of the loaded frame, which stays as loaded. *)
Definition analyze_symbol `{NumLib} `{FloatPow} (config : IndicatorConfig)
    (data : gmap string DataFrame) (benchmark : string) (df : DataFrame)
  : option SymbolAnalysis :=
  symbol_data ← indicator_pipeline config df;
  ti ← _extract_technical_summary symbol_data;
  rm ← _calculate_risk_metrics symbol_data;
  mr ← _detect_market_regime symbol_data;
  sr ← calculate_support_resistance 20 symbol_data;
  co ← _calculate_correlations symbol_data (default empty_frame (data !! benchmark));
  pm ← _calculate_performance_metrics symbol_data;
  Some {| technical_indicators := ti; risk_metrics := rm; market_regime := mr;
          support_resistance := sr; correlations := co; performance_metrics := pm |}.

Definition analyze_step `{NumLib} `{FloatPow} (config : IndicatorConfig)
    (data : gmap string DataFrame) (benchmark : string)
    (acc : option (list (string * AnalysisEntry))) (symbol : string)
  : option (list (string * AnalysisEntry)) :=
  analysis_results ← acc;
  match data !! symbol with
  | Some df =>
      if df_empty df then Some analysis_results
      else a ← analyze_symbol config data benchmark df;
           Some (dict_set symbol (SymbolEntry a) analysis_results)
  | None => Some analysis_results
  end.

(** [analyze_market] after the data is loaded: [data] is what
    [load_data(symbols + [benchmark], ...)] returned. *)
Definition analyze_market `{NumLib} `{FloatPow} (config : IndicatorConfig)
    (data : gmap string DataFrame) (symbols : list string) (benchmark : string)
  : option (list (string * AnalysisEntry)) :=
  analysis_results ← fold_left (analyze_step config data benchmark) symbols (Some []);
  if (1 <? length symbols)%nat then
    p ← _analyze_portfolio data symbols;
    Some (dict_set "portfolio_analysis" (PortfolioEntry p) analysis_results)
  else Some analysis_results.

(* ================================================================= *)
(** ** Vocabulary of the properties below *)

(** Every column has one cell per row of the index. *)
Definition aligned (df : DataFrame) : Prop :=
  forall name c, col name df = Some c -> length c = df_len df.

(** Every cell of the column is the number [L] at least and [U] at most. *)
Definition within (L U : Q) (s : list val) : Prop :=
  Forall (fun v => exists q, v = Fin q /\ L <= q <= U) s.

(** A cell that is missing, or a number between [L] and [U]. *)
Definition nan_or_within (L U : Q) (v : val) : Prop :=
  v = NaN \/ exists q, v = Fin q /\ L <= q <= U.

(** Every bar has Low <= High, both numbers. *)
Definition range_ordered (low high : list val) : Prop :=
  Forall2 (fun l h => exists ql qh, l = Fin ql /\ h = Fin qh /\ ql <= qh) low high.

(** Every volume is a number that is not negative. *)
Definition nonneg_numbers (s : list val) : Prop :=
  Forall (fun v => exists q, v = Fin q /\ 0 <= q) s.

(** Ascending and descending order of a list of cells. *)
Definition ascending (s : list val) : Prop :=
  forall i j a b, (i <= j)%nat -> s !! i = Some a -> s !! j = Some b -> vle a b = true.

Definition descending (s : list val) : Prop :=
  forall i j a b, (i <= j)%nat -> s !! i = Some a -> s !! j = Some b -> vle b a = true.

(** *** What a method does to the frame *)

(** A method that assigns only the columns of [written]: it keeps the index,
    keeps every other column as it is, and keeps the frame aligned. *)
Definition writes_only (written : list string) (f : DataFrame -> option DataFrame) : Prop :=
  forall df df', f df = Some df' ->
    index df' = index df /\
    (aligned df -> aligned df') /\
    forall name, name ∉ written -> col name df' = col name df.

(** The names [_calculate_moving_averages] may assign. *)
Definition moving_average_columns (config : IndicatorConfig) : list string :=
  map (fun p : nat => "SMA_" +:+ pretty p) (sma_periods config) ++
  map (fun p : nat => "EMA_" +:+ pretty p) (ema_periods config) ++
  ["Golden_Cross"; "Death_Cross"].

(** The names the other eleven methods assign. *)
Definition fixed_indicator_columns : list string :=
  [ "RSI"; "RSI_Overbought"; "RSI_Oversold";
    "MACD"; "MACD_Signal"; "MACD_Histogram"; "MACD_Bullish_Cross"; "MACD_Bearish_Cross";
    "BB_Upper"; "BB_Lower"; "BB_Middle"; "BB_Width"; "BB_Position";
    "BB_Overbought"; "BB_Oversold";
    "Stoch_K"; "Stoch_D"; "Stoch_Overbought"; "Stoch_Oversold";
    "Williams_R"; "CCI";
    "OBV"; "Volume_ROC"; "Volume_MA"; "Volume_Ratio";
    "ATR"; "KC_Upper"; "KC_Lower"; "KC_Middle";
    "Ichimoku_Tenkan"; "Ichimoku_Kijun"; "Ichimoku_Senkou_A"; "Ichimoku_Senkou_B";
    "Ichimoku_Chikou"; "VWAP" ].

(** The eleven methods that follow [_calculate_moving_averages]. *)
Definition later_indicators `{NumLib} (config : IndicatorConfig) (df : DataFrame)
  : option DataFrame :=
  df ← _calculate_rsi config df;
  df ← _calculate_macd config df;
  df ← _calculate_bollinger_bands config df;
  df ← _calculate_stochastic config df;
  df ← _calculate_williams_r df;
  df ← _calculate_cci df;
  df ← _calculate_volume_indicators df;
  df ← _calculate_atr df;
  df ← _calculate_keltner_channels df;
  df ← _calculate_ichimoku df;
  _calculate_vwap df.

(* ================================================================= *)
(** ** More evaluated examples *)

(** The three example bars with every indicator column, and their summary. *)
Definition indicators_example : DataFrame :=
  Eval vm_compute in
    default empty_frame (@indicator_pipeline computing_lib default_config example_bars).

Definition empty_summary : TechnicalSummary :=
  {| current_price := NaN; sma_signals := []; momentum_signals := [];
     volatility_signals := []; volume_signals := None |}.

Definition summary_example : TechnicalSummary :=
  Eval vm_compute in default empty_summary (_extract_technical_summary indicators_example).

(** A correlation that is reported: twelve bars of a ramp against twelve
    bars that grow by squares. *)
Definition empty_correlation : CorrelationResult :=
  {| correlation_with_benchmark := NaN; benchmark_beta := NaN; r_squared := NaN |}.

Definition correlation_example : CorrelationResult :=
  Eval vm_compute in
    match @_calculate_correlations computing_lib (frame_at 0 (ramp 12)) (frame_at 0 (squares 12))
    with Some (Some r) => r | _ => empty_correlation end.

(** The symbol was loaded with bars and a close column. *)
Definition has_closes (data : gmap string DataFrame) (s : string) : Prop :=
  exists df, data !! s = Some df /\ df_empty df = false /\ is_Some (col "Close" df).

(** Nothing usable was loaded for the symbol: no entry, or an empty frame. *)
Definition not_loaded (data : gmap string DataFrame) (s : string) : Prop :=
  data !! s = None \/ exists df, data !! s = Some df /\ df_empty df = true.

(** A square table that reads the same along rows and along columns. *)
Definition symmetric_table (n : nat) (m : list (list val)) : Prop :=
  length m = n /\ Forall (fun row => length row = n) m /\
  forall i j ri rj x y,
    m !! i = Some ri -> ri !! j = Some x -> m !! j = Some rj -> rj !! i = Some y -> x = y.

(** The benchmark, when it was loaded with bars, has a close column. *)
Definition benchmark_usable (data : gmap string DataFrame) (benchmark : string) : Prop :=
  forall b, data !! benchmark = Some b -> df_empty b = false -> is_Some (col "Close" b).

(** Bars were loaded for the symbol. *)
Definition loaded (data : gmap string DataFrame) (s : string) : Prop :=
  exists df, data !! s = Some df /\ df_empty df = false.

(** Every listed symbol that was loaded with bars is a price series with one
    cell per row in every column. *)
Definition loaded_frames_valid (data : gmap string DataFrame) (symbols : list string) : Prop :=
  forall s df, s ∈ symbols -> data !! s = Some df -> df_empty df = false ->
               price_frame df /\ aligned df.

(* ================================================================= *)
(** ** data_loader.py: loading a batch of symbols

    The cache table and the two data sources live outside the program.  They
    are a parameter of the embedding, over a state [W] of the outside world:

    - [_get_cached_data symbol start_date end_date source] is the fresh row
      of the cache, [None] when there is none or the query fails (the method
      catches every exception);
    - [_cache_data] stores a row, or fails silently;
    - [fetch_data src symbol start_date end_date] is the frame a source
      returns, [None] when it raises. *)

Inductive Source : Type := YahooFinanceSource | AlphaVantageSource.

(** [self.sources.get(source)]. *)
Definition sources (source : string) : option Source :=
  if String.eqb source "yahoo" then Some YahooFinanceSource
  else if String.eqb source "alphavantage" then Some AlphaVantageSource
  else None.

Class DataWorld (W : Type) : Type := {
  _get_cached_data : string -> string -> string -> string -> W -> option DataFrame * W;
  _cache_data : string -> string -> string -> string -> DataFrame -> W -> W;
  fetch_data : Source -> string -> string -> string -> W -> option DataFrame * W
}.

(** The body of the [try]: the frame for the symbol, [None] when an exception
    reaches the handler. *)
Definition try_load `{DataWorld W} (start_date end_date source : string) (use_cache : bool)
    (symbol : string) (w : W) : option DataFrame * W :=
  let '(cached_data, w) :=
    if use_cache then _get_cached_data symbol start_date end_date source w else (None, w) in
  match cached_data with
  | Some cached => (Some cached, w)
  | None =>
      match sources source with
      | None => (None, w)
      | Some data_source =>
          let '(fetched, w) := fetch_data data_source symbol start_date end_date w in
          match fetched with
          | None => (None, w)
          | Some data =>
              match _validate_data data with
              | None => (None, w)
              | Some _ =>
                  let w := if use_cache
                           then _cache_data symbol start_date end_date source data w
                           else w in
                  (Some data, w)
              end
          end
      end
  end.

(** One turn of the loop: the handler stores [pd.DataFrame()]. *)
Definition load_symbol `{DataWorld W} (start_date end_date source : string) (use_cache : bool)
    (st : list (string * DataFrame) * W) (symbol : string) : list (string * DataFrame) * W :=
  let '(results, w) := st in
  let '(r, w) := try_load start_date end_date source use_cache symbol w in
  (dict_set symbol (default empty_frame r) results, w).

Definition load_data `{DataWorld W} (symbols : list string) (start_date end_date source : string)
    (use_cache : bool) (w : W) : list (string * DataFrame) * W :=
  fold_left (load_symbol start_date end_date source use_cache) symbols ([], w).

(** [analyze_market] with its loading step; the loader is called with its
    defaults, the Yahoo source and the cache in use. *)
Definition analyze_market_from `{NumLib} `{FloatPow} `{DataWorld W} (config : IndicatorConfig)
    (symbols : list string) (start_date end_date benchmark : string) (w : W)
  : option (list (string * AnalysisEntry)) * W :=
  let '(data, w) := load_data (symbols ++ [benchmark]) start_date end_date "yahoo" true w in
  (analyze_market config (list_to_map data) symbols benchmark, w).

(** A world for the examples: nothing is cached, Yahoo knows the symbol "A"
    and fails on every other. *)
Definition example_world : DataWorld unit := {|
  _get_cached_data := fun _ _ _ _ w => (None, w);
  _cache_data := fun _ _ _ _ _ w => w;
  fetch_data := fun _ symbol _ _ w =>
    (if String.eqb symbol "A" then Some example_bars else None, w)
|}.

(** An aggregate that picks one of the numbers of its window. *)
Definition picks (agg : list Q -> val) : Prop :=
  forall xs, agg xs = NaN \/ exists q, q ∈ xs /\ agg xs = num q.

(** The thirty returns of the ramp 100, 101, ..., 130 as numbers. *)
Definition ramp31_return_numbers : list Q :=
  Eval vm_compute in omap finite_value ramp31_returns.

(** Fifteen rising bars: the windows of 14 bars are full on the last two. *)
Definition long_open : list Q := [10; 11; 12; 13; 14; 15; 16; 17; 18; 19; 20; 21; 22; 23; 24].
Definition long_high : list Q := [12; 13; 14; 15; 16; 17; 18; 19; 20; 21; 22; 23; 24; 25; 26].
Definition long_low : list Q := [9; 10; 11; 12; 13; 14; 15; 16; 17; 18; 19; 20; 21; 22; 23].
Definition long_close : list Q := [11; 12; 13; 14; 15; 16; 17; 18; 19; 20; 21; 22; 23; 24; 25].
Definition long_volume : list Q :=
  [500; 700; 300; 400; 600; 500; 700; 300; 400; 600; 500; 700; 300; 400; 600].

Definition long_bars : DataFrame := ohlcv long_open long_high long_low long_close long_volume.

(** The cell of a column at a bar, NaN where there is none. *)
Definition cell (name : string) (i : nat) (df : DataFrame) : val :=
  default NaN (c ← col name df; c !! i).

Definition williams_example : DataFrame :=
  Eval vm_compute in default empty_frame (_calculate_williams_r long_bars).

Definition keltner_example : DataFrame :=
  Eval vm_compute in
    default empty_frame (df1 ← _calculate_atr long_bars; _calculate_keltner_channels df1).

Definition stochastic_williams_example : DataFrame :=
  Eval vm_compute in
    default empty_frame
      (df1 ← _calculate_stochastic default_config long_bars; _calculate_williams_r df1).

(** Three bars of which the first two trade no volume. *)
Definition quiet_bars : DataFrame :=
  ohlcv [10; 11; 12] [12; 13; 14] [9; 10; 11] [11; 12; 13] [0; 0; 300].

Definition vwap_example : DataFrame :=
  Eval vm_compute in default empty_frame (_calculate_vwap quiet_bars).

Definition moving_averages_example : DataFrame :=
  Eval vm_compute in default empty_frame (_calculate_moving_averages default_config long_bars).

(** No volume has traded up to bar [i]. *)
Definition no_volume_so_far (volume : list val) (i : nat) : Prop :=
  forall j q, (j <= i)%nat -> volume !! j = Some (Fin q) -> q == 0.
(* ================================================================= *)
(** ** Arithmetic of cells *)

Lemma Qlt_bool_iff (a b : Q) : Qlt_bool a b = true <-> a < b.
Proof.
  unfold Qlt_bool. rewrite negb_true_iff, <- not_true_iff_false, Qle_bool_iff.
  split; [apply Qnot_le_lt | apply Qlt_not_le].
Qed.

Lemma Qlt_bool_false (a b : Q) : Qlt_bool a b = false <-> b <= a.
Proof.
  unfold Qlt_bool. rewrite negb_false_iff. apply Qle_bool_iff.
Qed.

Lemma Qeq_bool_false (a b : Q) : Qeq_bool a b = false <-> ~ a == b.
Proof.
  rewrite <- not_true_iff_false, Qeq_bool_iff. reflexivity.
Qed.


Ltac qbool :=
  repeat match goal with
  | H : Qlt_bool _ _ = true |- _ => apply Qlt_bool_iff in H
  | H : Qlt_bool _ _ = false |- _ => apply Qlt_bool_false in H
  | H : Qle_bool _ _ = true |- _ => apply Qle_bool_iff in H
  | H : Qeq_bool _ _ = true |- _ => apply Qeq_bool_iff in H
  | H : Qeq_bool _ _ = false |- _ => apply Qeq_bool_false in H
  end.



(* ================================================================= *)
(** ** Lengths of derived columns *)

Lemma length_shift k (s : list val) : length (shift k s) = length s.
Proof.
  unfold shift. rewrite length_take, length_app, length_replicate. lia.
Qed.

Lemma length_ffill_from v (s : list val) : length (ffill_from v s) = length s.
Proof. revert v. induction s as [|x s IH]; intros v; simpl; [reflexivity | now rewrite IH]. Qed.

Lemma length_pct_change k (s : list val) : length (pct_change k s) = length s.
Proof.
  unfold pct_change, ffill. rewrite length_map, length_zip_with, length_shift, length_ffill_from. lia.
Qed.

Lemma length_dropna_le (s : list val) : (length (dropna s) <= length s)%nat.
Proof. apply length_filter. Qed.

Lemma length_rolling w agg (s : list val) : length (rolling w agg s) = length s.
Proof. unfold rolling. apply length_imap. Qed.

Lemma length_tail_slice {A} k (s : list A) :
  (k <= length s)%nat -> length (tail_slice k s) = k.
Proof. intros Hk. unfold tail_slice. rewrite length_drop. lia. Qed.

Lemma close_returns_length data returns :
  close_returns data = Some returns ->
  exists close, col "Close" data = Some close /\ (length returns <= length close)%nat.
Proof.
  unfold close_returns. destruct (col "Close" data) as [close|]; [|discriminate].
  simpl. intros [= <-]. exists close. split; [reflexivity|].
  etransitivity; [apply length_dropna_le|]. rewrite length_pct_change. lia.
Qed.

(* ================================================================= *)
(** ** Risk metrics on too little data *)

(** C4.  A series whose return sequence (percentage change of Close, first
    entry dropped) has fewer than 30 observations gets a RiskMetrics with
    every field zero, and the call does not raise. *)
Theorem risk_metrics_insufficient_data `{NumLib} (data : DataFrame) (returns : list val) :
  close_returns data = Some returns ->
  (length returns < 30)%nat ->
  _calculate_risk_metrics data = Some zero_risk_metrics.
Proof.
  intros Hret Hlen. unfold _calculate_risk_metrics. rewrite Hret. simpl.
  apply Nat.ltb_lt in Hlen. rewrite Hlen. reflexivity.
Qed.

Lemma risk_metrics_insufficient_data_witness :
  @_calculate_risk_metrics computing_lib (frame_at 0 [100; 101; 102; 103; 104])
  = Some zero_risk_metrics.
Proof.
  apply (@risk_metrics_insufficient_data computing_lib _
           [Fin (1 # 100); Fin (1 # 101); Fin (1 # 102); Fin (1 # 103)]).
  - vm_compute. reflexivity.
  - simpl. lia.
Defined.

(* ================================================================= *)
(** ** Regime classification *)

Lemma linregress_slope_arange (y : list val) :
  length y = 20%nat -> is_Some (linregress_slope (map of_nat (seq 0 20)) y).
Proof.
  intros Hy. unfold linregress_slope.
  rewrite length_map, length_seq, Hy. simpl negb. cbv iota.
  change (20 <? 2)%nat with false. cbv iota. cbv zeta.
  replace (veq _ (Fin 0)) with false by (vm_compute; reflexivity).
  eexists. reflexivity.
Qed.

Lemma iloc_last_is_Some (s : list val) : (0 < length s)%nat -> is_Some (iloc_last s).
Proof.
  unfold iloc_last. destruct s as [|x s] using rev_ind; simpl; [lia|].
  intros _. rewrite last_snoc. eexists. reflexivity.
Qed.

(** C6.  With at least 20 return observations the regime is the first match
    of: volatility > 0.3, volatility < 0.1, trend_strength > 0.5,
    mean_reversion < 0.5, and NORMAL when none matches; with fewer the result
    is UNKNOWN with the three statistics zero. *)
Theorem regime_first_match `{NumLib} (data : DataFrame) (returns : list val) :
  close_returns data = Some returns ->
  ((length returns < 20)%nat -> _detect_market_regime data = Some unknown_regime) /\
  ((20 <= length returns)%nat ->
   exists r, _detect_market_regime data = Some r /\
             regime r = classify (volatility r) (trend_strength r) (mean_reversion r)).
Proof.
  intros Hret. destruct (close_returns_length _ _ Hret) as (close & Hclose & Hlen).
  unfold _detect_market_regime. rewrite Hret. simpl. split; intros Hn.
  - apply Nat.ltb_lt in Hn. rewrite Hn. reflexivity.
  - assert (Hnb : (length returns <? 20)%nat = false) by (apply Nat.ltb_ge; lia).
    rewrite Hnb.
    destruct (iloc_last_is_Some (rolling 20 agg_std returns)) as [sd ->].
    { rewrite length_rolling. lia. }
    simpl. rewrite Hclose. simpl.
    rewrite (length_tail_slice 20 returns) by lia.
    destruct (linregress_slope_arange (tail_slice 20 close)) as [slope ->].
    { apply length_tail_slice. lia. }
    simpl.
    destruct (iloc_last_is_Some close) as [last_close ->]; [lia|].
    simpl. eexists. split; [reflexivity|].
    unfold classify. simpl.
    repeat match goal with |- context [if ?b then _ else _] => destruct b end; reflexivity.
Qed.

Lemma regime_first_match_witness :
  @_detect_market_regime computing_lib (frame_at 0 [100; 101; 102]) = Some unknown_regime /\
  exists r, @_detect_market_regime computing_lib (frame_at 0 (ramp 22)) = Some r /\
            regime r = classify (volatility r) (trend_strength r) (mean_reversion r).
Proof.
  split.
  - refine (proj1 (@regime_first_match computing_lib (frame_at 0 [100; 101; 102])
                     [Fin (1 # 100); Fin (1 # 101)] _) _).
    + vm_compute. reflexivity.
    + simpl. lia.
  - refine (proj2 (@regime_first_match computing_lib (frame_at 0 (ramp 22))
                     ramp_returns _) _).
    + vm_compute. reflexivity.
    + unfold ramp_returns. simpl. lia.
Defined.

(* ================================================================= *)
(** ** Reading columns back *)

Lemma col_set_col_eq name s df : col name (set_col name s df) = Some s.
Proof. unfold col, set_col. simpl. apply lookup_insert_eq. Qed.

Lemma col_set_col_ne name name' s df :
  name' <> name -> col name (set_col name' s df) = col name df.
Proof. intros Hne. unfold col, set_col. simpl. apply lookup_insert_ne. exact Hne. Qed.

Ltac col_step :=
  match goal with
  | |- context [col ?a (set_col ?a ?c ?d)] => rewrite (col_set_col_eq a c d)
  | |- context [col ?a (set_col ?b ?c ?d)] =>
      rewrite (col_set_col_ne a b c d) by discriminate
  end.

Ltac col_simpl := repeat (col_step; simpl).

(** Reduction of the option monad only. *)
Ltac obind := cbn [mbind option_bind fmap option_fmap option_map].

(* ================================================================= *)
(** ** Positions of shifted and windowed columns *)

Lemma lookup_shift_0 (s : list val) : (0 < length s)%nat -> shift 1 s !! 0%nat = Some NaN.
Proof.
  intros Hs. unfold shift. rewrite lookup_take_lt by lia. reflexivity.
Qed.

Lemma lookup_shift_S (s : list val) j :
  (S j < length s)%nat -> shift 1 s !! S j = s !! j.
Proof.
  intros Hs. unfold shift. rewrite lookup_take_lt by lia. reflexivity.
Qed.


Lemma lookup_diff_S (s : list val) j a b :
  s !! j = Some a -> s !! S j = Some b -> diff s !! S j = Some (vsub b a).
Proof.
  intros Ha Hb. unfold diff. rewrite lookup_zip_with, Hb. simpl.
  rewrite lookup_shift_S by (apply lookup_lt_Some in Hb; lia).
  rewrite Ha. reflexivity.
Qed.

Lemma length_diff (s : list val) : length (diff s) = length s.
Proof. unfold diff. rewrite length_zip_with, length_shift. lia. Qed.

(* ================================================================= *)
(** ** On-balance volume *)

Lemma vsign_cases v : vsign v = NaN \/ vsign v = Fin 1 \/ vsign v = Fin (-1) \/ vsign v = Fin 0.
Proof.
  destruct v; simpl; auto.
  destruct (Qlt_bool 0 q); auto. destruct (Qlt_bool q 0); auto.
Qed.

Lemma signed_volume_fin d v :
  is_fin v = true ->
  is_fin (if is_nan (vmul (vsign d) v) then Fin 0 else vmul (vsign d) v) = true.
Proof.
  destruct v; try discriminate. intros _.
  destruct (vsign_cases d) as [-> | [-> | [-> | ->]]]; reflexivity.
Qed.

Lemma cum_from_vadd_numbers (s : list val) acc :
  all_numbers s -> from_option (fun a => is_fin a = true) True acc ->
  all_numbers (cum_from vadd acc s).
Proof.
  intros Hs. revert acc. induction Hs as [|x s Hx Hs IH]; intros acc Hacc; simpl.
  - constructor.
  - destruct x; try discriminate. simpl.
    destruct acc as [[]|]; simpl in *; try discriminate;
      (constructor; [reflexivity | apply IH; reflexivity]).
Qed.

Lemma length_cum_from op acc (s : list val) : length (cum_from op acc s) = length s.
Proof.
  revert acc. induction s as [|x s IH]; intros acc; simpl; [reflexivity|].
  destruct (is_nan x); simpl; now rewrite IH.
Qed.

Lemma signed_volume_numbers (d volume : list val) :
  all_numbers volume ->
  all_numbers (fillna (Fin 0) (s_mul (map vsign d) volume)).
Proof.
  intros Hv. revert d. induction Hv as [|v volume Hv Hvs IH]; intros [|x d]; simpl;
    try constructor.
  - apply signed_volume_fin, Hv.
  - apply IH.
Qed.

(** C10.  On a non-empty series whose Close and Volume cells are all numbers,
    OBV is a number at every bar and is 0 at the first bar: the undefined
    first change is filled with zero before the running sum. *)
Theorem obv_defined_everywhere (df : DataFrame) (close volume : list val) :
  col "Close" df = Some close ->
  col "Volume" df = Some volume ->
  length close = length volume ->
  close <> [] ->
  all_numbers close ->
  all_numbers volume ->
  exists df' obv,
    _calculate_volume_indicators df = Some df' /\
    col "OBV" df' = Some obv /\
    length obv = length close /\
    (forall i, (i < length close)%nat -> exists q, obv !! i = Some (Fin q)) /\
    obv !! 0%nat = Some (Fin 0).
Proof.
  intros Hc Hv Hlen Hne _ Hvol.
  unfold _calculate_volume_indicators. rewrite Hc, Hv. simpl.
  col_simpl. rewrite Hv. simpl. col_simpl. rewrite Hv. simpl. col_simpl.
  rewrite Hv. simpl.
  eexists _, _. split; [reflexivity|]. col_simpl. split; [reflexivity|].
  set (x := fillna (Fin 0) (s_mul (map vsign (diff close)) volume)).
  assert (Hx : all_numbers x) by apply signed_volume_numbers, Hvol.
  assert (Hxl : length x = length close).
  { unfold x, fillna, s_mul. rewrite length_map, length_zip_with, length_map, length_diff. lia. }
  assert (Hnum : all_numbers (cumsum x)).
  { apply cum_from_vadd_numbers; [exact Hx | exact I]. }
  split; [|split].
  - unfold cumsum. rewrite length_cum_from. exact Hxl.
  - intros i Hi.
    destruct (lookup_lt_is_Some_2 (cumsum x) i) as [v Hvi].
    { unfold cumsum. rewrite length_cum_from. lia. }
    unfold all_numbers in Hnum. rewrite Forall_lookup in Hnum.
    specialize (Hnum i v Hvi). destruct v; try discriminate. eauto.
  - destruct close as [|c close]; [congruence|].
    destruct volume as [|v volume]; [discriminate|].
    unfold x. simpl. unfold diff. simpl.
    replace (vmul (vsign (vsub c NaN)) v) with NaN by (destruct c, v; reflexivity).
    reflexivity.
Qed.

Lemma obv_defined_everywhere_witness :
  exists df' obv,
    _calculate_volume_indicators example_bars = Some df' /\
    col "OBV" df' = Some obv /\
    length obv = 3%nat /\
    (forall i, (i < 3)%nat -> exists q, obv !! i = Some (Fin q)) /\
    obv !! 0%nat = Some (Fin 0).
Proof.
  apply (obv_defined_everywhere example_bars (map Fin [11; 12; 13]) (map Fin [500; 700; 300])).
  - reflexivity.
  - reflexivity.
  - reflexivity.
  - discriminate.
  - repeat constructor.
  - repeat constructor.
Defined.

(* ================================================================= *)
(** ** Windows *)

Lemma finite_values_Some (l : list val) (xs : list Q) :
  finite_values l = Some xs -> l = map Fin xs.
Proof.
  unfold finite_values. rewrite mapM_Some. induction 1 as [|v q l xs Hv _ IH]; simpl.
  - reflexivity.
  - destruct v; try discriminate. injection Hv as ->. now rewrite IH.
Qed.

(** What a defined window is: [w] numbers, the cells [i+1-w .. i]. *)
Lemma window_Some w i (s : list val) (xs : list Q) :
  window w i s = Some xs ->
  (1 <= w <= i + 1)%nat /\
  map Fin xs = take w (drop (i + 1 - w) s) /\
  forall k x, xs !! k = Some x -> s !! (i + 1 - w + k)%nat = Some (Fin x).
Proof.
  unfold window. destruct (w =? 0)%nat eqn:Ew; [discriminate|].
  destruct (i + 1 <? w)%nat eqn:Ei; [discriminate|]. simpl.
  apply Nat.eqb_neq in Ew. apply Nat.ltb_ge in Ei.
  intros Hfin. apply finite_values_Some in Hfin. split; [lia|]. split; [now rewrite Hfin|].
  intros k x Hk.
  assert (Hm : map Fin xs !! k = Some (Fin x)) by (rewrite list_lookup_fmap, Hk; reflexivity).
  rewrite <- Hfin in Hm. apply lookup_take_Some in Hm as [Hm _].
  rewrite lookup_drop in Hm. exact Hm.
Qed.

Lemma window_length w i (s : list val) (xs : list Q) :
  window w i s = Some xs -> (i < length s)%nat -> length xs = w.
Proof.
  intros Hw Hi. destruct (window_Some _ _ _ _ Hw) as (Hwi & Hmap & _).
  apply (f_equal length) in Hmap.
  rewrite length_map, length_take, length_drop in Hmap. lia.
Qed.

(** The last cell of the window is the cell of the bar itself. *)
Lemma window_last w i (s : list val) (xs : list Q) :
  window w i s = Some xs -> (i < length s)%nat ->
  exists x, x ∈ xs /\ s !! i = Some (Fin x).
Proof.
  intros Hw Hi. pose proof (window_length _ _ _ _ Hw Hi) as Hlen.
  destruct (window_Some _ _ _ _ Hw) as (Hwi & _ & Hk).
  destruct (lookup_lt_is_Some_2 xs (w - 1)) as [x Hx]; [lia|].
  exists x. split; [eapply list_elem_of_lookup_2, Hx|].
  specialize (Hk _ _ Hx). replace (i + 1 - w + (w - 1))%nat with i in Hk by lia. exact Hk.
Qed.

(** A window over numbers is defined as soon as it is full. *)
Lemma window_numbers w i (s : list val) :
  all_numbers s -> (1 <= w <= i + 1)%nat -> is_Some (window w i s).
Proof.
  intros Hs Hw. unfold window.
  replace (w =? 0)%nat with false by (symmetry; apply Nat.eqb_neq; lia).
  replace (i + 1 <? w)%nat with false by (symmetry; apply Nat.ltb_ge; lia).
  simpl.
  assert (Hsub : all_numbers (take w (drop (i + 1 - w) s))).
  { unfold all_numbers. apply Forall_take, Forall_drop, Hs. }
  clear -Hsub. induction Hsub as [|v l Hv _ [ys IH]].
  - eexists. reflexivity.
  - destruct v; try discriminate. unfold finite_values in *. simpl. rewrite IH.
    eexists. reflexivity.
Qed.

Lemma lookup_rolling_inv w agg (s : list val) i v :
  rolling w agg s !! i = Some v -> v = from_option agg NaN (window w i s).
Proof.
  unfold rolling. rewrite list_lookup_imap. destruct (s !! i); simpl; congruence.
Qed.

(** *** Aggregates of a window *)

Lemma Qsum_nonneg (l : list Q) : Forall (fun x => 0 <= x) l -> 0 <= Qsum l.
Proof. induction 1; simpl; [apply Qle_refl | lra]. Qed.


Lemma Qlen_pos (l : list Q) : l <> [] -> 0 < Qlen l.
Proof.
  intros Hl. unfold Qlen. destruct l; [congruence|]. simpl length.
  change 0 with (inject_Z 0). rewrite <- Zlt_Qlt. lia.
Qed.

Lemma Qmean_nonneg (l : list Q) : l <> [] -> Forall (fun x => 0 <= x) l -> 0 <= Qmean l.
Proof.
  intros Hne Hl. unfold Qmean. apply Qle_shift_div_l; [apply Qlen_pos, Hne|].
  pose proof (Qsum_nonneg l Hl). lra.
Qed.


Lemma Qmin_fold_le (l : list Q) (x y : Q) : y ∈ x :: l -> fold_left Qmin l x <= y.
Proof.
  revert x y. induction l as [|z l IH]; intros x y Hy; simpl.
  - apply list_elem_of_singleton in Hy as ->. apply Qle_refl.
  - assert (Hle : fold_left Qmin l (Qmin x z) <= Qmin x z) by (apply IH; left).
    assert (Hxz : Qmin x z <= x /\ Qmin x z <= z).
    { unfold Qmin. destruct (Qlt_bool z x) eqn:E; qbool; lra. }
    apply elem_of_cons in Hy as [-> | Hy]; [lra|].
    apply elem_of_cons in Hy as [-> | Hy]; [lra|].
    apply IH. right. exact Hy.
Qed.

Lemma Qmax_fold_ge (l : list Q) (x y : Q) : y ∈ x :: l -> y <= fold_left Qmax l x.
Proof.
  revert x y. induction l as [|z l IH]; intros x y Hy; simpl.
  - apply list_elem_of_singleton in Hy as ->. apply Qle_refl.
  - assert (Hle : Qmax x z <= fold_left Qmax l (Qmax x z)) by (apply IH; left).
    assert (Hxz : x <= Qmax x z /\ z <= Qmax x z).
    { unfold Qmax. destruct (Qlt_bool x z) eqn:E; qbool; lra. }
    apply elem_of_cons in Hy as [-> | Hy]; [lra|].
    apply elem_of_cons in Hy as [-> | Hy]; [lra|].
    apply IH. right. exact Hy.
Qed.

Lemma agg_min_le (xs : list Q) (y : Q) : y ∈ xs -> exists m, agg_min xs = Fin m /\ m <= y.
Proof.
  intros Hy. destruct xs as [|x xs]; [inversion Hy|]. simpl.
  eexists. split; [reflexivity|]. rewrite Qred_correct. apply Qmin_fold_le, Hy.
Qed.

Lemma agg_max_ge (xs : list Q) (y : Q) : y ∈ xs -> exists m, agg_max xs = Fin m /\ y <= m.
Proof.
  intros Hy. destruct xs as [|x xs]; [inversion Hy|]. simpl.
  eexists. split; [reflexivity|]. rewrite Qred_correct. apply Qmax_fold_ge, Hy.
Qed.

(** *** Order on cells *)


Lemma vle_Fin (a b : Q) : vle (Fin a) (Fin b) = true <-> a <= b.
Proof.
  unfold vle. simpl. rewrite orb_true_iff, Qlt_bool_iff, Qeq_bool_iff. split.
  - intros [Hl | He]; lra.
  - intros Hle. destruct (Qlt_le_dec a b) as [Hl | Hg]; [left; exact Hl | right; lra].
Qed.

(* ================================================================= *)
(** ** Bollinger bands *)

Section Bollinger.
Context `{NumLib}.
Hypothesis np_sqrt_nonneg : forall x, 0 <= x -> 0 <= np_sqrt x.

Lemma agg_std_cases (xs : list Q) :
  agg_std xs = NaN \/ exists s, agg_std xs = Fin s /\ 0 <= s.
Proof.
  unfold agg_std. destruct (length xs <=? 1)%nat; [left; reflexivity|].
  simpl. destruct (Qlt_bool (Qvar 1 xs) 0) eqn:E; [left; reflexivity|]. qbool.
  right. eexists. split; [reflexivity|]. rewrite Qred_correct. apply np_sqrt_nonneg, E.
Qed.

Lemma band_cell (m sd k : val) :
  (m = NaN \/ exists a, m = Fin a) ->
  (sd = NaN \/ exists s, sd = Fin s /\ 0 <= s) ->
  vle (Fin 0) k = true ->
  is_nan (vadd m (vmul sd k)) = false ->
  is_nan (vsub m (vmul sd k)) = false ->
  vge (vadd m (vmul sd k)) m = true /\ vge m (vsub m (vmul sd k)) = true.
Proof.
  intros [-> | [a ->]] [-> | (s & -> & Hs)] Hk; try discriminate.
  destruct k as [| |q|]; try discriminate.
  - apply vle_Fin in Hk. intros _ _. unfold vge, vsub. simpl. unfold num.
    rewrite !vle_Fin, !Qred_correct. nra.
  - simpl. unfold inf_times. destruct (Qeq_bool s 0) eqn:E0; [discriminate|].
    destruct (Qlt_bool 0 s) eqn:E; simpl; [|qbool; lra].
    intros _ _. split; reflexivity.
Qed.

(** C7.  For a configuration with [bb_std >= 0], the bands are computed on
    every frame with a Close column, and on every bar where the three bands
    are defined, BB_Upper >= BB_Middle >= BB_Lower. *)
Theorem bollinger_bands_ordered (config : IndicatorConfig) (df : DataFrame)
    (close : list val) :
  vle (Fin 0) (bb_std config) = true ->
  col "Close" df = Some close ->
  exists df' upper middle lower,
    _calculate_bollinger_bands config df = Some df' /\
    col "BB_Upper" df' = Some upper /\
    col "BB_Middle" df' = Some middle /\
    col "BB_Lower" df' = Some lower /\
    forall i u m l,
      upper !! i = Some u -> middle !! i = Some m -> lower !! i = Some l ->
      is_nan u = false -> is_nan m = false -> is_nan l = false ->
      vge u m = true /\ vge m l = true.
Proof.
  intros Hk Hc. unfold _calculate_bollinger_bands. rewrite Hc. obind.
  repeat (col_step; obind). rewrite Hc. obind. repeat (col_step; obind).
  eexists _, _, _, _. split; [reflexivity|].
  split; [repeat col_step; reflexivity|].
  split; [repeat col_step; reflexivity|].
  split; [repeat col_step; reflexivity|].
  intros i u m l.
  unfold s_add, s_sub, s_scale. rewrite !lookup_zip_with, !list_lookup_fmap.
  intros Hu Hm Hl.
  destruct (rolling (bb_period config) agg_mean close !! i) as [m'|] eqn:Em; [|discriminate].
  apply (inj Some) in Hm. subst m'.
  destruct (rolling (bb_period config) agg_std close !! i) as [sd|] eqn:Es; [|discriminate].
  cbn [mbind option_bind fmap option_fmap option_map] in Hu, Hl.
  apply (inj Some) in Hu, Hl. subst u l.
  intros Hnu _ Hnl. apply band_cell; try assumption.
  - apply lookup_rolling_inv in Em. subst m.
    destruct (window (bb_period config) i close); simpl;
      [right; eexists; reflexivity | left; reflexivity].
  - apply lookup_rolling_inv in Es. subst sd.
    destruct (window (bb_period config) i close); simpl;
      [apply agg_std_cases | left; reflexivity].
Qed.
End Bollinger.

Lemma sqrt_fixed_nonneg (x : Q) : 0 <= x -> 0 <= sqrt_fixed x.
Proof.
  intros _. unfold sqrt_fixed. rewrite Qred_correct.
  apply Qle_shift_div_l; [reflexivity|]. rewrite Qmult_0_l.
  change 0 with (inject_Z 0). rewrite <- Zle_Qle. apply Z.sqrt_up_nonneg.
Qed.

Lemma bollinger_bands_ordered_witness :
  exists df' upper middle lower,
    @_calculate_bollinger_bands computing_lib short_config (frame_at 0 [5; 6; 7]) = Some df' /\
    col "BB_Upper" df' = Some upper /\
    col "BB_Middle" df' = Some middle /\
    col "BB_Lower" df' = Some lower /\
    forall i u m l,
      upper !! i = Some u -> middle !! i = Some m -> lower !! i = Some l ->
      is_nan u = false -> is_nan m = false -> is_nan l = false ->
      vge u m = true /\ vge m l = true.
Proof.
  apply (@bollinger_bands_ordered computing_lib sqrt_fixed_nonneg short_config
           (frame_at 0 [5; 6; 7]) (map Fin [5; 6; 7])).
  - reflexivity.
  - reflexivity.
Defined.

(* ================================================================= *)
(** ** Stochastic oscillator *)




(* ================================================================= *)
(** ** Relative strength index *)


(** A column derived from the changes of Close: a number that is positive
    where the change has the property [P] and zero elsewhere, the first bar
    included. *)
Section ChangeColumn.
Variable P : Q -> Q -> Prop.
Hypothesis P_dec : forall a b, {P a b} + {~ P a b}.
Variables close T : list val.
Hypothesis T_first : forall x, close !! 0%nat = Some x ->
  exists t, T !! 0%nat = Some (Fin t) /\ t == 0.
Hypothesis T_next : forall j a b,
  close !! j = Some (Fin a) -> close !! S j = Some (Fin b) ->
  exists t, T !! S j = Some (Fin t) /\ (P a b -> 0 < t) /\ (~ P a b -> t == 0).
Hypothesis close_numbers : all_numbers close.




Variables (p i : nat) (ts : list Q).
Hypothesis Hwin : window p i T = Some ts.
Hypothesis Hi : (i < length close)%nat.



End ChangeColumn.











(** C1.  The program at rsi_period = 2 and three equal closes 5, 5, 5: the
    window of bar 2 is full and holds no loss, and the RSI of that bar is
    NaN (gain / loss is 0/0), not the 100 that a window without losses is
    to give. *)
Lemma rsi_flat_window_undefined :
  _calculate_rsi short_config (frame_at 0 [5; 5; 5]) = Some rsi_flat_example /\
  col "RSI" rsi_flat_example = Some [NaN; NaN; NaN] /\
  no_loss_in_window (map Fin [5; 5; 5]) 2 2 /\
  ~ holds NaN 100.
Proof.
  split; [vm_compute; reflexivity|]. split; [vm_compute; reflexivity|]. split.
  - intros j [Hlo Hhi] (a & b & Ha & Hb & Hlt).
    destruct j as [|[|j]]; simpl in Ha, Hb; try lia;
      injection Ha as <-; injection Hb as <-; lra.
  - intros (q & [=] & _).
Qed.

(* ================================================================= *)
(** ** Maximum drawdown *)

Lemma ffill_from_no_nan last (s : list val) :
  Forall (fun v => is_nan v = false) s -> ffill_from last s = s.
Proof.
  intros Hs. revert last. induction Hs as [|v s Hv _ IH]; intros last; simpl.
  - reflexivity.
  - rewrite Hv. now rewrite IH.
Qed.

(** The returns of a series of positive prices are numbers above -1. *)
Lemma positive_prices_returns (close : list val) :
  positive_prices close ->
  Forall (fun v => exists r, v = Fin r /\ -1 < r) (dropna (pct_change 1 close)).
Proof.
  intros Hpos. unfold dropna. apply list.Forall_forall. intros v Hv.
  apply list_elem_of_filter in Hv as [Hnn Hv].
  apply list_elem_of_lookup in Hv as [i Hi].
  unfold pct_change, ffill in Hi.
  rewrite ffill_from_no_nan in Hi.
  2:{ eapply Forall_impl; [exact Hpos|]. intros ? (q & -> & _). reflexivity. }
  rewrite list_lookup_fmap, lookup_zip_with in Hi.
  destruct (close !! i) as [b|] eqn:Eb; [|discriminate]. simpl in Hi.
  destruct (shift 1 close !! i) as [a|] eqn:Ea; [|discriminate]. simpl in Hi.
  injection Hi as <-.
  unfold positive_prices in Hpos. rewrite Forall_lookup in Hpos.
  destruct (Hpos _ _ Eb) as (qb & -> & Hqb).
  destruct i as [|j].
  - rewrite lookup_shift_0 in Ea by (apply lookup_lt_Some in Eb; lia).
    injection Ea as <-. discriminate.
  - rewrite lookup_shift_S in Ea by (apply lookup_lt_Some in Eb; lia).
    destruct (Hpos _ _ Ea) as (qa & -> & Hqa). simpl.
    replace (Qeq_bool qa 0) with false by (symmetry; apply Qeq_bool_false; lra).
    simpl. eexists. split; [reflexivity|]. rewrite !Qred_correct.
    assert (0 < qb / qa) by (apply Qlt_shift_div_l; lra). lra.
Qed.

Lemma cum_from_vmul_positive (s : list val) (acc : option val) :
  Forall (fun v => exists q, v = Fin q /\ 0 < q) s ->
  from_option (fun a => exists q, a = Fin q /\ 0 < q) True acc ->
  exists qs, cum_from vmul acc s = map Fin qs /\ Forall (fun q => 0 < q) qs.
Proof.
  intros Hs. revert acc. induction Hs as [|v s (q & -> & Hq) _ IH]; intros acc Hacc; simpl.
  - exists []. split; [reflexivity | constructor].
  - destruct acc as [a|]; simpl in Hacc.
    + destruct Hacc as (qa & -> & Hqa). simpl.
      destruct (IH (Some (num (qa * q)))) as (qs & -> & Hqs).
      { simpl. eexists. split; [reflexivity|]. rewrite Qred_correct. nra. }
      exists (Qred (qa * q) :: qs). split; [reflexivity|].
      constructor; [rewrite Qred_correct; nra | exact Hqs].
    + destruct (IH (Some (Fin q))) as (qs & -> & Hqs).
      { simpl. eauto. }
      exists (q :: qs). split; [reflexivity|]. constructor; assumption.
Qed.

Lemma cumulative_path_positive (returns : list val) :
  Forall (fun v => exists r, v = Fin r /\ -1 < r) returns ->
  exists qs, cumulative_path returns = map Fin qs /\ Forall (fun q => 0 < q) qs /\
             length qs = length returns.
Proof.
  intros Hr. unfold cumulative_path, cumprod.
  destruct (cum_from_vmul_positive (map (vadd (Fin 1)) returns) None) as (qs & Hqs & Hpos).
  - apply Forall_fmap. eapply Forall_impl; [exact Hr|].
    intros v (r & -> & Hgt). simpl. eexists. split; [reflexivity|].
    rewrite Qred_correct. lra.
  - exact I.
  - exists qs. split; [exact Hqs|]. split; [exact Hpos|].
    apply (f_equal length) in Hqs. rewrite length_cum_from, !length_map in Hqs. lia.
Qed.

Lemma omap_finite_value_Fin (qs : list Q) : omap finite_value (map Fin qs) = qs.
Proof.
  induction qs as [|q qs IH]; [reflexivity|].
  change (omap finite_value (map Fin (q :: qs)))
    with (q :: omap finite_value (map Fin qs)).
  now rewrite IH.
Qed.

Lemma Qmax_fold_in (l : list Q) (x : Q) : fold_left Qmax l x ∈ x :: l.
Proof.
  revert x. induction l as [|z l IH]; intros x; simpl.
  - left.
  - specialize (IH (Qmax x z)). unfold Qmax in *.
    destruct (Qlt_bool x z); apply elem_of_cons in IH as [-> | IH].
    + right. left.
    + right. right. exact IH.
    + left.
    + right. right. exact IH.
Qed.

(** The running peak at bar [i]: at least every value so far, and one of
    them. *)
Lemma running_peak (qs : list Q) (i : nat) (q : Q) :
  qs !! i = Some q ->
  exists M, agg_max (take (S i) qs) = Fin M /\
            (forall j q', (j <= i)%nat -> qs !! j = Some q' -> q' <= M) /\
            (exists j q', (j <= i)%nat /\ qs !! j = Some q' /\ M == q').
Proof.
  intros Hq.
  assert (Hin : q ∈ take (S i) qs).
  { apply list_elem_of_lookup. exists i. rewrite lookup_take_lt by lia. exact Hq. }
  destruct (take (S i) qs) as [|x l] eqn:Et; [inversion Hin|].
  simpl. eexists. split; [reflexivity|]. split.
  - intros j q' Hj Hq'. rewrite Qred_correct. apply Qmax_fold_ge.
    rewrite <- Et. apply list_elem_of_lookup. exists j.
    rewrite lookup_take_lt by lia. exact Hq'.
  - pose proof (Qmax_fold_in l x) as HM. rewrite <- Et in HM.
    apply list_elem_of_lookup in HM as [j Hj].
    apply lookup_take_Some in Hj as [Hj Hlt].
    exists j, (fold_left Qmax l x). split; [lia|]. split; [exact Hj|]. apply Qred_correct.
Qed.

Lemma drawdown_cell (qs : list Q) (i : nat) (q : Q) :
  Forall (fun q => 0 < q) qs ->
  qs !! i = Some q ->
  exists d,
    s_div (s_sub (map Fin qs) (expanding_max (map Fin qs))) (expanding_max (map Fin qs)) !! i
      = Some (Fin d) /\
    d <= 0 /\
    (d == 0 <-> forall j q', (j <= i)%nat -> qs !! j = Some q' -> q' <= q).
Proof.
  intros Hpos Hq. unfold s_div, s_sub, expanding_max.
  rewrite !lookup_zip_with, list_lookup_imap, list_lookup_fmap, Hq. simpl.
  rewrite <- fmap_take, omap_finite_value_Fin.
  destruct (running_peak qs i q Hq) as (M & -> & Hge & (j & q' & Hj & Hq' & HM)).
  assert (HMpos : 0 < M).
  { rewrite Forall_lookup in Hpos. specialize (Hpos _ _ Hq'). simpl in Hpos. lra. }
  pose proof (Hge i q (Nat.le_refl i) Hq) as HqM.
  simpl. replace (Qeq_bool M 0) with false by (symmetry; apply Qeq_bool_false; lra).
  eexists. split; [reflexivity|]. rewrite !Qred_correct.
  assert (Hd : (q + - M) / M <= 0).
  { apply Qle_shift_div_r; lra. }
  split; [exact Hd|]. split.
  - intros Hz j' q'' Hj' Hq''. specialize (Hge j' q'' Hj' Hq'').
    assert (q + - M == (q + - M) / M * M) as Heq by (field; lra).
    rewrite Hz in Heq. lra.
  - intros Hall. specialize (Hall j q' Hj Hq').
    assert (q == M) as -> by lra. field. lra.
Qed.

Lemma all_numbers_map_Fin (l : list val) : all_numbers l -> exists ds, l = map Fin ds.
Proof.
  induction 1 as [|v l Hv _ (ds & ->)].
  - exists []. reflexivity.
  - destruct v; try discriminate. exists (q :: ds). reflexivity.
Qed.

Lemma dropna_map_Fin (ds : list Q) : dropna (map Fin ds) = map Fin ds.
Proof.
  unfold dropna. induction ds as [|d ds IH]; [reflexivity|].
  simpl. rewrite filter_cons_True by reflexivity. now rewrite IH.
Qed.

Lemma fold_vmin_Fin (l : list Q) (x : Q) :
  fold_left vmin (map Fin l) (Fin x) = Fin (fold_left Qmin l x).
Proof.
  revert x. induction l as [|y l IH]; intros x; simpl; [reflexivity|].
  rewrite <- IH. f_equal. unfold vmin, Qmin. simpl. destruct (Qlt_bool y x); reflexivity.
Qed.

Lemma Qmin_fold_in (l : list Q) (x : Q) : fold_left Qmin l x ∈ x :: l.
Proof.
  revert x. induction l as [|z l IH]; intros x; simpl.
  - left.
  - specialize (IH (Qmin x z)). unfold Qmin in *.
    destruct (Qlt_bool z x); apply elem_of_cons in IH as [-> | IH].
    + right. left.
    + right. right. exact IH.
    + left.
    + right. right. exact IH.
Qed.

(** [s.min()] of a column of numbers: one of them, below all of them. *)
Lemma s_min_numbers (ds : list Q) :
  ds <> [] ->
  exists m, s_min (map Fin ds) = Fin m /\ m ∈ ds /\ forall d, d ∈ ds -> m <= d.
Proof.
  intros Hne. unfold s_min. rewrite dropna_map_Fin.
  destruct ds as [|x l]; [congruence|]. simpl. rewrite fold_vmin_Fin.
  eexists. split; [reflexivity|]. split; [apply Qmin_fold_in|].
  intros d Hd. apply Qmin_fold_le, Hd.
Qed.

Lemma nondecreasing_prefix (qs : list Q) :
  nondecreasing (map Fin qs) <->
  forall i q, qs !! i = Some q -> forall j q', (j <= i)%nat -> qs !! j = Some q' -> q' <= q.
Proof.
  split.
  - intros Hmono i. induction i as [|i IH]; intros q Hq j q' Hj Hq'.
    + assert (j = 0)%nat as -> by lia. rewrite Hq in Hq'. injection Hq' as <-. apply Qle_refl.
    + destruct (Nat.eq_dec j (S i)) as [-> | Hne].
      * rewrite Hq in Hq'. injection Hq' as <-. apply Qle_refl.
      * destruct (lookup_lt_is_Some_2 qs i) as [p Hp];
          [apply lookup_lt_Some in Hq; lia|].
        specialize (IH p Hp j q' ltac:(lia) Hq').
        specialize (Hmono i (Fin p) (Fin q)).
        rewrite !list_lookup_fmap, Hp, Hq in Hmono.
        specialize (Hmono eq_refl eq_refl). apply vle_Fin in Hmono. lra.
  - intros Hpre i a b Ha Hb. rewrite list_lookup_fmap in Ha, Hb.
    destruct (qs !! i) as [p|] eqn:Ep; [|discriminate].
    destruct (qs !! S i) as [q|] eqn:Eq; [|discriminate].
    injection Ha as <-. injection Hb as <-. apply vle_Fin.
    apply (Hpre (S i) q Eq i p); [lia | exact Ep].
Qed.

(** The drawdown of a return series whose returns are numbers above -1. *)
Lemma drawdown_min (returns : list val) :
  Forall (fun v => exists r, v = Fin r /\ -1 < r) returns ->
  returns <> [] ->
  exists d, s_min (drawdown_series returns) = Fin d /\ d <= 0 /\
            (d == 0 <-> nondecreasing (cumulative_path returns)).
Proof.
  intros Hr Hne.
  destruct (cumulative_path_positive returns Hr) as (qs & Hqs & Hpos & Hlen).
  unfold drawdown_series. fold (cumulative_path returns). rewrite Hqs.
  set (dd := s_div (s_sub (map Fin qs) (expanding_max (map Fin qs)))
                   (expanding_max (map Fin qs))).
  assert (Hddlen : length dd = length qs).
  { unfold dd, s_div, s_sub, expanding_max.
    rewrite !length_zip_with, length_imap, length_map. lia. }
  assert (Hnum : all_numbers dd).
  { apply Forall_lookup. intros i v Hv.
    destruct (lookup_lt_is_Some_2 qs i) as [q Hq]; [apply lookup_lt_Some in Hv; lia|].
    destruct (drawdown_cell qs i q Hpos Hq) as (d & Hd & _).
    fold dd in Hd. rewrite Hv in Hd. injection Hd as ->. reflexivity. }
  destruct (all_numbers_map_Fin dd Hnum) as (ds & Hds).
  assert (Hdsne : ds <> []).
  { intros ->. rewrite Hds in Hddlen. simpl in Hddlen.
    destruct returns; [congruence | simpl in Hlen; lia]. }
  rewrite Hds. destruct (s_min_numbers ds Hdsne) as (m & -> & Hin & Hmin).
  assert (Hcell : forall i d, ds !! i = Some d ->
            exists q, qs !! i = Some q /\ d <= 0 /\
              (d == 0 <-> forall j q', (j <= i)%nat -> qs !! j = Some q' -> q' <= q)).
  { intros i d Hd.
    assert (Hv : dd !! i = Some (Fin d)) by (rewrite Hds, list_lookup_fmap, Hd; reflexivity).
    destruct (lookup_lt_is_Some_2 qs i) as [q Hq]; [apply lookup_lt_Some in Hv; lia|].
    destruct (drawdown_cell qs i q Hpos Hq) as (d' & Hd' & Hle & Hiff).
    fold dd in Hd'. rewrite Hv in Hd'. injection Hd' as <-. eauto. }
  exists m. split; [reflexivity|].
  apply list_elem_of_lookup in Hin as [im Him].
  destruct (Hcell _ _ Him) as (qm & _ & Hm0 & _).
  split; [exact Hm0|].
  rewrite nondecreasing_prefix. split.
  - intros Hz i q Hq.
    destruct (lookup_lt_is_Some_2 ds i) as [d Hd].
    { apply (f_equal length) in Hds. rewrite length_map in Hds.
      apply lookup_lt_Some in Hq. lia. }
    destruct (Hcell _ _ Hd) as (q0 & Hq0 & Hd0 & Hiff).
    rewrite Hq in Hq0. injection Hq0 as <-.
    apply Hiff. specialize (Hmin d (list_elem_of_lookup_2 _ _ _ Hd)). lra.
  - intros Hpre. destruct (Hcell _ _ Him) as (q & Hq & _ & Hiff).
    apply Hiff. apply (Hpre im q Hq).
Qed.

(** C5, as the code has it.  On a series of positive prices with at least
    30 return observations, max_drawdown is a number that is at most 0, and
    it is 0 exactly when the cumulative-return path never decreases. *)
Theorem max_drawdown_nonpositive `{NumLib} (data : DataFrame) (close returns : list val) :
  col "Close" data = Some close ->
  positive_prices close ->
  close_returns data = Some returns ->
  (30 <= length returns)%nat ->
  exists m d,
    _calculate_risk_metrics data = Some m /\
    max_drawdown m = Fin d /\ d <= 0 /\
    (d == 0 <-> nondecreasing (cumulative_path returns)).
Proof.
  intros Hc Hpos Hret Hlen.
  assert (Hr : Forall (fun v => exists r, v = Fin r /\ -1 < r) returns).
  { unfold close_returns in Hret. rewrite Hc in Hret. simpl in Hret.
    injection Hret as <-. apply positive_prices_returns, Hpos. }
  destruct (drawdown_min returns Hr) as (d & Hd & Hle & Hiff).
  { intros ->. simpl in Hlen. lia. }
  unfold _calculate_risk_metrics. rewrite Hret. simpl.
  replace (length returns <? 30)%nat with false by (symmetry; apply Nat.ltb_ge; lia).
  eexists _, d. split; [reflexivity|]. simpl. auto.
Qed.

Lemma ramp_positive (n : nat) : positive_prices (map Fin (ramp n)).
Proof.
  unfold positive_prices, ramp. rewrite map_map. apply Forall_fmap, list.Forall_forall.
  intros i _. simpl. eexists. split; [reflexivity|].
  assert (0 <= inject_Z (Z.of_nat i)).
  { change 0 with (inject_Z 0). rewrite <- Zle_Qle. lia. }
  lra.
Qed.

Lemma max_drawdown_nonpositive_witness :
  exists m d,
    @_calculate_risk_metrics computing_lib (frame_at 0 (ramp 31)) = Some m /\
    max_drawdown m = Fin d /\ d <= 0 /\
    (d == 0 <-> nondecreasing (cumulative_path ramp31_returns)).
Proof.
  apply (@max_drawdown_nonpositive computing_lib (frame_at 0 (ramp 31))
           (map Fin (ramp 31)) ramp31_returns).
  - reflexivity.
  - apply ramp_positive.
  - vm_compute. reflexivity.
  - unfold ramp31_returns. simpl. lia.
Defined.

(** C5 as stated fails on a short series: with fewer than 30 returns the
    result is the all-zero RiskMetrics, so max_drawdown is 0 although the
    cumulative-return path 1.1, 0.99 decreases. *)
Lemma max_drawdown_zero_on_short_falling_series :
  exists m returns,
    @_calculate_risk_metrics computing_lib (frame_at 0 [100; 110; 99]) = Some m /\
    close_returns (frame_at 0 [100; 110; 99]) = Some returns /\
    max_drawdown m = Fin 0 /\
    ~ nondecreasing (cumulative_path returns).
Proof.
  exists zero_risk_metrics, [Fin (1 # 10); Fin (-1 # 10)].
  split; [vm_compute; reflexivity|]. split; [vm_compute; reflexivity|].
  split; [reflexivity|].
  intros Hmono. specialize (Hmono 0%nat (Fin (11 # 10)) (Fin (99 # 100)) eq_refl eq_refl).
  vm_compute in Hmono. discriminate.
Qed.

(* ================================================================= *)
(** ** The indicator pipeline never fails on a price series *)

Lemma price_frame_set_col name s df :
  name <> "Close" -> name <> "High" -> name <> "Low" -> name <> "Volume" ->
  price_frame df -> price_frame (set_col name s df).
Proof.
  intros H1 H2 H3 H4 (Hc & Hh & Hl & Hv). unfold price_frame.
  rewrite !col_set_col_ne by assumption. auto.
Qed.

Ltac price_cols H :=
  let c := fresh "close" in let h := fresh "high" in
  let l := fresh "low" in let v := fresh "volume" in
  let Hc := fresh "Hclose" in let Hh := fresh "Hhigh" in
  let Hl := fresh "Hlow" in let Hv := fresh "Hvolume" in
  pose proof H as ([c Hc] & [h Hh] & [l Hl] & [v Hv]).

Ltac keep_prices :=
  repeat (apply price_frame_set_col; [discriminate | discriminate | discriminate | discriminate |]);
  try assumption.

Lemma ewm_mean_is_Some span (s : list val) :
  (1 <= span)%nat -> is_Some (ewm_mean span s).
Proof.
  intros Hs. unfold ewm_mean.
  replace (span <? 1)%nat with false by (symmetry; apply Nat.ltb_ge; lia).
  destruct s; eexists; reflexivity.
Qed.

Lemma add_sma_keeps periods df :
  price_frame df ->
  exists df', fold_left add_sma periods (Some df) = Some df' /\ price_frame df'.
Proof.
  revert df. induction periods as [|p periods IH]; intros df Hdf; simpl.
  - eauto.
  - price_cols Hdf. rewrite Hclose. simpl. apply IH.
    apply price_frame_set_col; try assumption; simpl; discriminate.
Qed.

Lemma add_ema_keeps periods df :
  Forall (fun p => 1 <= p)%nat periods ->
  price_frame df ->
  exists df', fold_left add_ema periods (Some df) = Some df' /\ price_frame df'.
Proof.
  intros Hp. revert df. induction Hp as [|p periods Hp1 _ IH]; intros df Hdf; simpl.
  - eauto.
  - price_cols Hdf. rewrite Hclose. simpl.
    destruct (ewm_mean_is_Some p close Hp1) as [e ->]. simpl. apply IH.
    apply price_frame_set_col; try assumption; simpl; discriminate.
Qed.

Lemma has_col_true name df : has_col name df = true -> is_Some (col name df).
Proof. unfold has_col. intros Hb. apply bool_decide_eq_true in Hb. exact Hb. Qed.

Lemma moving_averages_keeps config :
  valid_config config -> keeps_prices (_calculate_moving_averages config).
Proof.
  intros (Hema & _) df Hdf. unfold _calculate_moving_averages.
  destruct (add_sma_keeps (sma_periods config) df Hdf) as (df1 & -> & Hdf1). obind.
  destruct (add_ema_keeps (ema_periods config) df1 Hema Hdf1) as (df2 & -> & Hdf2). obind.
  destruct (has_col "SMA_50" df2 && has_col "SMA_200" df2) eqn:E; [|eauto].
  apply andb_true_iff in E as [E50 E200].
  destruct (has_col_true _ _ E50) as [s50 H50].
  destruct (has_col_true _ _ E200) as [s200 H200].
  rewrite H50, H200. obind. repeat (col_step; obind). rewrite H50, H200. obind.
  eexists. split; [reflexivity|]. keep_prices.
Qed.

Lemma rsi_keeps config : keeps_prices (_calculate_rsi config).
Proof.
  intros df Hdf. price_cols Hdf. unfold _calculate_rsi. rewrite Hclose. obind.
  repeat (col_step; obind). eexists. split; [reflexivity|]. keep_prices.
Qed.

Lemma macd_keeps config : valid_config config -> keeps_prices (_calculate_macd config).
Proof.
  intros (_ & Hf & Hs & Hg) df Hdf. price_cols Hdf. unfold _calculate_macd.
  rewrite Hclose. obind.
  destruct (ewm_mean_is_Some (macd_fast config) close Hf) as [ef ->]. obind.
  destruct (ewm_mean_is_Some (macd_slow config) close Hs) as [es ->]. obind.
  repeat (col_step; obind).
  destruct (ewm_mean_is_Some (macd_signal config) (s_sub ef es) Hg) as [eg ->]. obind.
  repeat (col_step; obind). eexists. split; [reflexivity|]. keep_prices.
Qed.

Lemma bollinger_keeps `{NumLib} config : keeps_prices (_calculate_bollinger_bands config).
Proof.
  intros df Hdf. price_cols Hdf. unfold _calculate_bollinger_bands. rewrite Hclose. obind.
  repeat (col_step; obind). rewrite Hclose. obind. repeat (col_step; obind).
  eexists. split; [reflexivity|]. keep_prices.
Qed.

Lemma stochastic_keeps config : keeps_prices (_calculate_stochastic config).
Proof.
  intros df Hdf. price_cols Hdf. unfold _calculate_stochastic.
  rewrite Hlow, Hhigh, Hclose. obind. repeat (col_step; obind).
  eexists. split; [reflexivity|]. keep_prices.
Qed.

Lemma williams_r_keeps : keeps_prices _calculate_williams_r.
Proof.
  intros df Hdf. price_cols Hdf. unfold _calculate_williams_r.
  rewrite Hlow, Hhigh, Hclose. obind.
  eexists. split; [reflexivity|]. keep_prices.
Qed.

Lemma typical_price_is_Some df : price_frame df -> is_Some (typical_price df).
Proof.
  intros Hdf. price_cols Hdf. unfold typical_price. rewrite Hlow, Hhigh, Hclose. obind.
  eexists. reflexivity.
Qed.

Lemma cci_keeps : keeps_prices _calculate_cci.
Proof.
  intros df Hdf. unfold _calculate_cci.
  destruct (typical_price_is_Some df Hdf) as [tp ->]. obind.
  eexists. split; [reflexivity|]. keep_prices.
Qed.

Lemma volume_indicators_keeps : keeps_prices _calculate_volume_indicators.
Proof.
  intros df Hdf. price_cols Hdf. unfold _calculate_volume_indicators.
  rewrite Hclose, Hvolume. obind.
  repeat (col_step; obind; rewrite ?Hvolume; obind).
  eexists. split; [reflexivity|]. keep_prices.
Qed.

Lemma atr_keeps : keeps_prices _calculate_atr.
Proof.
  intros df Hdf. price_cols Hdf. unfold _calculate_atr.
  rewrite Hlow, Hhigh, Hclose. obind.
  eexists. split; [reflexivity|]. keep_prices.
Qed.

Lemma keltner_keeps : keeps_prices _calculate_keltner_channels.
Proof.
  intros df Hdf. price_cols Hdf. unfold _calculate_keltner_channels.
  rewrite Hclose. obind.
  destruct (ewm_mean_is_Some 20 close) as [e ->]; [lia|]. obind.
  destruct (has_col "ATR" df) eqn:E.
  - obind. destruct (has_col_true _ _ E) as [atr ->]. obind.
    eexists. split; [reflexivity|]. keep_prices.
  - destruct (atr_keeps df Hdf) as (df1 & Hatr & Hdf1). rewrite Hatr. obind.
    unfold _calculate_atr in Hatr. rewrite Hlow, Hhigh, Hclose in Hatr.
    apply (inj Some) in Hatr. subst df1. col_step. obind.
    eexists. split; [reflexivity|]. keep_prices.
Qed.

Lemma mid_range_is_Some w df : price_frame df -> is_Some (mid_range w df).
Proof.
  intros Hdf. price_cols Hdf. unfold mid_range. rewrite Hlow, Hhigh. obind.
  eexists. reflexivity.
Qed.

Lemma mid_range_set_col w name s df :
  name <> "High" -> name <> "Low" -> mid_range w (set_col name s df) = mid_range w df.
Proof.
  intros Hh Hl. unfold mid_range. now rewrite !col_set_col_ne by assumption.
Qed.

Lemma ichimoku_keeps : keeps_prices _calculate_ichimoku.
Proof.
  intros df Hdf. price_cols Hdf. unfold _calculate_ichimoku.
  destruct (mid_range_is_Some 9 df Hdf) as [t Ht].
  destruct (mid_range_is_Some 26 df Hdf) as [k Hk].
  destruct (mid_range_is_Some 52 df Hdf) as [b Hb].
  rewrite Ht. obind. rewrite mid_range_set_col, Hk by discriminate. obind.
  repeat (col_step; obind).
  rewrite !mid_range_set_col, Hb by discriminate. obind.
  repeat (col_step; obind). rewrite Hclose. obind.
  eexists. split; [reflexivity|]. keep_prices.
Qed.

Lemma vwap_keeps : keeps_prices _calculate_vwap.
Proof.
  intros df Hdf. price_cols Hdf. unfold _calculate_vwap.
  destruct (typical_price_is_Some df Hdf) as [tp ->]. obind. rewrite Hvolume. obind.
  eexists. split; [reflexivity|]. keep_prices.
Qed.

Lemma indicator_pipeline_is_Some `{NumLib} config df :
  valid_config config -> price_frame df -> is_Some (indicator_pipeline config df).
Proof.
  intros Hcfg Hdf. unfold indicator_pipeline.
  destruct (moving_averages_keeps config Hcfg df Hdf) as (df1 & -> & Hdf1). obind.
  destruct (rsi_keeps config df1 Hdf1) as (df2 & -> & Hdf2). obind.
  destruct (macd_keeps config Hcfg df2 Hdf2) as (df3 & -> & Hdf3). obind.
  destruct (bollinger_keeps config df3 Hdf3) as (df4 & -> & Hdf4). obind.
  destruct (stochastic_keeps config df4 Hdf4) as (df5 & -> & Hdf5). obind.
  destruct (williams_r_keeps df5 Hdf5) as (df6 & -> & Hdf6). obind.
  destruct (cci_keeps df6 Hdf6) as (df7 & -> & Hdf7). obind.
  destruct (volume_indicators_keeps df7 Hdf7) as (df8 & -> & Hdf8). obind.
  destruct (atr_keeps df8 Hdf8) as (df9 & -> & Hdf9). obind.
  destruct (keltner_keeps df9 Hdf9) as (df10 & -> & Hdf10). obind.
  destruct (ichimoku_keeps df10 Hdf10) as (df11 & -> & Hdf11). obind.
  destruct (vwap_keeps df11 Hdf11) as (df12 & -> & _). eexists. reflexivity.
Qed.

(* ================================================================= *)
(** ** [calculate_all] on the store *)

Lemma bind_in_place {A} (f : DataFrame -> option DataFrame) (r : nat) (df : DataFrame)
    (σ : store) (k : nat -> M A) :
  bind (in_place f r) k (<[r := df]> σ)
  = match f df with Some df' => k r (<[r := df']> σ) | None => None end.
Proof.
  unfold bind, in_place. cbv beta. rewrite lookup_insert_eq. obind.
  destruct (f df) as [df'|]; obind; [|reflexivity]. now rewrite insert_insert_eq.
Qed.

(** The call allocates one fresh object, which ends up holding the result of
    the pipeline on the frame behind [data]; nothing else is written. *)
Lemma calculate_all_run `{NumLib} (config : IndicatorConfig) (data : nat) (σ : store) :
  calculate_all config data σ
  = (df ← σ !! data;
     out ← indicator_pipeline config df;
     Some (fresh (dom σ), <[fresh (dom σ) := out]> σ)).
Proof.
  unfold calculate_all, indicator_pipeline. unfold bind at 1. unfold copy.
  destruct (σ !! data) as [df|]; [|reflexivity]. obind.
  repeat (rewrite bind_in_place;
          match goal with
          | |- match ?f ?d with _ => _ end = _ =>
              destruct (f d) as [?df|]; obind; [|reflexivity]
          end).
  reflexivity.
Qed.

(** C8.  On a price series and a configuration whose periods are positive,
    [calculate_all] returns; the frame handed in is unchanged afterwards; and
    a second call on the same input returns a frame equal to the first
    result. *)
Theorem calculate_all_idempotent `{NumLib} (config : IndicatorConfig) (σ : store)
    (data : nat) (df : DataFrame) :
  σ !! data = Some df ->
  price_frame df ->
  valid_config config ->
  exists r1 σ1 out,
    calculate_all config data σ = Some (r1, σ1) /\
    σ1 !! r1 = Some out /\
    σ1 !! data = Some df /\
    exists r2 σ2,
      calculate_all config data σ1 = Some (r2, σ2) /\
      σ2 !! r2 = Some out /\
      σ2 !! r1 = Some out /\
      σ2 !! data = Some df.
Proof.
  intros Hdata Hdf Hcfg.
  destruct (indicator_pipeline_is_Some config df Hcfg Hdf) as [out Hout].
  assert (Hfresh : forall τ : store, τ !! data = Some df -> fresh (dom τ) <> data).
  { intros τ Hτ Heq. apply (is_fresh (dom τ)). rewrite Heq.
    apply elem_of_dom. eauto. }
  set (r1 := fresh (dom σ)).
  set (σ1 := <[r1 := out]> σ).
  assert (Hσ1 : σ1 !! data = Some df).
  { unfold σ1. rewrite lookup_insert_ne; [exact Hdata | apply Hfresh, Hdata]. }
  exists r1, σ1, out. split; [|split; [|split]].
  - rewrite calculate_all_run, Hdata. obind. rewrite Hout. reflexivity.
  - unfold σ1. apply lookup_insert_eq.
  - exact Hσ1.
  - set (r2 := fresh (dom σ1)).
    exists r2, (<[r2 := out]> σ1). split; [|split; [|split]].
    + rewrite calculate_all_run, Hσ1. obind. rewrite Hout. reflexivity.
    + apply lookup_insert_eq.
    + rewrite lookup_insert_ne; [apply lookup_insert_eq|].
      intros Heq. apply (is_fresh (dom σ1)). fold r2. rewrite Heq.
      apply elem_of_dom. unfold σ1. rewrite lookup_insert_eq. eauto.
    + rewrite lookup_insert_ne; [exact Hσ1 | apply Hfresh, Hσ1].
Qed.

Lemma example_prices_frame : price_frame example_bars.
Proof. repeat split; eexists; reflexivity. Qed.

Lemma default_config_valid : valid_config default_config.
Proof. repeat split; simpl; try lia. repeat constructor; lia. Qed.

Lemma calculate_all_idempotent_witness :
  let df := example_bars in
  let σ : store := {[ 0%nat := df ]} in
  exists r1 σ1 out,
    @calculate_all computing_lib default_config 0 σ = Some (r1, σ1) /\
    σ1 !! r1 = Some out /\
    σ1 !! 0%nat = Some df /\
    exists r2 σ2,
      @calculate_all computing_lib default_config 0 σ1 = Some (r2, σ2) /\
      σ2 !! r2 = Some out /\
      σ2 !! r1 = Some out /\
      σ2 !! 0%nat = Some df.
Proof.
  intros df σ.
  apply (@calculate_all_idempotent computing_lib default_config σ 0%nat df).
  - reflexivity.
  - apply example_prices_frame.
  - apply default_config_valid.
Defined.

(* ================================================================= *)
(** ** Correlation with the benchmark *)

Lemma label_lookup_Some t (s : list (Z * val)) v :
  label_lookup t s = Some v -> (t, v) ∈ s.
Proof.
  unfold label_lookup. destruct (list_find _ s) as [[i [t' v']]|] eqn:E; [|discriminate].
  simpl. intros [= <-]. apply list_find_Some in E as (Hi & Ht & _). simpl in Ht. subst t'.
  eapply list_elem_of_lookup_2, Hi.
Qed.

Lemma label_lookup_is_Some t (s : list (Z * val)) :
  t ∈ s.*1 -> is_Some (label_lookup t s).
Proof.
  intros Ht. apply list_elem_of_fmap in Ht as ([t' v] & -> & Hin).
  unfold label_lookup. simpl.
  destruct (list_find_elem_of (fun p : Z * val => p.1 = t') s (t', v) Hin eq_refl) as [r Hr].
  rewrite Hr. eexists. reflexivity.
Qed.

Lemma length_loc (labels : list Z) (s : list (Z * val)) :
  Forall (fun t => t ∈ s.*1) labels -> length (loc labels s) = length labels.
Proof.
  unfold loc. induction 1 as [|t labels Ht _ IH]; [reflexivity|].
  destruct (label_lookup_is_Some t s Ht) as [v Hv]. cbn. rewrite Hv. cbn.
  f_equal. exact IH.
Qed.

Lemma loc_values (labels : list Z) (s : list (Z * val)) v :
  v ∈ (loc labels s).*2 -> exists t, (t, v) ∈ s.
Proof.
  unfold loc. intros Hv. apply list_elem_of_fmap in Hv as ([t v'] & -> & Hin).
  apply list_elem_of_omap in Hin as (t' & _ & Ht').
  destruct (label_lookup t' s) as [w|] eqn:E; [|discriminate].
  simpl in Ht'. injection Ht' as <- <-. exists t'. apply label_lookup_Some, E.
Qed.

Lemma loc_dropna_no_nan (labels : list Z) (s : list (Z * val)) :
  Forall (fun v => is_nan v = false) (loc labels (i_dropna s)).*2.
Proof.
  apply list.Forall_forall. intros v Hv. apply loc_values in Hv as [t Ht].
  unfold i_dropna in Ht. apply list_elem_of_filter in Ht as [Hn _]. exact Hn.
Qed.

Lemma valid_pairs_no_nan (a b : list val) :
  Forall (fun v => is_nan v = false) a ->
  Forall (fun v => is_nan v = false) b ->
  valid_pairs a b = zip a b.
Proof.
  intros Ha. revert b. unfold valid_pairs.
  induction Ha as [|x a Hx _ IH]; intros b Hb; [reflexivity|].
  destruct Hb as [|y b Hy Hb]; [reflexivity|]. simpl.
  rewrite filter_cons_True by (simpl; auto). now rewrite IH.
Qed.

Section Correlation.
Context `{NumLib}.
Hypothesis np_sqrt_zero : forall x, 0 <= x -> (np_sqrt x == 0 <-> x == 0).

Lemma std_zero_iff_var_zero (v : val) : veq (vsqrt v) (Fin 0) = veq v (Fin 0).
Proof.
  destruct v as [| |q|]; try reflexivity. simpl.
  destruct (Qlt_bool q 0) eqn:E; qbool.
  - simpl. symmetry. apply Qeq_bool_false. lra.
  - simpl. destruct (Qeq_bool q 0) eqn:E0; qbool.
    + apply Qeq_bool_iff. rewrite Qred_correct. apply np_sqrt_zero; assumption.
    + apply Qeq_bool_false. rewrite Qred_correct. intros Hz. apply E0.
      apply (np_sqrt_zero q E). exact Hz.
Qed.

(** C2, as the code has it.  The result is "unavailable" exactly when the
    benchmark frame is empty, or the two frames differ in length, or fewer
    than 10 timestamps carry a return in both series.  Otherwise it holds the
    correlation coefficient of the aligned returns, the beta (covariance over
    benchmark variance, 1.0 when that variance is 0; [_calculate_beta] also
    answers 1.0 on fewer than 2 points) and the square of the correlation. *)
Theorem correlations_unavailable_iff (data benchmark : DataFrame) :
  (df_empty benchmark = true \/ df_len data <> df_len benchmark ->
   _calculate_correlations data benchmark = Some None) /\
  (forall returns benchmark_returns,
     (length returns < 2)%nat -> _calculate_beta returns benchmark_returns = Fin 1) /\
  (forall close bclose,
     iseries "Close" data = Some close ->
     iseries "Close" benchmark = Some bclose ->
     let common := overlapping_observations close bclose in
     let a := (loc common (i_dropna (i_pct_change close))).*2 in
     let b := (loc common (i_dropna (i_pct_change bclose))).*2 in
     (_calculate_correlations data benchmark = Some None <->
        df_empty benchmark = true \/ df_len data <> df_len benchmark \/
        (length common < 10)%nat) /\
     (df_empty benchmark = false -> df_len data = df_len benchmark ->
      (10 <= length common)%nat ->
      length a = length common /\ length b = length common /\
      _calculate_correlations data benchmark =
        Some (Some {| correlation_with_benchmark := np_corrcoef a b;
                      benchmark_beta :=
                        if veq (s_var 1 b) (Fin 0) then Fin 1
                        else vdiv (np_cov a b) (s_var 1 b);
                      r_squared := vmul (np_corrcoef a b) (np_corrcoef a b) |}))).
Proof.
  assert (Hguard : df_empty benchmark = true \/ df_len data <> df_len benchmark ->
                   _calculate_correlations data benchmark = Some None).
  { unfold _calculate_correlations. intros [He | Hl].
    - rewrite He. reflexivity.
    - replace (df_len data =? df_len benchmark)%nat with false
        by (symmetry; apply Nat.eqb_neq; exact Hl).
      rewrite orb_true_r. reflexivity. }
  split; [exact Hguard|]. split.
  { intros returns benchmark_returns Hlen. unfold _calculate_beta.
    apply Nat.ltb_lt in Hlen. rewrite Hlen. reflexivity. }
  intros close bclose Hc Hb common a b.
  assert (Hla : length a = length common).
  { unfold a. rewrite length_fmap. apply length_loc, list.Forall_forall. intros t Ht.
    unfold common, overlapping_observations, index_intersection in Ht.
    apply list_elem_of_filter in Ht as [_ Ht]. exact Ht. }
  assert (Hlb : length b = length common).
  { unfold b. rewrite length_fmap. apply length_loc, list.Forall_forall. intros t Ht.
    unfold common, overlapping_observations, index_intersection in Ht.
    apply list_elem_of_filter in Ht as [Ht _]. exact Ht. }
  assert (Hna : Forall (fun v => is_nan v = false) a) by apply loc_dropna_no_nan.
  assert (Hnb : Forall (fun v => is_nan v = false) b) by apply loc_dropna_no_nan.
  assert (Hrun : df_empty benchmark = false -> df_len data = df_len benchmark ->
                 (10 <= length common)%nat ->
    _calculate_correlations data benchmark =
      Some (Some {| correlation_with_benchmark := np_corrcoef a b;
                    benchmark_beta :=
                      if veq (s_var 1 b) (Fin 0) then Fin 1
                      else vdiv (np_cov a b) (s_var 1 b);
                    r_squared := vmul (np_corrcoef a b) (np_corrcoef a b) |})).
  { intros He Hl Hn. unfold _calculate_correlations. rewrite He, Hl, Nat.eqb_refl.
    cbn [orb negb]. rewrite Hc, Hb. obind.
    fold (overlapping_observations close bclose). fold common.
    replace (length common <? 10)%nat with false by (symmetry; apply Nat.ltb_ge; lia).
    fold a b.
    assert (Hcorr : s_corr a b = np_corrcoef a b).
    { unfold s_corr. rewrite valid_pairs_no_nan by assumption.
      rewrite length_zip, fst_zip, snd_zip by lia.
      replace (length a `min` length b <? 1)%nat with false
        by (symmetry; apply Nat.ltb_ge; lia).
      reflexivity. }
    assert (Hcov : s_cov a b = np_cov a b).
    { unfold s_cov. rewrite valid_pairs_no_nan by assumption.
      rewrite length_zip, fst_zip, snd_zip by lia.
      replace (length a `min` length b <? 1)%nat with false
        by (symmetry; apply Nat.ltb_ge; lia).
      reflexivity. }
    rewrite Hcorr. unfold _calculate_beta.
    replace (length a <? 2)%nat with false by (symmetry; apply Nat.ltb_ge; lia).
    cbn [orb]. unfold s_std. rewrite std_zero_iff_var_zero, Hcov. reflexivity. }
  split; [|intros He Hl Hn; split; [exact Hla | split; [exact Hlb | apply Hrun; assumption]]].
  split.
  - intros Hres.
    destruct (df_empty benchmark) eqn:He; [left; reflexivity|].
    destruct (Nat.eq_dec (df_len data) (df_len benchmark)) as [Hl | Hl]; [|right; left; exact Hl].
    destruct (Nat.lt_ge_cases (length common) 10) as [Hn | Hn]; [right; right; exact Hn|].
    rewrite (Hrun eq_refl Hl Hn) in Hres. discriminate.
  - intros [He | [Hl | Hn]]; [apply Hguard; left; exact He | apply Hguard; right; exact Hl|].
    unfold _calculate_correlations.
    destruct (df_empty benchmark || negb (df_len data =? df_len benchmark)%nat);
      [reflexivity|].
    rewrite Hc, Hb. obind.
    fold (overlapping_observations close bclose). fold common.
    apply Nat.ltb_lt in Hn. rewrite Hn. reflexivity.
Qed.
End Correlation.

Lemma sqrt_fixed_pos (x : Q) : 0 < x -> 0 < sqrt_fixed x.
Proof.
  intros Hx. unfold sqrt_fixed. rewrite Qred_correct.
  apply Qlt_shift_div_l; [reflexivity|]. rewrite Qmult_0_l.
  change 0 with (inject_Z 0). rewrite <- Zlt_Qlt. apply Z.sqrt_up_pos.
  assert (Hc : 0 < x * inject_Z (2 ^ (2 * fixed_bits))).
  { apply Qmult_lt_0_compat; [exact Hx | reflexivity]. }
  pose proof (Qle_ceiling (x * inject_Z (2 ^ (2 * fixed_bits)))) as Hle.
  assert (Hpos : inject_Z 0 < inject_Z (Qceiling (x * inject_Z (2 ^ (2 * fixed_bits))))).
  { change (inject_Z 0) with 0. lra. }
  rewrite <- Zlt_Qlt in Hpos. exact Hpos.
Qed.

Lemma sqrt_fixed_zero_iff (x : Q) : 0 <= x -> (sqrt_fixed x == 0 <-> x == 0).
Proof.
  intros Hx. split.
  - intros Hz. destruct (Qlt_le_dec 0 x) as [Hpos | Hle]; [|lra].
    pose proof (sqrt_fixed_pos x Hpos). lra.
  - intros Hz. unfold sqrt_fixed. rewrite Qred_correct.
    assert (Hc : Qceiling (x * inject_Z (2 ^ (2 * fixed_bits))) = 0%Z).
    { rewrite (Qceiling_comp _ 0); [reflexivity|]. rewrite Hz. reflexivity. }
    rewrite Hc. reflexivity.
Qed.

Lemma correlations_unavailable_iff_witness :
  @_calculate_correlations computing_lib (frame_at 0 (ramp 12)) (frame_at 0 (squares 12))
  <> Some None.
Proof.
  destruct (@correlations_unavailable_iff computing_lib sqrt_fixed_zero_iff
              (frame_at 0 (ramp 12)) (frame_at 0 (squares 12))) as (_ & _ & Hclose).
  destruct (Hclose (labelled_close 0 (ramp 12)) (labelled_close 0 (squares 12))
              eq_refl eq_refl) as [Hiff _].
  intros Hnone. apply Hiff in Hnone. destruct Hnone as [He | [Hl | Hn]].
  - vm_compute in He. discriminate.
  - apply Hl. reflexivity.
  - vm_compute in Hn. lia.
Defined.

(** C2 as stated fails when the two frames differ in length: the result is
    "unavailable" although 11 timestamps carry a return in both series. *)
Lemma correlations_unavailable_on_length_mismatch :
  @_calculate_correlations computing_lib (frame_at 1 (ramp 12)) (frame_at 0 (ramp 13))
  = Some None /\
  iseries "Close" (frame_at 1 (ramp 12)) = Some (labelled_close 1 (ramp 12)) /\
  iseries "Close" (frame_at 0 (ramp 13)) = Some (labelled_close 0 (ramp 13)) /\
  length (overlapping_observations (labelled_close 1 (ramp 12)) (labelled_close 0 (ramp 13)))
  = 11%nat.
Proof.
  split; [reflexivity|]. split; [reflexivity|]. split; [reflexivity|].
  vm_compute. reflexivity.
Qed.

(* ================================================================= *)
(** ** Diversification ratio *)

Lemma analyze_portfolio_fields `{NumLib} (data : gmap string DataFrame)
    (symbols : list string) (snap : PortfolioSnapshot) :
  _analyze_portfolio data symbols = Some (Some snap) ->
  length (correlation_matrix snap) = length symbols /\
  diversification_ratio snap = _calculate_diversification_ratio (correlation_matrix snap).
Proof.
  unfold _analyze_portfolio.
  destruct (fold_left (collect_returns data) symbols (Some [])) as [returns_data|];
    [|discriminate]. obind.
  destruct (bool_decide (returns_data = [])); [discriminate|].
  destruct (pca_explained_variance_ratio _ _) as [evr|]; [|discriminate]. obind.
  destruct (length returns_data =? length symbols)%nat eqn:E; [|discriminate].
  apply Nat.eqb_eq in E. cbn [negb]. intros Hs. apply (inj Some), (inj Some) in Hs.
  subst snap. cbn [correlation_matrix diversification_ratio]. split; [|reflexivity].
  unfold corr_matrix. rewrite length_map, length_seq. exact E.
Qed.

Section Diversification.
Context `{NumLib}.
Hypothesis np_sqrt_pos : forall x, 0 < x -> 0 < np_sqrt x.

Lemma diversification_ratio_formula (m : list (list val)) (a : Q) :
  (2 <= length m)%nat ->
  np_mean (upper_triangle m) = Fin a ->
  a < 0 ->
  exists q, _calculate_diversification_ratio m = Fin q /\ q < 0 /\
            q == 1 / (a * np_sqrt (inject_Z (Z.of_nat (length m)))).
Proof.
  intros Hlen Havg Ha. unfold _calculate_diversification_ratio.
  replace (length m =? 1)%nat with false by (symmetry; apply Nat.eqb_neq; lia).
  rewrite Havg. unfold of_nat, vsqrt.
  assert (Hn : 0 < inject_Z (Z.of_nat (length m))).
  { change 0 with (inject_Z 0). rewrite <- Zlt_Qlt. lia. }
  replace (Qlt_bool (inject_Z (Z.of_nat (length m))) 0) with false
    by (symmetry; apply Qlt_bool_false; lra).
  pose proof (np_sqrt_pos _ Hn) as Hs.
  set (s := np_sqrt (inject_Z (Z.of_nat (length m)))) in *.
  assert (Hprod : a * s < 0) by nra.
  simpl. unfold num.
  replace (Qeq_bool (Qred (a * Qred s)) 0) with false.
  2:{ symmetry. apply Qeq_bool_false. rewrite !Qred_correct. lra. }
  eexists. split; [reflexivity|]. rewrite !Qred_correct. split; [|reflexivity].
  assert (Hinv : 0 < 1 / - (a * s)) by (apply Qlt_shift_div_l; lra).
  assert (Heq : 1 / (a * s) == - (1 / - (a * s))) by (field; lra).
  lra.
Qed.

(** C3, as the code has it.  With at least two symbols and a negative mean
    off-diagonal correlation, the diversification ratio of the snapshot is
    the number 1 / (mean * sqrt(n)), which is negative: the formula's value,
    not a sentinel. *)
Theorem diversification_ratio_negative_mean (data : gmap string DataFrame)
    (symbols : list string) (snap : PortfolioSnapshot) (a : Q) :
  _analyze_portfolio data symbols = Some (Some snap) ->
  (2 <= length symbols)%nat ->
  np_mean (upper_triangle (correlation_matrix snap)) = Fin a ->
  a < 0 ->
  exists q, diversification_ratio snap = Fin q /\ q < 0 /\
            q == 1 / (a * np_sqrt (inject_Z (Z.of_nat (length symbols)))).
Proof.
  intros Hrun Hn Havg Ha.
  destruct (analyze_portfolio_fields data symbols snap Hrun) as [Hlen ->].
  rewrite <- Hlen. apply diversification_ratio_formula; [lia | exact Havg | exact Ha].
Qed.
End Diversification.


Lemma diversification_ratio_negative_mean_witness :
  exists q, diversification_ratio mirrored_snapshot = Fin q /\ q < 0 /\
            q == 1 / ((-1073741824 # 1073741825) * sqrt_fixed (inject_Z (Z.of_nat 2))).
Proof.
  apply (@diversification_ratio_negative_mean computing_lib sqrt_fixed_pos
           mirrored_portfolio ["A"; "B"] mirrored_snapshot (-1073741824 # 1073741825)).
  - vm_compute. reflexivity.
  - simpl. lia.
  - vm_compute. reflexivity.
  - reflexivity.
Defined.

(** C3 as stated fails.  Uncorrelated assets (mean correlation 0) put an
    infinity into the snapshot, and two portfolios with negative mean
    correlation get two different negative ratios, so no sentinel stands for
    the degenerate case. *)
Lemma diversification_ratio_unguarded :
  (@_analyze_portfolio computing_lib uncorrelated_portfolio ["A"; "B"]
     = Some (Some uncorrelated_snapshot) /\
   np_mean (upper_triangle (correlation_matrix uncorrelated_snapshot)) = Fin 0 /\
   diversification_ratio uncorrelated_snapshot = PInf) /\
  (@_analyze_portfolio computing_lib mirrored_portfolio ["A"; "B"]
     = Some (Some mirrored_snapshot) /\
   @_analyze_portfolio computing_lib opposed_portfolio ["A"; "B"]
     = Some (Some opposed_snapshot) /\
   vlt (np_mean (upper_triangle (correlation_matrix mirrored_snapshot))) (Fin 0) = true /\
   vlt (np_mean (upper_triangle (correlation_matrix opposed_snapshot))) (Fin 0) = true /\
   is_fin (diversification_ratio mirrored_snapshot) = true /\
   is_fin (diversification_ratio opposed_snapshot) = true /\
   vlt (diversification_ratio mirrored_snapshot) (Fin 0) = true /\
   vlt (diversification_ratio opposed_snapshot) (Fin 0) = true /\
   veq (diversification_ratio mirrored_snapshot) (diversification_ratio opposed_snapshot)
     = false).
Proof.
  repeat split; vm_compute; reflexivity.
Qed.

(* ================================================================= *)
(** ** The examples, evaluated *)

Example rsi_example_column :
  _calculate_rsi short_config (frame_at 0 [5; 5; 5; 6; 7; 6; 5]) = Some rsi_example /\
  col "RSI" rsi_example = Some [NaN; NaN; NaN; Fin 100; Fin 100; Fin 50; Fin 0].
Proof. split; vm_compute; reflexivity. Qed.

Example bollinger_example_columns :
  @_calculate_bollinger_bands computing_lib short_config (frame_at 0 [5; 6; 7])
    = Some bollinger_example /\
  col "BB_Upper" bollinger_example = Some [NaN; NaN; Fin 8] /\
  col "BB_Middle" bollinger_example = Some [NaN; NaN; Fin 6] /\
  col "BB_Lower" bollinger_example = Some [NaN; NaN; Fin 4].
Proof. repeat split; vm_compute; reflexivity. Qed.

Example stochastic_example_column :
  _calculate_stochastic short_config example_bars = Some stochastic_example /\
  col "Stoch_K" stochastic_example = Some [NaN; NaN; Fin 80].
Proof. split; vm_compute; reflexivity. Qed.

Example obv_example_column :
  (df ← _calculate_volume_indicators example_bars; col "OBV" df)
  = Some [Fin 0; Fin 700; Fin 1000].
Proof. vm_compute. reflexivity. Qed.

(* ================================================================= *)
(** ** Crossing flags *)

Lemma vlt_asym (a b : val) : vlt a b = true -> vlt b a = false.
Proof.
  destruct a, b; simpl; try reflexivity; try discriminate.
  intros Hab. destruct (Qlt_bool q0 q) eqn:E; [|reflexivity]. qbool. lra.
Qed.

Lemma vlt_not_vle (a b : val) : vlt a b = true -> vle b a = false.
Proof.
  intros Hab. unfold vle. rewrite (vlt_asym _ _ Hab). simpl.
  destruct a, b; simpl in *; try reflexivity; try discriminate.
  destruct (Qeq_bool q0 q) eqn:E; [|reflexivity]. qbool. lra.
Qed.

Lemma vle_NaN_l (b : val) : vle NaN b = false.
Proof. reflexivity. Qed.

Lemma vle_NaN_r (a : val) : vle a NaN = false.
Proof. destruct a; reflexivity. Qed.

Lemma of_bool_one (b : bool) : of_bool b = Fin 1 -> b = true.
Proof. destruct b; [reflexivity | discriminate]. Qed.

Lemma length_cross_above (a b : list val) :
  length a = length b -> length (cross_above a b) = length a.
Proof.
  intros Hab. unfold cross_above, astype_int, s_and, s_flag.
  rewrite length_map, !length_zip_with, !length_shift. lia.
Qed.

Lemma length_cross_below (a b : list val) :
  length a = length b -> length (cross_below a b) = length a.
Proof.
  intros Hab. unfold cross_below, astype_int, s_and, s_flag.
  rewrite length_map, !length_zip_with, !length_shift. lia.
Qed.

(** A cell of a crossing flag, read back from the two columns. *)
Lemma lookup_cross (p q : val -> val -> bool) (a b : list val) i v :
  astype_int (s_and (s_flag p a b) (s_flag q (shift 1 a) (shift 1 b))) !! i = Some v ->
  exists x y x' y',
    a !! i = Some x /\ b !! i = Some y /\
    shift 1 a !! i = Some x' /\ shift 1 b !! i = Some y' /\
    v = of_bool (p x y && q x' y').
Proof.
  unfold astype_int, s_and, s_flag. rewrite list_lookup_fmap, !lookup_zip_with.
  destruct (a !! i) as [x|]; [|discriminate].
  destruct (b !! i) as [y|]; [|discriminate].
  destruct (shift 1 a !! i) as [x'|]; [|discriminate].
  destruct (shift 1 b !! i) as [y'|]; [|discriminate].
  simpl. intros [= <-]. eexists _, _, _, _. repeat split; reflexivity.
Qed.

Lemma cross_cells_01 (p q : val -> val -> bool) (a b : list val) i v :
  astype_int (s_and (s_flag p a b) (s_flag q (shift 1 a) (shift 1 b))) !! i = Some v ->
  v = Fin 0 \/ v = Fin 1.
Proof.
  intros (x & y & x' & y' & _ & _ & _ & _ & ->)%lookup_cross.
  destruct (p x y && q x' y'); [right | left]; reflexivity.
Qed.

(** The two flags of a pair of columns are never raised on the same bar. *)
Lemma cross_exclusive (a b : list val) i :
  cross_above a b !! i = Some (Fin 1) -> cross_below a b !! i = Some (Fin 1) -> False.
Proof.
  intros (x & y & x' & y' & Ha & Hb & _ & _ & Hup)%lookup_cross
         (x2 & y2 & x2' & y2' & Ha2 & Hb2 & _ & _ & Hdn)%lookup_cross.
  rewrite Ha in Ha2. rewrite Hb in Hb2. simplify_eq.
  symmetry in Hup, Hdn. apply of_bool_one, andb_true_iff in Hup as [Hup _].
  apply of_bool_one, andb_true_iff in Hdn as [Hdn _].
  unfold vgt in Hup. apply vlt_asym in Hup. congruence.
Qed.

(** No flag on the first bar: nothing precedes it. *)
Lemma cross_first_bar (p q : val -> val -> bool) (a b : list val) v :
  (forall y, q NaN y = false) ->
  astype_int (s_and (s_flag p a b) (s_flag q (shift 1 a) (shift 1 b))) !! 0%nat = Some v ->
  v = Fin 0.
Proof.
  intros Hq (x & y & x' & y' & Ha & _ & Ha' & _ & ->)%lookup_cross.
  rewrite lookup_shift_0 in Ha' by (apply lookup_lt_Some in Ha; lia).
  injection Ha' as <-. rewrite Hq, andb_false_r. reflexivity.
Qed.

(** A flag raised at a bar means the columns were in the other order, or
    level, on the bar before: the same flag is not raised twice in a row. *)
Lemma cross_above_not_consecutive (a b : list val) i :
  cross_above a b !! i = Some (Fin 1) -> cross_above a b !! S i = Some (Fin 1) -> False.
Proof.
  intros (x & y & x0 & y0 & Ha & Hb & _ & _ & H1)%lookup_cross
         (x2 & y2 & x' & y' & Ha2 & Hb2 & Ha' & Hb' & H2)%lookup_cross.
  rewrite lookup_shift_S in Ha' by (apply lookup_lt_Some in Ha2; lia).
  rewrite lookup_shift_S in Hb' by (apply lookup_lt_Some in Hb2; lia).
  rewrite Ha in Ha'. rewrite Hb in Hb'. simplify_eq.
  symmetry in H1, H2. apply of_bool_one, andb_true_iff in H1 as [H1 _].
  apply of_bool_one, andb_true_iff in H2 as [_ H2].
  unfold vgt in H1. apply vlt_not_vle in H1. congruence.
Qed.

Lemma cross_below_not_consecutive (a b : list val) i :
  cross_below a b !! i = Some (Fin 1) -> cross_below a b !! S i = Some (Fin 1) -> False.
Proof.
  intros (x & y & x0 & y0 & Ha & Hb & _ & _ & H1)%lookup_cross
         (x2 & y2 & x' & y' & Ha2 & Hb2 & Ha' & Hb' & H2)%lookup_cross.
  rewrite lookup_shift_S in Ha' by (apply lookup_lt_Some in Ha2; lia).
  rewrite lookup_shift_S in Hb' by (apply lookup_lt_Some in Hb2; lia).
  rewrite Ha in Ha'. rewrite Hb in Hb'. simplify_eq.
  symmetry in H1, H2. apply of_bool_one, andb_true_iff in H1 as [H1 _].
  apply of_bool_one, andb_true_iff in H2 as [_ H2].
  unfold vge in H2. apply vlt_not_vle in H1. congruence.
Qed.

(** A flag raised at bar [i] needs both columns observed on the bar before. *)
Lemma cross_needs_previous (p q : val -> val -> bool) (a b : list val) i :
  (forall y, q NaN y = false) -> (forall x, q x NaN = false) ->
  astype_int (s_and (s_flag p a b) (s_flag q (shift 1 a) (shift 1 b))) !! i = Some (Fin 1) ->
  exists j x' y', i = S j /\ a !! j = Some x' /\ b !! j = Some y' /\
                  is_nan x' = false /\ is_nan y' = false.
Proof.
  intros Hq1 Hq2 (x & y & x' & y' & Ha & Hb & Ha' & Hb' & Hv)%lookup_cross.
  symmetry in Hv. apply of_bool_one, andb_true_iff in Hv as [_ Hv].
  destruct i as [|j].
  - rewrite lookup_shift_0 in Ha' by (apply lookup_lt_Some in Ha; lia).
    injection Ha' as <-. rewrite Hq1 in Hv. discriminate.
  - rewrite lookup_shift_S in Ha' by (apply lookup_lt_Some in Ha; lia).
    rewrite lookup_shift_S in Hb' by (apply lookup_lt_Some in Hb; lia).
    exists j, x', y'. repeat split; try assumption.
    + destruct x'; try reflexivity. rewrite Hq1 in Hv. discriminate.
    + destruct y'; try reflexivity. rewrite Hq2 in Hv. discriminate.
Qed.

Lemma vge_NaN_l (b : val) : vge NaN b = false.
Proof. destruct b; reflexivity. Qed.

Lemma vge_NaN_r (a : val) : vge a NaN = false.
Proof. reflexivity. Qed.

Lemma length_ewm_loop alpha st (s : list val) : length (ewm_loop alpha st s) = length s.
Proof.
  revert st. induction s as [|x s IH]; intros st; simpl; [reflexivity | now rewrite IH].
Qed.

Lemma length_ewm_mean span (s e : list val) : ewm_mean span s = Some e -> length e = length s.
Proof.
  unfold ewm_mean. destruct (span <? 1)%nat; [discriminate|].
  destruct s as [|v s]; intros [= <-]; simpl; [reflexivity | now rewrite length_ewm_loop].
Qed.

(* ================================================================= *)
(** ** MACD *)

(** X1.  With spans of at least 1, the MACD columns are computed on every
    frame with a Close column.  The histogram is MACD minus its signal line
    on every bar; the bullish and the bearish flag hold 0 or 1, are never
    both raised on a bar, are 0 on the first bar, and neither is raised on
    two bars in a row. *)
Theorem macd_cross_flags (config : IndicatorConfig) (df : DataFrame) (close : list val) :
  (1 <= macd_fast config)%nat -> (1 <= macd_slow config)%nat ->
  (1 <= macd_signal config)%nat ->
  col "Close" df = Some close ->
  exists df' macd sig hist bull bear,
    _calculate_macd config df = Some df' /\
    col "MACD" df' = Some macd /\ col "MACD_Signal" df' = Some sig /\
    col "MACD_Histogram" df' = Some hist /\
    col "MACD_Bullish_Cross" df' = Some bull /\
    col "MACD_Bearish_Cross" df' = Some bear /\
    length macd = length close /\ length sig = length close /\
    length hist = length close /\
    length bull = length close /\ length bear = length close /\
    (forall i m s, macd !! i = Some m -> sig !! i = Some s -> hist !! i = Some (vsub m s)) /\
    (forall i v, bull !! i = Some v \/ bear !! i = Some v -> v = Fin 0 \/ v = Fin 1) /\
    (forall i, ~ (bull !! i = Some (Fin 1) /\ bear !! i = Some (Fin 1))) /\
    (forall v, bull !! 0%nat = Some v \/ bear !! 0%nat = Some v -> v = Fin 0) /\
    (forall i, ~ (bull !! i = Some (Fin 1) /\ bull !! S i = Some (Fin 1))) /\
    (forall i, ~ (bear !! i = Some (Fin 1) /\ bear !! S i = Some (Fin 1))).
Proof.
  intros Hf Hs Hg Hc. unfold _calculate_macd. rewrite Hc. obind.
  destruct (ewm_mean_is_Some (macd_fast config) close Hf) as [ef Ef].
  destruct (ewm_mean_is_Some (macd_slow config) close Hs) as [es Es].
  rewrite Ef, Es. obind. repeat (col_step; obind).
  destruct (ewm_mean_is_Some (macd_signal config) (s_sub ef es) Hg) as [sg Eg].
  rewrite Eg. obind. repeat (col_step; obind).
  pose proof (length_ewm_mean _ _ _ Ef) as Lf.
  pose proof (length_ewm_mean _ _ _ Es) as Ls.
  pose proof (length_ewm_mean _ _ _ Eg) as Lg.
  assert (Lm : length (s_sub ef es) = length close).
  { unfold s_sub. rewrite length_zip_with. lia. }
  eexists _, (s_sub ef es), sg, (s_sub (s_sub ef es) sg), _, _.
  split; [reflexivity|].
  do 5 (split; [repeat col_step; reflexivity|]).
  split; [exact Lm|]. split; [lia|].
  split; [unfold s_sub at 1; rewrite length_zip_with; lia|].
  split; [rewrite length_cross_above; lia|].
  split; [rewrite length_cross_below; lia|].
  split.
  { intros i m s Hm Hsg. unfold s_sub at 1. rewrite lookup_zip_with, Hm. simpl.
    rewrite Hsg. reflexivity. }
  split.
  { intros i v [Hv | Hv]; eapply cross_cells_01; exact Hv. }
  split.
  { intros i [Hb Hr]. eapply cross_exclusive; eassumption. }
  split.
  { intros v [Hv | Hv].
    - apply (cross_first_bar vgt vle (s_sub ef es) sg v vle_NaN_l Hv).
    - apply (cross_first_bar vlt vge (s_sub ef es) sg v vge_NaN_l Hv). }
  split.
  - intros i [H1 H2]. exact (cross_above_not_consecutive _ _ _ H1 H2).
  - intros i [H1 H2]. exact (cross_below_not_consecutive _ _ _ H1 H2).
Qed.

Lemma macd_cross_flags_witness :
  exists df' macd sig hist bull bear,
    _calculate_macd default_config example_bars = Some df' /\
    col "MACD" df' = Some macd /\ col "MACD_Signal" df' = Some sig /\
    col "MACD_Histogram" df' = Some hist /\
    col "MACD_Bullish_Cross" df' = Some bull /\
    col "MACD_Bearish_Cross" df' = Some bear /\
    length macd = 3%nat /\ length sig = 3%nat /\ length hist = 3%nat /\
    length bull = 3%nat /\ length bear = 3%nat /\
    (forall i m s, macd !! i = Some m -> sig !! i = Some s -> hist !! i = Some (vsub m s)) /\
    (forall i v, bull !! i = Some v \/ bear !! i = Some v -> v = Fin 0 \/ v = Fin 1) /\
    (forall i, ~ (bull !! i = Some (Fin 1) /\ bear !! i = Some (Fin 1))) /\
    (forall v, bull !! 0%nat = Some v \/ bear !! 0%nat = Some v -> v = Fin 0) /\
    (forall i, ~ (bull !! i = Some (Fin 1) /\ bull !! S i = Some (Fin 1))) /\
    (forall i, ~ (bear !! i = Some (Fin 1) /\ bear !! S i = Some (Fin 1))).
Proof.
  apply (macd_cross_flags default_config example_bars (map Fin [11; 12; 13])).
  - simpl. lia.
  - simpl. lia.
  - simpl. lia.
  - reflexivity.
Defined.

(* ================================================================= *)
(** ** Moving averages *)

Lemma sma_name_inj (p q : nat) : "SMA_" +:+ pretty p = "SMA_" +:+ pretty q -> p = q.
Proof. simpl. intros [= Hpq]. exact (pretty_nat_inj _ _ Hpq). Qed.

Lemma ema_name_inj (p q : nat) : "EMA_" +:+ pretty p = "EMA_" +:+ pretty q -> p = q.
Proof. simpl. intros [= Hpq]. exact (pretty_nat_inj _ _ Hpq). Qed.

Lemma index_set_col name s df : index (set_col name s df) = index df.
Proof. reflexivity. Qed.

(** The frame after the loop over [sma_periods]: one column per period,
    everything else as before. *)
Lemma fold_add_sma (periods : list nat) (df : DataFrame) (close : list val) :
  col "Close" df = Some close ->
  exists df',
    fold_left add_sma periods (Some df) = Some df' /\
    index df' = index df /\
    (forall p, p ∈ periods ->
       col ("SMA_" +:+ pretty p) df' = Some (rolling p agg_mean close)) /\
    (forall name, (forall p, p ∈ periods -> name <> "SMA_" +:+ pretty p) ->
       col name df' = col name df).
Proof.
  intros Hc. induction periods as [|p periods IH] using rev_ind.
  - exists df. split; [reflexivity|]. split; [reflexivity|]. split.
    + intros p Hp. inversion Hp.
    + reflexivity.
  - destruct IH as (df1 & Hfold & Hidx & Hsma & Hother).
    rewrite fold_left_app, Hfold. cbn [fold_left].
    assert (Hc1 : col "Close" df1 = Some close).
    { rewrite Hother; [exact Hc|]. intros q _. simpl. discriminate. }
    unfold add_sma at 1. obind. rewrite Hc1. obind.
    eexists. split; [reflexivity|]. split; [exact Hidx|]. split.
    + intros q Hq. destruct (decide (q = p)) as [-> | Hne].
      * apply col_set_col_eq.
      * rewrite col_set_col_ne by (intros Heq; apply sma_name_inj in Heq; congruence).
        apply Hsma. apply elem_of_app in Hq as [Hq | Hq]; [exact Hq|].
        apply list_elem_of_singleton in Hq. congruence.
    + intros name Hname. rewrite col_set_col_ne.
      * apply Hother. intros q Hq. apply Hname, elem_of_app. left. exact Hq.
      * intros Heq. apply (Hname p); [apply elem_of_app; right; left | congruence].
Qed.

Lemma fold_add_ema (periods : list nat) (df : DataFrame) (close : list val) :
  Forall (fun p => 1 <= p)%nat periods ->
  col "Close" df = Some close ->
  exists df',
    fold_left add_ema periods (Some df) = Some df' /\
    index df' = index df /\
    (forall p, p ∈ periods ->
       exists e, ewm_mean p close = Some e /\ col ("EMA_" +:+ pretty p) df' = Some e) /\
    (forall name, (forall p, p ∈ periods -> name <> "EMA_" +:+ pretty p) ->
       col name df' = col name df).
Proof.
  intros Hv Hc. induction periods as [|p periods IH] using rev_ind.
  - exists df. split; [reflexivity|]. split; [reflexivity|]. split.
    + intros p Hp. inversion Hp.
    + reflexivity.
  - apply Forall_app in Hv as [Hv Hp]. rewrite Forall_singleton in Hp.
    destruct (IH Hv) as (df1 & Hfold & Hidx & Hema & Hother).
    rewrite fold_left_app, Hfold. cbn [fold_left].
    assert (Hc1 : col "Close" df1 = Some close).
    { rewrite Hother; [exact Hc|]. intros q _. simpl. discriminate. }
    unfold add_ema at 1. obind. rewrite Hc1. obind.
    destruct (ewm_mean_is_Some p close Hp) as [e Ee]. rewrite Ee. obind.
    eexists. split; [reflexivity|]. split; [exact Hidx|]. split.
    + intros q Hq. destruct (decide (q = p)) as [-> | Hne].
      * exists e. split; [exact Ee | apply col_set_col_eq].
      * apply elem_of_app in Hq as [Hq | Hq];
          [|apply list_elem_of_singleton in Hq; congruence].
        destruct (Hema q Hq) as (e' & Ee' & Hcol). exists e'. split; [exact Ee'|].
        rewrite col_set_col_ne by (intros Heq; apply ema_name_inj in Heq; congruence).
        exact Hcol.
    + intros name Hname. rewrite col_set_col_ne.
      * apply Hother. intros q Hq. apply Hname, elem_of_app. left. exact Hq.
      * intros Heq. apply (Hname p); [apply elem_of_app; right; left | congruence].
Qed.

(** *** Averages stay between the bounds of what they average *)

Lemma Qlen_cons (x : Q) (l : list Q) : Qlen (x :: l) == 1 + Qlen l.
Proof.
  unfold Qlen. simpl length. rewrite Nat2Z.inj_succ. unfold Z.succ.
  rewrite inject_Z_plus. change (inject_Z 1) with 1. lra.
Qed.

Lemma Qsum_bounds (L U : Q) (l : list Q) :
  Forall (fun x => L <= x <= U) l -> L * Qlen l <= Qsum l /\ Qsum l <= U * Qlen l.
Proof.
  induction 1 as [|x l Hx Hl IH].
  - change (Qlen []) with 0. change (Qsum []) with 0. lra.
  - rewrite Qlen_cons. change (Qsum (x :: l)) with (x + Qsum l). nra.
Qed.

Lemma Qmean_bounds (L U : Q) (l : list Q) :
  l <> [] -> Forall (fun x => L <= x <= U) l -> L <= Qmean l <= U.
Proof.
  intros Hne Hl. pose proof (Qsum_bounds L U l Hl) as [H1 H2].
  pose proof (Qlen_pos l Hne) as Hpos. unfold Qmean. split.
  - apply Qle_shift_div_l; [exact Hpos | exact H1].
  - apply Qle_shift_div_r; [exact Hpos | exact H2].
Qed.

Lemma within_lookup (L U : Q) (s : list val) i x :
  within L U s -> s !! i = Some (Fin x) -> L <= x <= U.
Proof.
  intros Hs Hi. unfold within in Hs. rewrite Forall_lookup in Hs.
  destruct (Hs _ _ Hi) as (q & [= ->] & Hq). exact Hq.
Qed.

Lemma within_all_numbers (L U : Q) (s : list val) : within L U s -> all_numbers s.
Proof.
  unfold within, all_numbers. rewrite !Forall_lookup. intros Hs i v Hv.
  destruct (Hs i v Hv) as (q & -> & _). reflexivity.
Qed.

Lemma window_within (L U : Q) w i (s : list val) (xs : list Q) :
  within L U s -> window w i s = Some xs -> Forall (fun x => L <= x <= U) xs.
Proof.
  intros Hs Hw. destruct (window_Some _ _ _ _ Hw) as (_ & _ & Hk).
  apply Forall_lookup. intros k x Hx. eapply within_lookup; [exact Hs | apply (Hk _ _ Hx)].
Qed.

(** A cell of a rolling mean over bounded numbers: missing while the window
    is not full, a number within the bounds afterwards. *)
Lemma rolling_mean_cell (L U : Q) (w : nat) (s : list val) i v :
  within L U s ->
  rolling w agg_mean s !! i = Some v ->
  nan_or_within L U v /\ (v = NaN <-> (w = 0 \/ i + 1 < w)%nat).
Proof.
  intros Hs Hv. pose proof (lookup_lt_Some _ _ _ Hv) as Hi. rewrite length_rolling in Hi.
  apply lookup_rolling_inv in Hv.
  destruct (window w i s) as [xs|] eqn:Ew; simpl in Hv; subst v.
  - pose proof (window_length _ _ _ _ Ew Hi) as Hlen.
    destruct (window_Some _ _ _ _ Ew) as (Hw & _ & _).
    assert (Hne : xs <> []) by (intros ->; simpl in Hlen; lia).
    pose proof (Qmean_bounds L U xs Hne (window_within _ _ _ _ _ _ Hs Ew)) as Hb.
    split.
    + right. eexists. split; [reflexivity|]. rewrite Qred_correct. exact Hb.
    + split; [discriminate | lia].
  - split; [left; reflexivity|]. split; [|reflexivity]. intros _.
    destruct (Nat.eq_dec w 0%nat) as [-> | Hw0]; [left; reflexivity|].
    destruct (Nat.lt_ge_cases (i + 1) w) as [Hlt | Hge]; [right; exact Hlt|].
    destruct (window_numbers w i s (within_all_numbers _ _ _ Hs)) as [xs Hxs]; [lia|].
    congruence.
Qed.

Lemma ewm_step_within (L U a : Q) (w c : Q) :
  0 < a -> a <= 1 -> L <= w <= U -> L <= c <= U ->
  exists w', ewm_step a (Fin w, Fin 1) (Fin c) = (Fin w', Fin 1) /\ L <= w' <= U.
Proof.
  intros Ha0 Ha1 Hw Hc. unfold ewm_step. simpl is_nan. cbv iota.
  destruct (vne (Fin w) (Fin c)) eqn:Ene; [|exists w; split; [reflexivity | exact Hw]].
  simpl. unfold num.
  destruct (Qeq_bool (Qred (Qred (1 * (1 - a)) + a)) 0) eqn:E0; qbool.
  { rewrite !Qred_correct in E0. lra. }
  eexists. split; [reflexivity|]. rewrite !Qred_correct. rewrite !Qred_correct in E0.
  assert (Heq : (1 * (1 - a) * w + a * c) / (1 * (1 - a) + a)
                == (1 - a) * w + a * c).
  { field. lra. }
  rewrite Heq. nra.
Qed.

Lemma ewm_loop_within (L U a : Q) (w : Q) (s : list val) :
  0 < a -> a <= 1 -> L <= w <= U -> within L U s ->
  within L U (ewm_loop a (Fin w, Fin 1) s).
Proof.
  intros Ha0 Ha1 Hw Hs. revert w Hw.
  induction Hs as [|v s (c & -> & Hc) Hs IH]; intros w Hw; [constructor|].
  cbn [ewm_loop]. cbv zeta.
  destruct (ewm_step_within L U a w c Ha0 Ha1 Hw Hc) as (w' & -> & Hw').
  cbn [fst]. constructor; [exists w'; split; [reflexivity | exact Hw'] | apply IH, Hw'].
Qed.

(** An exponential average of bounded numbers is a bounded number on every
    bar, from the first one. *)
Lemma ewm_mean_within (L U : Q) (span : nat) (s e : list val) :
  within L U s -> ewm_mean span s = Some e -> within L U e.
Proof.
  intros Hs. unfold ewm_mean. destruct (span <? 1)%nat eqn:Esp; [discriminate|].
  apply Nat.ltb_ge in Esp.
  destruct Hs as [|v s (c & -> & Hc) Hs]; intros [= <-]; [constructor|].
  constructor; [exists c; split; [reflexivity | exact Hc]|].
  assert (Hspan : 1 <= inject_Z (Z.of_nat span)).
  { change 1 with (inject_Z 1). rewrite <- Zle_Qle. lia. }
  apply ewm_loop_within; try assumption.
  - apply Qlt_shift_div_l; lra.
  - apply Qle_shift_div_r; lra.
Qed.

(** The cells of the moving averages, in the exact arithmetic of the model:
    when every close is a number between L and U, each SMA cell is missing
    exactly while its window is not full and lies between L and U otherwise,
    and each EMA cell is a number between L and U from the first bar on. *)
Lemma moving_averages_cells (config : IndicatorConfig) (df : DataFrame)
    (close : list val) (L U : Q) :
  Forall (fun p => 1 <= p)%nat (ema_periods config) ->
  col "Close" df = Some close ->
  within L U close ->
  exists df',
    _calculate_moving_averages config df = Some df' /\
    (forall p, p ∈ sma_periods config ->
       exists s, col ("SMA_" +:+ pretty p) df' = Some s /\
                 length s = length close /\
                 forall i v, s !! i = Some v ->
                   nan_or_within L U v /\ (v = NaN <-> (p = 0 \/ i + 1 < p)%nat)) /\
    (forall p, p ∈ ema_periods config ->
       exists e, col ("EMA_" +:+ pretty p) df' = Some e /\
                 length e = length close /\ within L U e).
Proof.
  intros Hv Hc Hb. unfold _calculate_moving_averages.
  destruct (fold_add_sma (sma_periods config) df close Hc)
    as (df1 & -> & Hidx1 & Hsma & Hother1).
  obind.
  assert (Hc1 : col "Close" df1 = Some close).
  { rewrite Hother1; [exact Hc|]. intros q _. simpl. discriminate. }
  destruct (fold_add_ema (ema_periods config) df1 close Hv Hc1)
    as (df2 & -> & Hidx2 & Hema & Hother2).
  obind.
  assert (Hsma2 : forall p, p ∈ sma_periods config ->
            col ("SMA_" +:+ pretty p) df2 = Some (rolling p agg_mean close)).
  { intros p Hp. rewrite Hother2; [apply Hsma, Hp|]. intros q _. simpl. discriminate. }
  assert (Hsma_ok : forall p s, s = rolling p agg_mean close ->
            length s = length close /\
            forall i v, s !! i = Some v ->
              nan_or_within L U v /\ (v = NaN <-> (p = 0 \/ i + 1 < p)%nat)).
  { intros p s ->. split; [apply length_rolling|].
    intros i v Hiv. eapply rolling_mean_cell; eassumption. }
  assert (Hema_ok : forall p, p ∈ ema_periods config ->
            exists e, col ("EMA_" +:+ pretty p) df2 = Some e /\
                      length e = length close /\ within L U e).
  { intros p Hp. destruct (Hema p Hp) as (e & Ee & Hcol). exists e.
    split; [exact Hcol|]. split; [eapply length_ewm_mean, Ee|].
    eapply ewm_mean_within; eassumption. }
  destruct (has_col "SMA_50" df2 && has_col "SMA_200" df2) eqn:Ehas.
  - apply andb_true_iff in Ehas as [H50 H200].
    apply has_col_true in H50 as [s50 E50]. apply has_col_true in H200 as [s200 E200].
    rewrite E50. obind. rewrite E200. obind. repeat (col_step; obind).
    rewrite E50. obind. rewrite E200. obind.
    eexists. split; [reflexivity|]. split.
    + intros p Hp. exists (rolling p agg_mean close).
      split; [|apply Hsma_ok; reflexivity].
      rewrite !col_set_col_ne by (simpl; discriminate). apply Hsma2, Hp.
    + intros p Hp. destruct (Hema_ok p Hp) as (e & Hcol & He). exists e.
      split; [|exact He]. rewrite !col_set_col_ne by (simpl; discriminate). exact Hcol.
  - eexists. split; [reflexivity|]. split.
    + intros p Hp. exists (rolling p agg_mean close).
      split; [apply Hsma2, Hp | apply Hsma_ok; reflexivity].
    + exact Hema_ok.
Qed.


(** X3.  With 50 and 200 among the SMA periods, the Golden_Cross and
    Death_Cross columns are computed.  They hold 0 or 1, are never both
    raised on a bar, neither is raised on two bars in a row, and neither is
    raised before the 201st bar: a flag needs SMA_200 on the bar before. *)
Theorem golden_death_cross (config : IndicatorConfig) (df : DataFrame)
    (close : list val) :
  Forall (fun p => 1 <= p)%nat (ema_periods config) ->
  col "Close" df = Some close ->
  (50 ∈ sma_periods config)%nat -> (200 ∈ sma_periods config)%nat ->
  exists df' golden death,
    _calculate_moving_averages config df = Some df' /\
    col "Golden_Cross" df' = Some golden /\
    col "Death_Cross" df' = Some death /\
    length golden = length close /\ length death = length close /\
    (forall i v, golden !! i = Some v \/ death !! i = Some v -> v = Fin 0 \/ v = Fin 1) /\
    (forall i, ~ (golden !! i = Some (Fin 1) /\ death !! i = Some (Fin 1))) /\
    (forall i, golden !! i = Some (Fin 1) \/ death !! i = Some (Fin 1) -> (200 <= i)%nat) /\
    (forall i, ~ (golden !! i = Some (Fin 1) /\ golden !! S i = Some (Fin 1))) /\
    (forall i, ~ (death !! i = Some (Fin 1) /\ death !! S i = Some (Fin 1))).
Proof.
  intros Hv Hc H50 H200. unfold _calculate_moving_averages.
  destruct (fold_add_sma (sma_periods config) df close Hc)
    as (df1 & -> & Hidx1 & Hsma & Hother1).
  obind.
  assert (Hc1 : col "Close" df1 = Some close).
  { rewrite Hother1; [exact Hc|]. intros q _. simpl. discriminate. }
  destruct (fold_add_ema (ema_periods config) df1 close Hv Hc1)
    as (df2 & -> & Hidx2 & Hema & Hother2).
  obind.
  assert (Hsma2 : forall p, p ∈ sma_periods config ->
            col ("SMA_" +:+ pretty p) df2 = Some (rolling p agg_mean close)).
  { intros p Hp. rewrite Hother2; [apply Hsma, Hp|]. intros q _. simpl. discriminate. }
  pose proof (Hsma2 50%nat H50) as E50. pose proof (Hsma2 200%nat H200) as E200.
  change ("SMA_" +:+ pretty 50%nat) with "SMA_50" in E50.
  change ("SMA_" +:+ pretty 200%nat) with "SMA_200" in E200.
  unfold has_col. fold (col "SMA_50" df2). fold (col "SMA_200" df2).
  rewrite E50, E200.
  rewrite !bool_decide_eq_true_2 by (eexists; reflexivity).
  simpl andb. cbv iota. obind. repeat (col_step; obind). rewrite E50. obind. rewrite E200. obind.
  set (s50 := rolling 50 agg_mean close). set (s200 := rolling 200 agg_mean close).
  assert (L50 : length s50 = length close) by apply length_rolling.
  assert (L200 : length s200 = length close) by apply length_rolling.
  eexists _, (cross_above s50 s200), (cross_below s50 s200).
  split; [reflexivity|].
  split; [repeat col_step; reflexivity|].
  split; [repeat col_step; reflexivity|].
  split; [rewrite length_cross_above; lia|].
  split; [rewrite length_cross_below; lia|].
  split.
  { intros i v [Hiv | Hiv]; eapply cross_cells_01; exact Hiv. }
  split.
  { intros i [Hg Hd]. exact (cross_exclusive _ _ _ Hg Hd). }
  split.
  { assert (Hprev : forall j y, s200 !! j = Some y -> is_nan y = false -> (199 <= j)%nat).
    { intros j y Hy Hnan. apply lookup_rolling_inv in Hy.
      destruct (window 200 j close) as [xs|] eqn:Ew; [|subst y; discriminate].
      destruct (window_Some _ _ _ _ Ew) as (Hw & _). lia. }
    intros i [Hg | Hd].
    - destruct (cross_needs_previous vgt vle s50 s200 i vle_NaN_l vle_NaN_r Hg)
        as (j & x & y & -> & _ & Hy & _ & Hnan).
      specialize (Hprev j y Hy Hnan). lia.
    - destruct (cross_needs_previous vlt vge s50 s200 i vge_NaN_l vge_NaN_r Hd)
        as (j & x & y & -> & _ & Hy & _ & Hnan).
      specialize (Hprev j y Hy Hnan). lia. }
  split.
  - intros i [H1 H2]. exact (cross_above_not_consecutive _ _ _ H1 H2).
  - intros i [H1 H2]. exact (cross_below_not_consecutive _ _ _ H1 H2).
Qed.

Lemma golden_death_cross_witness :
  exists df' golden death,
    _calculate_moving_averages default_config example_bars = Some df' /\
    col "Golden_Cross" df' = Some golden /\
    col "Death_Cross" df' = Some death /\
    length golden = 3%nat /\ length death = 3%nat /\
    (forall i v, golden !! i = Some v \/ death !! i = Some v -> v = Fin 0 \/ v = Fin 1) /\
    (forall i, ~ (golden !! i = Some (Fin 1) /\ death !! i = Some (Fin 1))) /\
    (forall i, golden !! i = Some (Fin 1) \/ death !! i = Some (Fin 1) -> (200 <= i)%nat) /\
    (forall i, ~ (golden !! i = Some (Fin 1) /\ golden !! S i = Some (Fin 1))) /\
    (forall i, ~ (death !! i = Some (Fin 1) /\ death !! S i = Some (Fin 1))).
Proof.
  apply (golden_death_cross default_config example_bars (map Fin [11; 12; 13])).
  - simpl. repeat constructor; lia.
  - reflexivity.
  - simpl. set_solver.
  - simpl. set_solver.
Defined.

(* ================================================================= *)
(** ** Order of cells *)

Lemma veq_Fin (a b : Q) : veq (Fin a) (Fin b) = true <-> a == b.
Proof. simpl. apply Qeq_bool_iff. Qed.

Lemma vlt_trans (a b c : val) : vlt a b = true -> vlt b c = true -> vlt a c = true.
Proof.
  destruct a, b, c; simpl; try reflexivity; try discriminate.
  rewrite !Qlt_bool_iff. lra.
Qed.

Lemma vle_trans (a b c : val) : vle a b = true -> vle b c = true -> vle a c = true.
Proof.
  destruct a, b, c; try reflexivity; try discriminate.
  rewrite !vle_Fin. lra.
Qed.

Lemma vle_vlt_false (a b : val) : vle a b = true -> vlt b a = true -> False.
Proof.
  intros Hab Hba. apply vlt_not_vle in Hba. congruence.
Qed.

Lemma vlt_vle (a b : val) : vlt a b = true -> vle a b = true.
Proof. intros Hab. unfold vle. rewrite Hab. reflexivity. Qed.

Lemma vlt_not_nan (a b : val) : vlt a b = true -> is_nan a = false /\ is_nan b = false.
Proof. destruct a, b; simpl; try discriminate; split; reflexivity. Qed.

(* ================================================================= *)
(** ** Bollinger flags *)

Section BollingerFlags.
Context `{NumLib}.
Hypothesis np_sqrt_nonneg : forall x, 0 <= x -> 0 <= np_sqrt x.

(** X4.  For [bb_std >= 0] the Bollinger flags are computed on every frame
    with a Close column, hold 0 or 1, and are never both raised on a bar: a
    close above the upper band is not below the lower band.  Neither flag is
    raised while the window of [bb_period] bars is not full. *)
Theorem bollinger_flags_exclusive (config : IndicatorConfig) (df : DataFrame)
    (close : list val) :
  vle (Fin 0) (bb_std config) = true ->
  col "Close" df = Some close ->
  exists df' over under,
    _calculate_bollinger_bands config df = Some df' /\
    col "BB_Overbought" df' = Some over /\
    col "BB_Oversold" df' = Some under /\
    length over = length close /\ length under = length close /\
    (forall i v, over !! i = Some v \/ under !! i = Some v -> v = Fin 0 \/ v = Fin 1) /\
    (forall i, ~ (over !! i = Some (Fin 1) /\ under !! i = Some (Fin 1))) /\
    (forall i, over !! i = Some (Fin 1) \/ under !! i = Some (Fin 1) ->
               (bb_period config <= i + 1)%nat).
Proof.
  intros Hk Hc. unfold _calculate_bollinger_bands. rewrite Hc. obind.
  repeat (col_step; obind). rewrite Hc. obind. repeat (col_step; obind).
  set (sma := rolling (bb_period config) agg_mean close).
  set (std := rolling (bb_period config) agg_std close).
  set (upper := s_add sma (s_scale (bb_std config) std)).
  set (lower := s_sub sma (s_scale (bb_std config) std)).
  assert (Lu : length upper = length close).
  { unfold upper, s_add, s_scale, sma, std.
    rewrite length_zip_with, length_map, !length_rolling. lia. }
  assert (Ll : length lower = length close).
  { unfold lower, s_sub, s_scale, sma, std.
    rewrite length_zip_with, length_map, !length_rolling. lia. }
  assert (Hcell : forall i u l, upper !! i = Some u -> lower !! i = Some l ->
            exists m sd, sma !! i = Some m /\ std !! i = Some sd /\
                         u = vadd m (vmul sd (bb_std config)) /\
                         l = vsub m (vmul sd (bb_std config)) /\
                         (m = NaN \/ exists a, m = Fin a) /\
                         (sd = NaN \/ exists s, sd = Fin s /\ 0 <= s) /\
                         (is_nan m = false -> (bb_period config <= i + 1)%nat)).
  { intros i u l. unfold upper, lower, s_add, s_sub, s_scale.
    rewrite !lookup_zip_with, !list_lookup_fmap.
    destruct (sma !! i) as [m|] eqn:Em; [|discriminate].
    destruct (std !! i) as [sd|] eqn:Es; [|discriminate].
    obind. intros [= <-] [= <-]. exists m, sd.
    do 4 (split; [reflexivity|]).
    apply lookup_rolling_inv in Em, Es.
    destruct (window (bb_period config) i close) as [xs|] eqn:Ew; simpl in Em, Es; subst m sd.
    - split; [right; eexists; reflexivity|]. split; [apply agg_std_cases, np_sqrt_nonneg|].
      intros _. destruct (window_Some _ _ _ _ Ew) as (Hw & _). lia.
    - split; [left; reflexivity|]. split; [left; reflexivity|]. discriminate. }
  eexists _, (astype_int (s_flag vgt close upper)), (astype_int (s_flag vlt close lower)).
  split; [reflexivity|].
  split; [repeat col_step; reflexivity|].
  split; [repeat col_step; reflexivity|].
  split; [unfold astype_int, s_flag; rewrite length_map, length_zip_with; lia|].
  split; [unfold astype_int, s_flag; rewrite length_map, length_zip_with; lia|].
  assert (Hflag : forall (p : val -> val -> bool) (b : list val) i v,
            astype_int (s_flag p close b) !! i = Some v ->
            exists c y, close !! i = Some c /\ b !! i = Some y /\ v = of_bool (p c y)).
  { intros p b i v. unfold astype_int, s_flag. rewrite list_lookup_fmap, lookup_zip_with.
    destruct (close !! i) as [c|]; [|discriminate].
    destruct (b !! i) as [y|]; [|discriminate].
    simpl. intros [= <-]. eauto. }
  split.
  { intros i v [Hv | Hv]; apply Hflag in Hv as (c & y & _ & _ & ->);
      match goal with |- context [of_bool ?b] => destruct b end; auto. }
  split.
  { intros i [Ho Hu].
    apply Hflag in Ho as (c & u & Hci & Hui & Ho).
    apply Hflag in Hu as (c' & l & Hci' & Hli & Hu).
    rewrite Hci in Hci'. simplify_eq.
    symmetry in Ho, Hu. apply of_bool_one in Ho, Hu. unfold vgt in Ho.
    destruct (Hcell _ _ _ Hui Hli) as (m & sd & _ & _ & -> & -> & Hm & Hsd & _).
    destruct (vlt_not_nan _ _ Ho) as [Hnu _]. destruct (vlt_not_nan _ _ Hu) as [_ Hnl].
    destruct (band_cell m sd (bb_std config) Hm Hsd Hk Hnu Hnl) as [H1 H2].
    unfold vge in H1, H2.
    apply (vle_vlt_false _ _ (vle_trans _ _ _ H2 H1)).
    eapply vlt_trans; eassumption. }
  intros i [Ho | Hu].
  - apply Hflag in Ho as (c & u & Hci & Hui & Ho).
    symmetry in Ho. apply of_bool_one in Ho. unfold vgt in Ho.
    destruct (lookup_lt_is_Some_2 lower i) as [l Hli].
    { apply lookup_lt_Some in Hci. lia. }
    destruct (Hcell _ _ _ Hui Hli) as (m & sd & _ & _ & -> & _ & _ & _ & Hfull).
    apply Hfull. destruct (vlt_not_nan _ _ Ho) as [Hnu _]. destruct m; try reflexivity.
    discriminate.
  - apply Hflag in Hu as (c & l & Hci & Hli & Hu).
    symmetry in Hu. apply of_bool_one in Hu.
    destruct (lookup_lt_is_Some_2 upper i) as [u Hui].
    { apply lookup_lt_Some in Hci. lia. }
    destruct (Hcell _ _ _ Hui Hli) as (m & sd & _ & _ & _ & -> & _ & _ & Hfull).
    apply Hfull. destruct (vlt_not_nan _ _ Hu) as [_ Hnl]. destruct m; try reflexivity.
    discriminate.
Qed.
End BollingerFlags.

Lemma bollinger_flags_exclusive_witness :
  exists df' over under,
    @_calculate_bollinger_bands computing_lib short_config (frame_at 0 [5; 6; 7]) = Some df' /\
    col "BB_Overbought" df' = Some over /\
    col "BB_Oversold" df' = Some under /\
    length over = 3%nat /\ length under = 3%nat /\
    (forall i v, over !! i = Some v \/ under !! i = Some v -> v = Fin 0 \/ v = Fin 1) /\
    (forall i, ~ (over !! i = Some (Fin 1) /\ under !! i = Some (Fin 1))) /\
    (forall i, over !! i = Some (Fin 1) \/ under !! i = Some (Fin 1) -> (3 <= i + 1)%nat).
Proof.
  apply (@bollinger_flags_exclusive computing_lib sqrt_fixed_nonneg short_config
           (frame_at 0 [5; 6; 7]) (map Fin [5; 6; 7])).
  - reflexivity.
  - reflexivity.
Defined.

(* ================================================================= *)
(** ** Williams %R *)

Lemma agg_max_cases (xs : list Q) : agg_max xs = NaN \/ exists q, agg_max xs = Fin q.
Proof. destruct xs; simpl; [left; reflexivity | right; eexists; reflexivity]. Qed.

Lemma agg_min_cases (xs : list Q) : agg_min xs = NaN \/ exists q, agg_min xs = Fin q.
Proof. destruct xs; simpl; [left; reflexivity | right; eexists; reflexivity]. Qed.

Lemma rolling_cell_cases w agg (s : list val) i v :
  (forall xs, agg xs = NaN \/ exists q, agg xs = Fin q) ->
  rolling w agg s !! i = Some v -> v = NaN \/ exists q, v = Fin q.
Proof.
  intros Hagg Hv. apply lookup_rolling_inv in Hv. subst v.
  destruct (window w i s); simpl; [apply Hagg | left; reflexivity].
Qed.

Lemma williams_cell (c lo hi : Q) (k : val) :
  lo <= c -> c <= hi ->
  k = vmul (Fin (-100)) (vdiv (vsub (Fin hi) (Fin c)) (vsub (Fin hi) (Fin lo))) ->
  is_nan k = false ->
  exists v, k = Fin v /\ -100 <= v /\ v <= 0.
Proof.
  intros Hlo Hhi ->. unfold vsub. simpl. unfold num.
  destruct (Qeq_bool (Qred (hi + Qred (- lo))) 0) eqn:Eden; qbool.
  - rewrite !Qred_correct in Eden.
    destruct (Qeq_bool (Qred (hi + Qred (- c))) 0) eqn:Enum; qbool; [discriminate|].
    rewrite !Qred_correct in Enum. exfalso. apply Enum. lra.
  - rewrite !Qred_correct in Eden. intros _. eexists. split; [reflexivity|].
    rewrite !Qred_correct.
    assert (Hden : 0 < hi + - lo) by lra.
    assert (Hq : 0 <= (hi + - c) / (hi + - lo) /\ (hi + - c) / (hi + - lo) <= 1).
    { split; [apply Qle_shift_div_l; lra | apply Qle_shift_div_r; lra]. }
    lra.
Qed.

(** X5.  When every bar has Low <= Close <= High, Williams_R is computed,
    has one cell per bar, and each defined cell is a number between -100
    and 0. *)
Theorem williams_r_bounded (df : DataFrame) (low close high : list val) :
  col "Low" df = Some low ->
  col "Close" df = Some close ->
  col "High" df = Some high ->
  bars_ordered low close high ->
  exists df' w,
    _calculate_williams_r df = Some df' /\
    col "Williams_R" df' = Some w /\
    length w = length close /\
    forall i x, w !! i = Some x -> is_nan x = false ->
      exists v, x = Fin v /\ -100 <= v /\ v <= 0.
Proof.
  intros Hl Hc Hh Hbars. unfold _calculate_williams_r. rewrite Hl, Hh, Hc. obind.
  pose proof (Forall3_length_lm _ _ _ _ Hbars) as Hlen1.
  pose proof (Forall3_length_lr _ _ _ _ Hbars) as Hlen2.
  eexists _, _. split; [reflexivity|]. split; [apply col_set_col_eq|].
  split.
  { unfold s_div, s_sub. rewrite length_map, !length_zip_with, !length_rolling. lia. }
  intros i x.
  rewrite list_lookup_fmap. unfold s_div, s_sub. rewrite !lookup_zip_with.
  destruct (rolling 14 agg_max high !! i) as [hm|] eqn:Ehm; obind; [|discriminate].
  destruct (close !! i) as [c|] eqn:Eci; obind; [|discriminate].
  destruct (rolling 14 agg_min low !! i) as [lm|] eqn:Elm; obind; [|discriminate].
  intros <-%(inj Some) Hnan.
  apply lookup_rolling_inv in Elm, Ehm.
  destruct (window 14 i high) as [hs|] eqn:Wh; simpl in Ehm;
    [|subst hm; discriminate].
  destruct (window 14 i low) as [ls|] eqn:Wl; simpl in Elm;
    [|subst lm; destruct hm, c; discriminate].
  assert (Hi : (i < length close)%nat) by (eapply lookup_lt_Some, Eci).
  destruct (window_last _ _ _ _ Wl) as (ql & Hql & Hli); [lia|].
  destruct (window_last _ _ _ _ Wh) as (qh & Hqh & Hhi); [lia|].
  pose proof (Forall3_lookup_lmr _ _ _ _ _ _ _ _ Hbars Hli Eci Hhi)
    as (ql' & qc & qh' & [= <-] & -> & [= <-] & Hlc & Hch).
  destruct (agg_min_le ls ql Hql) as (mn & Emn & Hmn).
  destruct (agg_max_ge hs qh Hqh) as (mx & Emx & Hmx).
  rewrite Emn in Elm. rewrite Emx in Ehm. subst lm hm.
  apply (williams_cell qc mn mx); [lra | lra | reflexivity | exact Hnan].
Qed.

Lemma long_bars_ordered :
  bars_ordered (map Fin long_low) (map Fin long_close) (map Fin long_high).
Proof.
  repeat constructor; (eexists _, _, _; repeat split; try reflexivity; vm_compute; discriminate).
Qed.

Lemma williams_r_bounded_witness :
  (exists df' w,
     _calculate_williams_r long_bars = Some df' /\
     col "Williams_R" df' = Some w /\
     length w = 15%nat /\
     forall i x, w !! i = Some x -> is_nan x = false ->
       exists v, x = Fin v /\ -100 <= v /\ v <= 0) /\
  cell "Williams_R" 13 williams_example = Fin (-25 # 4) /\
  cell "Williams_R" 14 williams_example = Fin (-25 # 4).
Proof.
  split; [|split; reflexivity].
  apply (williams_r_bounded long_bars
           (map Fin long_low) (map Fin long_close) (map Fin long_high)).
  - reflexivity.
  - reflexivity.
  - reflexivity.
  - exact long_bars_ordered.
Defined.

(** *** Williams %R against the stochastic oscillator *)

Lemma vmul_Fin_inv (a : Q) (x : val) (r : Q) :
  vmul (Fin a) x = Fin r -> exists y, x = Fin y /\ r = Qred (a * y).
Proof.
  destruct x as [| |y|]; simpl; try discriminate.
  - unfold inf_times. destruct (Qeq_bool a 0); [discriminate|].
    destruct (Bool.eqb false (Qlt_bool 0 a)); discriminate.
  - intros [= <-]. eauto.
  - unfold inf_times. destruct (Qeq_bool a 0); [discriminate|].
    destruct (Bool.eqb true (Qlt_bool 0 a)); discriminate.
Qed.

Lemma stoch_williams_cell (c lm hm : val) :
  (lm = NaN \/ exists q, lm = Fin q) ->
  (hm = NaN \/ exists q, hm = Fin q) ->
  (forall x, vmul (Fin 100) (vdiv (vsub c lm) (vsub hm lm)) = Fin x ->
     exists y, vmul (Fin (-100)) (vdiv (vsub hm c) (vsub hm lm)) = Fin y /\ y == x - 100) /\
  (forall y, vmul (Fin (-100)) (vdiv (vsub hm c) (vsub hm lm)) = Fin y ->
     exists x, vmul (Fin 100) (vdiv (vsub c lm) (vsub hm lm)) = Fin x /\ y == x - 100).
Proof.
  intros [-> | [l ->]] [-> | [h ->]].
  - split; intros r Hr; apply vmul_Fin_inv in Hr as (y & Hy & _); destruct c; discriminate.
  - split; intros r Hr; apply vmul_Fin_inv in Hr as (y & Hy & _); destruct c; discriminate.
  - split; intros r Hr; apply vmul_Fin_inv in Hr as (y & Hy & _); destruct c; discriminate.
  - destruct c as [| |c|].
    + split; intros r Hr; apply vmul_Fin_inv in Hr as (y & Hy & _); discriminate.
    + split; intros r Hr; apply vmul_Fin_inv in Hr as (y & Hy & _); simpl in Hy;
        repeat match type of Hy with context [if ?b then _ else _] => destruct b end;
        discriminate.
    + unfold vsub. simpl. unfold num.
      destruct (Qeq_bool (Qred (h + Qred (- l))) 0) eqn:Eden.
      * split; intros r Hr;
          repeat match type of Hr with context [if ?b then _ else _] => destruct b end;
          simpl in Hr; unfold inf_times in Hr; simpl in Hr; discriminate.
      * qbool. rewrite !Qred_correct in Eden.
        split; intros r [= <-]; eexists; (split; [reflexivity|]);
          rewrite !Qred_correct; field; lra.
    + split; intros r Hr; apply vmul_Fin_inv in Hr as (y & Hy & _); simpl in Hy;
        repeat match type of Hy with context [if ?b then _ else _] => destruct b end;
        discriminate.
Qed.

(** The two columns side by side, in the exact arithmetic of the model: a
    cell of one is a number exactly when the cell of the other is, and the
    two numbers are then 100 apart. *)
Lemma stochastic_williams_cells (config : IndicatorConfig) (df : DataFrame) :
  stochastic_k config = 14%nat ->
  is_Some (col "Low" df) -> is_Some (col "Close" df) -> is_Some (col "High" df) ->
  exists df1 df2 k w,
    _calculate_stochastic config df = Some df1 /\
    _calculate_williams_r df1 = Some df2 /\
    col "Stoch_K" df2 = Some k /\
    col "Williams_R" df2 = Some w /\
    length k = length w /\
    forall i,
      (forall x, k !! i = Some (Fin x) -> exists y, w !! i = Some (Fin y) /\ y == x - 100) /\
      (forall y, w !! i = Some (Fin y) -> exists x, k !! i = Some (Fin x) /\ y == x - 100).
Proof.
  intros Hk [low Hl] [close Hc] [high Hh].
  unfold _calculate_stochastic. rewrite Hl, Hh, Hc, Hk. obind. repeat (col_step; obind).
  eexists _, _, _, _. split; [reflexivity|].
  unfold _calculate_williams_r.
  rewrite !(col_set_col_ne "High") by discriminate. rewrite Hh. obind.
  rewrite !(col_set_col_ne "Low") by discriminate. rewrite Hl. obind.
  rewrite !(col_set_col_ne "Close") by discriminate. rewrite Hc. obind.
  split; [reflexivity|].
  split; [repeat col_step; reflexivity|].
  split; [repeat col_step; reflexivity|].
  split.
  { unfold s_div, s_sub. rewrite !length_map, !length_zip_with, !length_rolling. lia. }
  intros i. rewrite !list_lookup_fmap. unfold s_div, s_sub. rewrite !lookup_zip_with.
  destruct (close !! i) as [c|] eqn:Eci; obind;
    [|split; intros r Hr; destruct (rolling 14 agg_max high !! i); discriminate].
  destruct (rolling 14 agg_min low !! i) as [lm|] eqn:Elm; obind;
    [|split; intros r Hr; destruct (rolling 14 agg_max high !! i); discriminate].
  destruct (rolling 14 agg_max high !! i) as [hm|] eqn:Ehm; obind;
    [|split; intros r Hr; discriminate].
  apply rolling_cell_cases in Elm; [|exact agg_min_cases].
  apply rolling_cell_cases in Ehm; [|exact agg_max_cases].
  destruct (stoch_williams_cell c lm hm Elm Ehm) as [H1 H2]. split.
  - intros x [= Hx]. destruct (H1 x Hx) as (y & -> & Hy). eauto.
  - intros y [= Hy]. destruct (H2 y Hy) as (x & -> & Hx). eauto.
Qed.

(** X6.  With the default window of 14 bars for %K, Williams %R is defined
    on exactly the bars where the stochastic %K is: on every bar one of the
    two cells is a number exactly when the other is. *)
Theorem williams_r_defined_with_stochastic (config : IndicatorConfig) (df : DataFrame) :
  stochastic_k config = 14%nat ->
  is_Some (col "Low" df) -> is_Some (col "Close" df) -> is_Some (col "High" df) ->
  exists df1 df2 k w,
    _calculate_stochastic config df = Some df1 /\
    _calculate_williams_r df1 = Some df2 /\
    col "Stoch_K" df2 = Some k /\
    col "Williams_R" df2 = Some w /\
    length k = length w /\
    forall i, (exists x, k !! i = Some (Fin x)) <-> (exists y, w !! i = Some (Fin y)).
Proof.
  intros Hk Hl Hc Hh.
  destruct (stochastic_williams_cells config df Hk Hl Hc Hh)
    as (df1 & df2 & k & w & H1 & H2 & Hkc & Hwc & Hlen & Hcells).
  exists df1, df2, k, w. repeat (split; [assumption|]).
  intros i. destruct (Hcells i) as [Hkw Hwk]. split.
  - intros [x Hx]. destruct (Hkw x Hx) as (y & Hy & _). eauto.
  - intros [y Hy]. destruct (Hwk y Hy) as (x & Hx & _). eauto.
Qed.

Lemma williams_r_defined_with_stochastic_witness :
  (exists df1 df2 k w,
     _calculate_stochastic default_config long_bars = Some df1 /\
     _calculate_williams_r df1 = Some df2 /\
     col "Stoch_K" df2 = Some k /\
     col "Williams_R" df2 = Some w /\
     length k = length w /\
     forall i, (exists x, k !! i = Some (Fin x)) <-> (exists y, w !! i = Some (Fin y))) /\
  cell "Stoch_K" 14 stochastic_williams_example = Fin (375 # 4) /\
  cell "Williams_R" 14 stochastic_williams_example = Fin (-25 # 4) /\
  cell "Stoch_K" 12 stochastic_williams_example = NaN /\
  cell "Williams_R" 12 stochastic_williams_example = NaN.
Proof.
  split; [|repeat split; reflexivity].
  apply (williams_r_defined_with_stochastic default_config long_bars).
  - reflexivity.
  - eexists. reflexivity.
  - eexists. reflexivity.
  - eexists. reflexivity.
Defined.

(* ================================================================= *)
(** ** Running sums *)

Lemma cum_from_step (op : val -> val -> val) (acc : option val) (s : list val) i o d :
  Forall (fun v => is_nan v = false) s ->
  cum_from op acc s !! i = Some o ->
  s !! S i = Some d ->
  cum_from op acc s !! S i = Some (op o d).
Proof.
  intros Hs. revert acc i. induction Hs as [|v s Hv Hs IH]; intros acc i Ho Hd.
  - discriminate.
  - cbn [cum_from] in *. rewrite Hv in *. cbv zeta in *. destruct i as [|i].
    + injection Ho as <-. destruct Hs as [|v' s Hv' Hs]; [discriminate|].
      injection Hd as ->. cbn [cum_from]. rewrite Hv'. reflexivity.
    + cbn [lookup list_lookup] in Ho, Hd |- *. apply IH; assumption.
Qed.

Lemma all_numbers_no_nan (s : list val) : all_numbers s -> Forall (fun v => is_nan v = false) s.
Proof.
  unfold all_numbers. rewrite !Forall_lookup. intros Hs i v Hv.
  specialize (Hs i v Hv). destruct v; try discriminate. reflexivity.
Qed.

(* ================================================================= *)
(** ** On-balance volume, bar by bar *)

Lemma obv_cell (a b v o : Q) :
  exists o',
    Some (vadd (Fin o) (let d := vmul (vsign (vsub (Fin b) (Fin a))) (Fin v) in
                        if is_nan d then Fin 0 else d)) = Some (Fin o') /\
    (a < b -> o' == o + v) /\ (b < a -> o' == o - v) /\ (a == b -> o' == o).
Proof.
  cbv beta iota zeta delta [vsub vneg vadd vsign vmul is_nan num].
  destruct (Qlt_bool 0 (Qred (b + Qred (- a)))) eqn:Eup;
    [|destruct (Qlt_bool (Qred (b + Qred (- a))) 0) eqn:Edn];
    qbool; rewrite ?Qred_correct in *;
    (eexists; split; [reflexivity|]); rewrite !Qred_correct; repeat split; intros; lra.
Qed.

(** X7.  On a series whose Close and Volume cells are all numbers, OBV moves
    from one bar to the next by the volume of the new bar: up when the close
    rose, down when it fell, not at all when it is unchanged. *)
Theorem obv_increments (df : DataFrame) (close volume : list val) :
  col "Close" df = Some close ->
  col "Volume" df = Some volume ->
  all_numbers close ->
  all_numbers volume ->
  exists df' obv,
    _calculate_volume_indicators df = Some df' /\
    col "OBV" df' = Some obv /\
    forall i a b v o,
      close !! i = Some (Fin a) -> close !! S i = Some (Fin b) ->
      volume !! S i = Some (Fin v) -> obv !! i = Some (Fin o) ->
      exists o', obv !! S i = Some (Fin o') /\
                 (a < b -> o' == o + v) /\
                 (b < a -> o' == o - v) /\
                 (a == b -> o' == o).
Proof.
  intros Hc Hv Hcl Hvol.
  unfold _calculate_volume_indicators. rewrite Hc, Hv. obind.
  repeat (col_step; obind). rewrite Hv. obind. repeat (col_step; obind).
  rewrite Hv. obind. repeat (col_step; obind). rewrite Hv. obind.
  eexists _, _. split; [reflexivity|]. split; [repeat col_step; reflexivity|].
  set (x := fillna (Fin 0) (s_mul (map vsign (diff close)) volume)).
  assert (Hx : all_numbers x) by apply signed_volume_numbers, Hvol.
  intros i a b v o Ha Hb Hvi Ho.
  assert (Hxi : x !! S i = Some (let d := vmul (vsign (vsub (Fin b) (Fin a))) (Fin v) in
                                 if is_nan d then Fin 0 else d)).
  { unfold x, fillna, s_mul. rewrite list_lookup_fmap, lookup_zip_with, list_lookup_fmap.
    rewrite (lookup_diff_S close i (Fin a) (Fin b) Ha Hb). obind. rewrite Hvi. reflexivity. }
  unfold cumsum in Ho |- *.
  rewrite (cum_from_step vadd None x i (Fin o) _ (all_numbers_no_nan _ Hx) Ho Hxi).
  apply obv_cell.
Qed.

Lemma obv_increments_witness :
  exists df' obv,
    _calculate_volume_indicators example_bars = Some df' /\
    col "OBV" df' = Some obv /\
    forall i a b v o,
      map Fin [11; 12; 13] !! i = Some (Fin a) -> map Fin [11; 12; 13] !! S i = Some (Fin b) ->
      map Fin [500; 700; 300] !! S i = Some (Fin v) -> obv !! i = Some (Fin o) ->
      exists o', obv !! S i = Some (Fin o') /\
                 (a < b -> o' == o + v) /\
                 (b < a -> o' == o - v) /\
                 (a == b -> o' == o).
Proof.
  apply (obv_increments example_bars (map Fin [11; 12; 13]) (map Fin [500; 700; 300])).
  - reflexivity.
  - reflexivity.
  - repeat constructor.
  - repeat constructor.
Defined.

(* ================================================================= *)
(** ** Average true range and Keltner channels *)

Lemma vabs_cases (v : val) :
  vabs v = NaN \/ vabs v = PInf \/ exists q, vabs v = Fin q /\ 0 <= q.
Proof.
  destruct v; simpl; auto. right. right. eexists. split; [reflexivity|].
  rewrite Qred_correct. apply Qabs_nonneg.
Qed.

(** The true range of a bar with Low <= High is not negative. *)
Lemma true_range_cell (x : Q) (y z : val) (q : Q) :
  0 <= x ->
  (y = NaN \/ y = PInf \/ exists a, y = Fin a /\ 0 <= a) ->
  (z = NaN \/ z = PInf \/ exists a, z = Fin a /\ 0 <= a) ->
  s_max [Fin x; y; z] = Fin q -> 0 <= q.
Proof.
  intros Hx [-> | [-> | (a & -> & Ha)]] [-> | [-> | (b & -> & Hb)]];
    unfold s_max, dropna; simpl; unfold vmax; simpl;
    repeat (match goal with |- context [Qlt_bool ?u ?v] => destruct (Qlt_bool u v) eqn:? end;
            simpl);
    intros Heq; simplify_eq; qbool; lra.
Qed.

Lemma lookup_row_max3 (a b c : list val) i v :
  row_max3 a b c !! i = Some v ->
  exists x y z, a !! i = Some x /\ b !! i = Some y /\ c !! i = Some z /\ v = s_max [x; y; z].
Proof.
  unfold row_max3. rewrite lookup_zip_with.
  destruct (a !! i) as [x|]; [|discriminate]. obind.
  destruct (zip b c !! i) as [[y z]|] eqn:E; [|discriminate]. obind.
  apply lookup_zip_with_Some in E as (y' & z' & [= <- <-] & Hy & Hz).
  intros [= <-]. eexists _, _, _. repeat split; eassumption.
Qed.

Lemma range_ordered_lookup (low high : list val) i l h :
  range_ordered low high -> low !! i = Some l -> high !! i = Some h ->
  exists ql qh, l = Fin ql /\ h = Fin qh /\ ql <= qh.
Proof.
  intros Hr Hl Hh. unfold range_ordered in Hr.
  exact (Forall2_lookup_lr _ _ _ _ _ _ Hr Hl Hh).
Qed.

Lemma true_range_nonneg (low high close : list val) i q :
  range_ordered low high ->
  row_max3 (s_sub high low) (map vabs (s_sub high (shift 1 close)))
           (map vabs (s_sub low (shift 1 close))) !! i = Some (Fin q) ->
  0 <= q.
Proof.
  intros Hr (x & y & z & Hx & Hy & Hz & Hv)%lookup_row_max3.
  unfold s_sub in Hx. rewrite lookup_zip_with in Hx.
  destruct (high !! i) as [h|] eqn:Eh; [|discriminate].
  destruct (low !! i) as [l|] eqn:El; [|discriminate].
  simpl in Hx. injection Hx as <-.
  destruct (range_ordered_lookup _ _ _ _ _ Hr El Eh) as (ql & qh & -> & -> & Hlh).
  rewrite list_lookup_fmap in Hy, Hz.
  destruct (s_sub high (shift 1 close) !! i) as [y0|]; [|discriminate].
  destruct (s_sub low (shift 1 close) !! i) as [z0|]; [|discriminate].
  simpl in Hy, Hz. injection Hy as <-. injection Hz as <-.
  unfold vsub in Hv. simpl vneg in Hv. simpl vadd in Hv. unfold num in Hv.
  symmetry in Hv. eapply true_range_cell; [| apply vabs_cases | apply vabs_cases | exact Hv].
  rewrite !Qred_correct. lra.
Qed.

(** A rolling mean over cells that are not negative where they are numbers. *)
Lemma rolling_mean_nonneg w (s : list val) i v :
  (forall j q, s !! j = Some (Fin q) -> 0 <= q) ->
  rolling w agg_mean s !! i = Some v ->
  v = NaN \/ exists q, v = Fin q /\ 0 <= q.
Proof.
  intros Hs Hv. pose proof (lookup_lt_Some _ _ _ Hv) as Hi. rewrite length_rolling in Hi.
  apply lookup_rolling_inv in Hv. subst v.
  destruct (window w i s) as [xs|] eqn:Ew; simpl; [|left; reflexivity].
  right. eexists. split; [reflexivity|]. rewrite Qred_correct.
  pose proof (window_length _ _ _ _ Ew Hi) as Hlen.
  destruct (window_Some _ _ _ _ Ew) as (Hw & _ & Hk).
  apply Qmean_nonneg.
  - intros ->. simpl in Hlen. lia.
  - apply Forall_lookup. intros k x Hx. eapply Hs, Hk, Hx.
Qed.

Lemma all_numbers_within (s : list val) : all_numbers s -> exists L U, within L U s.
Proof.
  induction 1 as [|v s Hv Hs (L & U & IH)].
  - exists 0, 0. constructor.
  - destruct v as [| |q|]; try discriminate.
    exists (Qmin L q), (Qmax U q).
    assert (HL : Qmin L q <= L /\ Qmin L q <= q).
    { unfold Qmin. destruct (Qlt_bool q L) eqn:E; qbool; lra. }
    assert (HU : U <= Qmax U q /\ q <= Qmax U q).
    { unfold Qmax. destruct (Qlt_bool U q) eqn:E; qbool; lra. }
    constructor.
    + exists q. split; [reflexivity | lra].
    + unfold within in *. rewrite Forall_lookup in IH |- *. intros i x Hx.
      destruct (IH i x Hx) as (y & -> & Hy). exists y. split; [reflexivity | lra].
Qed.

Lemma ewm_mean_numbers span (s e : list val) :
  all_numbers s -> ewm_mean span s = Some e -> all_numbers e.
Proof.
  intros Hs He. destruct (all_numbers_within s Hs) as (L & U & Hb).
  eapply within_all_numbers, ewm_mean_within; eassumption.
Qed.

(** X8.  When every bar has Low <= High, the average true range is never
    negative: each ATR cell is missing or a number >= 0, whatever the closes
    are.  When the closes are numbers too, the Keltner channels computed from
    it are ordered on every bar where they are defined:
    KC_Upper >= KC_Middle >= KC_Lower. *)
Theorem atr_nonnegative_keltner_ordered (df : DataFrame) (low close high : list val) :
  col "Low" df = Some low ->
  col "Close" df = Some close ->
  col "High" df = Some high ->
  range_ordered low high ->
  exists df1 atr,
    _calculate_atr df = Some df1 /\
    col "ATR" df1 = Some atr /\
    (forall i v, atr !! i = Some v -> v = NaN \/ exists q, v = Fin q /\ 0 <= q) /\
    (all_numbers close ->
     exists df2 upper middle lower,
       _calculate_keltner_channels df1 = Some df2 /\
       col "KC_Upper" df2 = Some upper /\
       col "KC_Middle" df2 = Some middle /\
       col "KC_Lower" df2 = Some lower /\
       forall i u m l,
         upper !! i = Some u -> middle !! i = Some m -> lower !! i = Some l ->
         is_nan u = false -> is_nan l = false ->
         vge u m = true /\ vge m l = true).
Proof.
  intros Hl Hc Hh Hr. unfold _calculate_atr. rewrite Hh, Hl, Hc. obind.
  set (tr := row_max3 _ _ _).
  assert (Hatr : forall i v, rolling 14 agg_mean tr !! i = Some v ->
                   v = NaN \/ exists q, v = Fin q /\ 0 <= q).
  { intros i v. apply rolling_mean_nonneg. intros j q Hj.
    eapply true_range_nonneg; eassumption. }
  eexists _, _. split; [reflexivity|]. split; [apply col_set_col_eq|].
  split; [exact Hatr|].
  intros Hnum. unfold _calculate_keltner_channels.
  rewrite (col_set_col_ne "Close") by discriminate. rewrite Hc. obind.
  destruct (ewm_mean_is_Some 20 close) as [ema Ee]; [lia|]. rewrite Ee. obind.
  unfold has_col at 1. fold (col "ATR" (set_col "ATR" (rolling 14 agg_mean tr) df)).
  rewrite col_set_col_eq. rewrite bool_decide_eq_true_2 by (eexists; reflexivity).
  obind. repeat (col_step; obind).
  eexists _, _, _, _. split; [reflexivity|].
  do 3 (split; [repeat col_step; reflexivity|]).
  intros i u m l. unfold s_add, s_sub, s_scale.
  rewrite !lookup_zip_with, !list_lookup_fmap. intros Hu Hm Hlo.
  rewrite Hm in Hu, Hlo. obind.
  destruct (rolling 14 agg_mean tr !! i) as [a|] eqn:Ea; [|discriminate].
  cbn [mbind option_bind fmap option_fmap option_map] in Hu, Hlo.
  injection Hu as <-. injection Hlo as <-.
  intros Hnu Hnl. apply band_cell; try assumption.
  - pose proof (ewm_mean_numbers 20 close ema Hnum Ee) as He.
    unfold all_numbers in He. rewrite Forall_lookup in He. specialize (He i m Hm).
    destruct m; try discriminate. right. eexists. reflexivity.
  - apply (Hatr i a Ea).
  - reflexivity.
Qed.

Lemma long_range_ordered : range_ordered (map Fin long_low) (map Fin long_high).
Proof.
  repeat constructor; (eexists _, _; repeat split; try reflexivity; vm_compute; discriminate).
Qed.

Lemma atr_nonnegative_keltner_ordered_witness :
  (exists df1 atr,
     _calculate_atr long_bars = Some df1 /\
     col "ATR" df1 = Some atr /\
     (forall i v, atr !! i = Some v -> v = NaN \/ exists q, v = Fin q /\ 0 <= q) /\
     (all_numbers (map Fin long_close) ->
      exists df2 upper middle lower,
        _calculate_keltner_channels df1 = Some df2 /\
        col "KC_Upper" df2 = Some upper /\
        col "KC_Middle" df2 = Some middle /\
        col "KC_Lower" df2 = Some lower /\
        forall i u m l,
          upper !! i = Some u -> middle !! i = Some m -> lower !! i = Some l ->
          is_nan u = false -> is_nan l = false ->
          vge u m = true /\ vge m l = true)) /\
  cell "ATR" 14 keltner_example = Fin 3 /\
  is_nan (cell "KC_Upper" 14 keltner_example) = false /\
  is_nan (cell "KC_Lower" 14 keltner_example) = false.
Proof.
  split; [|repeat split; reflexivity].
  apply (atr_nonnegative_keltner_ordered long_bars
           (map Fin long_low) (map Fin long_close) (map Fin long_high)).
  - reflexivity.
  - reflexivity.
  - reflexivity.
  - exact long_range_ordered.
Defined.

(* ================================================================= *)
(** ** Ichimoku: the displaced lines *)

Lemma lookup_shift_lt k (s : list val) i :
  (i < k)%nat -> (i < length s)%nat -> shift k s !! i = Some NaN.
Proof.
  intros Hik Hi. unfold shift. rewrite lookup_take_lt by lia.
  rewrite lookup_app_l by (rewrite length_replicate; lia).
  apply lookup_replicate_2. lia.
Qed.

Lemma lookup_shift_ge k (s : list val) i :
  (i + k < length s)%nat -> shift k s !! (i + k)%nat = s !! i.
Proof.
  intros Hi. unfold shift. rewrite lookup_take_lt by lia.
  rewrite lookup_app_r by (rewrite length_replicate; lia).
  rewrite length_replicate. f_equal. lia.
Qed.

Lemma lookup_shift_back_lt k (s : list val) i :
  (i + k < length s)%nat -> shift_back k s !! i = s !! (i + k)%nat.
Proof.
  intros Hi. unfold shift_back.
  rewrite lookup_app_l by (rewrite length_drop; lia).
  rewrite lookup_drop. f_equal. lia.
Qed.

Lemma lookup_shift_back_ge k (s : list val) i :
  (length s <= i + k)%nat -> (i < length s)%nat -> shift_back k s !! i = Some NaN.
Proof.
  intros Hk Hi. unfold shift_back.
  rewrite lookup_app_r by (rewrite length_drop; lia).
  apply lookup_replicate_2. rewrite length_drop. lia.
Qed.

Lemma length_shift_back k (s : list val) : length (shift_back k s) = length s.
Proof. unfold shift_back. rewrite length_app, length_drop, length_replicate. lia. Qed.

(** X9.  On a frame whose High, Low and Close have one cell per bar, the
    Ichimoku lines are computed and keep that length.  The lagging span at a
    bar is the close 26 bars later and is missing on the last 26 bars; the
    two leading spans are missing on the first 26 bars and hold at bar
    [i + 26] what the conversion and base lines give at bar [i]. *)
Theorem ichimoku_displacement (df : DataFrame) (low close high : list val) :
  col "Low" df = Some low ->
  col "Close" df = Some close ->
  col "High" df = Some high ->
  length low = length close -> length high = length close ->
  exists df' tenkan kijun senkou_a senkou_b chikou,
    _calculate_ichimoku df = Some df' /\
    col "Ichimoku_Tenkan" df' = Some tenkan /\
    col "Ichimoku_Kijun" df' = Some kijun /\
    col "Ichimoku_Senkou_A" df' = Some senkou_a /\
    col "Ichimoku_Senkou_B" df' = Some senkou_b /\
    col "Ichimoku_Chikou" df' = Some chikou /\
    length senkou_a = length close /\ length senkou_b = length close /\
    length chikou = length close /\
    (forall i, (i + 26 < length close)%nat -> chikou !! i = close !! (i + 26)%nat) /\
    (forall i, (i < length close <= i + 26)%nat -> chikou !! i = Some NaN) /\
    (forall i, (i < 26)%nat -> (i < length close)%nat ->
               senkou_a !! i = Some NaN /\ senkou_b !! i = Some NaN) /\
    (forall i t k, (i + 26 < length close)%nat ->
               tenkan !! i = Some t -> kijun !! i = Some k ->
               senkou_a !! (i + 26)%nat = Some (vdiv (vadd t k) (Fin 2))) /\
    (exists b, mid_range 52 df = Some b /\
               forall i, (i + 26 < length close)%nat -> senkou_b !! (i + 26)%nat = b !! i).
Proof.
  intros Hl Hc Hh Ll Lh. unfold _calculate_ichimoku, mid_range.
  repeat (first [col_step | rewrite Hh | rewrite Hl | rewrite Hc]; obind).
  set (tenkan := s_over (Fin 2) (s_add (rolling 9 agg_max high) (rolling 9 agg_min low))).
  set (kijun := s_over (Fin 2) (s_add (rolling 26 agg_max high) (rolling 26 agg_min low))).
  set (b52 := s_over (Fin 2) (s_add (rolling 52 agg_max high) (rolling 52 agg_min low))).
  assert (Lmid : forall w, length (s_over (Fin 2)
                   (s_add (rolling w agg_max high) (rolling w agg_min low))) = length close).
  { intros w. unfold s_over, s_add. rewrite length_map, length_zip_with, !length_rolling. lia. }
  assert (Lavg : length (s_over (Fin 2) (s_add tenkan kijun)) = length close).
  { unfold s_over at 1, s_add at 1. rewrite length_map, length_zip_with.
    unfold tenkan, kijun. rewrite !Lmid. lia. }
  eexists _, tenkan, kijun, (shift 26 (s_over (Fin 2) (s_add tenkan kijun))),
    (shift 26 b52), (shift_back 26 close).
  split; [reflexivity|].
  do 5 (split; [repeat col_step; reflexivity|]).
  split; [rewrite length_shift; exact Lavg|].
  split; [rewrite length_shift; apply Lmid|].
  split; [apply length_shift_back|].
  split; [intros i Hi; apply lookup_shift_back_lt, Hi|].
  split; [intros i [Hi1 Hi2]; apply lookup_shift_back_ge; assumption|].
  split.
  { intros i Hi Hn. split; apply lookup_shift_lt; try assumption.
    - rewrite Lavg. exact Hn.
    - unfold b52. rewrite Lmid. exact Hn. }
  split.
  { intros i t k Hi Ht Hk. rewrite lookup_shift_ge by (rewrite Lavg; exact Hi).
    unfold s_over at 1, s_add at 1. rewrite list_lookup_fmap, lookup_zip_with, Ht. obind.
    rewrite Hk. reflexivity. }
  exists b52. split; [reflexivity|].
  intros i Hi. apply lookup_shift_ge. unfold b52. rewrite Lmid. exact Hi.
Qed.

Lemma ichimoku_displacement_witness :
  exists df' tenkan kijun senkou_a senkou_b chikou,
    _calculate_ichimoku example_bars = Some df' /\
    col "Ichimoku_Tenkan" df' = Some tenkan /\
    col "Ichimoku_Kijun" df' = Some kijun /\
    col "Ichimoku_Senkou_A" df' = Some senkou_a /\
    col "Ichimoku_Senkou_B" df' = Some senkou_b /\
    col "Ichimoku_Chikou" df' = Some chikou /\
    length senkou_a = 3%nat /\ length senkou_b = 3%nat /\ length chikou = 3%nat /\
    (forall i, (i + 26 < 3)%nat -> chikou !! i = map Fin [11; 12; 13] !! (i + 26)%nat) /\
    (forall i, (i < 3 <= i + 26)%nat -> chikou !! i = Some NaN) /\
    (forall i, (i < 26)%nat -> (i < 3)%nat ->
               senkou_a !! i = Some NaN /\ senkou_b !! i = Some NaN) /\
    (forall i t k, (i + 26 < 3)%nat ->
               tenkan !! i = Some t -> kijun !! i = Some k ->
               senkou_a !! (i + 26)%nat = Some (vdiv (vadd t k) (Fin 2))) /\
    (exists b, mid_range 52 example_bars = Some b /\
               forall i, (i + 26 < 3)%nat -> senkou_b !! (i + 26)%nat = b !! i).
Proof.
  apply (ichimoku_displacement example_bars
           (map Fin [9; 10; 11]) (map Fin [11; 12; 13]) (map Fin [12; 13; 14])).
  - reflexivity.
  - reflexivity.
  - reflexivity.
  - reflexivity.
  - reflexivity.
Defined.

(* ================================================================= *)
(** ** Volume weighted average price *)

Lemma within_typical_price (L U : Q) (high low close : list val) :
  within L U high -> within L U low -> within L U close ->
  length low = length high -> length close = length high ->
  within L U (s_over (Fin 3) (s_add (s_add high low) close)).
Proof.
  intros Hh. revert low close.
  induction Hh as [|h high (qh & -> & Hqh) Hh IH]; intros low close Hl Hc Ll Lc.
  - destruct low; [|discriminate]. constructor.
  - destruct Hl as [|l low (ql & -> & Hql) Hl]; [discriminate|].
    destruct Hc as [|c close (qc & -> & Hqc) Hc]; [discriminate|].
    simpl. constructor.
    + unfold num. eexists. split; [reflexivity|]. rewrite !Qred_correct.
      assert (Heq : (qh + ql + qc) / 3 == (qh + ql + qc) * (1 # 3)) by (field; lra).
      rewrite Heq. lra.
    + apply IH; try assumption; simpl in Ll, Lc; lia.
Qed.

(** The two running sums of the VWAP, side by side: the weighted sum stays
    between L and U times the summed volume. *)
Lemma vwap_sums (L U : Q) (tp volume : list val) (a0 b0 : Q) :
  within L U tp -> nonneg_numbers volume -> length tp = length volume ->
  0 <= b0 -> L * b0 <= a0 <= U * b0 ->
  forall i, (i < length tp)%nat ->
    exists a b,
      cum_from vadd (Some (Fin a0)) (s_mul tp volume) !! i = Some (Fin a) /\
      cum_from vadd (Some (Fin b0)) volume !! i = Some (Fin b) /\
      0 <= b /\ L * b <= a <= U * b.
Proof.
  intros Htp. revert volume a0 b0.
  induction Htp as [|t tp (qt & -> & Hqt) Htp IH]; intros volume a0 b0 Hv Hlen Hb0 Ha0 i Hi.
  - simpl in Hi. lia.
  - destruct Hv as [|v volume (qv & -> & Hqv) Hv]; [discriminate|].
    simpl in Hlen, Hi. cbn [s_mul zip_with cum_from is_nan vmul vadd]. cbv zeta.
    unfold num.
    assert (Hb1 : 0 <= Qred (b0 + qv)) by (rewrite Qred_correct; lra).
    assert (Ha1 : L * Qred (b0 + qv) <= Qred (a0 + Qred (qt * qv))
                  <= U * Qred (b0 + qv)).
    { rewrite !Qred_correct. nra. }
    destruct i as [|i].
    + eexists _, _. split; [reflexivity|]. split; [reflexivity|]. split; assumption.
    + cbn [lookup list_lookup]. apply IH; try assumption; lia.
Qed.

(** The cells of the VWAP column, in the exact arithmetic of the model: when
    High, Low and Close of every bar are numbers between L and U and no
    volume is negative, a cell is a number between L and U, or is missing
    while the summed volume is zero. *)
Lemma vwap_cells (df : DataFrame) (high low close volume : list val) (L U : Q) :
  col "High" df = Some high -> col "Low" df = Some low ->
  col "Close" df = Some close -> col "Volume" df = Some volume ->
  length low = length high -> length close = length high ->
  length volume = length high ->
  within L U high -> within L U low -> within L U close ->
  nonneg_numbers volume ->
  exists df' vwap,
    _calculate_vwap df = Some df' /\
    col "VWAP" df' = Some vwap /\
    length vwap = length close /\
    forall i v, vwap !! i = Some v ->
      nan_or_within L U v /\
      exists b, cumsum volume !! i = Some (Fin b) /\ 0 <= b /\ (v = NaN <-> b == 0).
Proof.
  intros Hh Hl Hc Hv Ll Lc Lv Wh Wl Wc Hvol.
  unfold _calculate_vwap, typical_price. rewrite Hh, Hl, Hc, Hv. obind.
  set (tp := s_over (Fin 3) (s_add (s_add high low) close)).
  assert (Wtp : within L U tp) by (apply within_typical_price; assumption).
  assert (Ltp : length tp = length high).
  { unfold tp, s_over, s_add. rewrite length_map, !length_zip_with. lia. }
  eexists _, _. split; [reflexivity|]. split; [apply col_set_col_eq|].
  split.
  { unfold s_div, cumsum, s_mul. rewrite length_zip_with, !length_cum_from, length_zip_with. lia. }
  intros i v. unfold s_div. rewrite lookup_zip_with. intros Hiv.
  assert (Hi : (i < length tp)%nat).
  { destruct (cumsum (s_mul tp volume) !! i) as [x|] eqn:E; [|discriminate].
    apply lookup_lt_Some in E. unfold cumsum, s_mul in E.
    rewrite length_cum_from, length_zip_with in E. lia. }
  assert (Hsums : exists a b,
            cumsum (s_mul tp volume) !! i = Some (Fin a) /\
            cumsum volume !! i = Some (Fin b) /\ 0 <= b /\ L * b <= a <= U * b).
  { unfold cumsum. destruct Wtp as [|t tp' (qt & -> & Hqt) Wtp']; [simpl in Hi; lia|].
    destruct Hvol as [|v0 volume' (qv & -> & Hqv) Hvol']; [simpl in Lv, Ltp; lia|].
    cbn [s_mul zip_with cum_from is_nan vmul]. cbv zeta. unfold num.
    assert (Ha1 : L * qv <= Qred (qt * qv) <= U * qv) by (rewrite Qred_correct; nra).
    destruct i as [|i].
    - eexists _, _. split; [reflexivity|]. split; [reflexivity|]. split; assumption.
    - cbn [lookup list_lookup]. apply vwap_sums; try assumption.
      + simpl in Lv, Ltp. lia.
      + simpl in Hi. lia. }
  destruct Hsums as (a & b & Ea0 & Eb0 & Hb & Hab). rewrite Ea0, Eb0 in Hiv. simpl in Hiv.
  destruct (Qeq_bool b 0) eqn:Eb; qbool.
  - destruct (Qeq_bool a 0) eqn:Ea; qbool.
    + injection Hiv as <-. split; [left; reflexivity|].
      exists b. split; [exact Eb0|]. split; [exact Hb|]. split; [intros _; exact Eb | reflexivity].
    + exfalso. apply Ea. rewrite Eb in Hab. lra.
  - injection Hiv as <-. split.
    + right. eexists. split; [reflexivity|]. rewrite Qred_correct.
      assert (Hpos : 0 < b) by lra.
      split; [apply Qle_shift_div_l | apply Qle_shift_div_r]; lra.
    + exists b. split; [exact Eb0|]. split; [exact Hb|].
      split; [discriminate | intros Hz; contradiction].
Qed.


(* ================================================================= *)
(** ** What the indicator methods do to the frame *)

Lemma aligned_set_col name s df :
  aligned df -> length s = df_len df -> aligned (set_col name s df).
Proof.
  intros Hal Hs n c. unfold col, set_col, df_len. simpl.
  destruct (decide (n = name)) as [-> | Hne].
  - rewrite lookup_insert_eq. intros [= <-]. exact Hs.
  - rewrite lookup_insert_ne by congruence. apply Hal.
Qed.

Lemma df_len_set_col name s df : df_len (set_col name s df) = df_len df.
Proof. reflexivity. Qed.

(** Membership and inclusion of lists of names that are written out. *)
Ltac in_list := apply (bool_decide_unpack _); vm_compute; exact I.
Ltac sub_list := apply (bool_decide_unpack _); vm_compute; exact I.

Lemma writes_only_weaken (w1 w2 : list string) f :
  w1 ⊆ w2 -> writes_only w1 f -> writes_only w2 f.
Proof.
  intros Hsub Hf df df' Hdf. destruct (Hf df df' Hdf) as (Hi & Ha & Hc).
  split; [exact Hi|]. split; [exact Ha|]. intros name Hn. apply Hc.
  intros Hin. apply Hn, Hsub, Hin.
Qed.

Lemma writes_only_bind (w : list string) f g :
  writes_only w f -> writes_only w g -> writes_only w (fun df => df1 ← f df; g df1).
Proof.
  intros Hf Hg df df' Hdf. destruct (f df) as [df1|] eqn:E1; [|discriminate].
  simpl in Hdf. destruct (Hf df df1 E1) as (Hi1 & Ha1 & Hc1).
  destruct (Hg df1 df' Hdf) as (Hi2 & Ha2 & Hc2).
  split; [congruence|]. split; [auto|]. intros name Hn. rewrite Hc2, Hc1; auto.
Qed.

(** Lengths of derived columns, down to the columns they are computed from. *)
Create Rewrite HintDb len.
#[local] Hint Rewrite @length_map @length_zip_with @length_zip length_rolling length_shift
  length_shift_back length_diff length_pct_change length_cum_from : len.

Ltac len :=
  unfold cross_above, cross_below, astype_int, s_and, s_flag, s_add, s_sub, s_mul, s_div,
    s_scale, s_over, where_, fillna, row_max3, cumsum, cumprod in *;
  autorewrite with len in *;
  try lia.

(** Takes the equation of a successful call apart: every column read is
    named, every assignment is kept. *)
Ltac inv_step H :=
  repeat first
    [ rewrite col_set_col_eq in H
    | rewrite col_set_col_ne in H by discriminate
    | match goal with E : col ?n ?d = Some _ |- _ => rewrite E in H end
    | match type of H with
      | context [col ?n ?d] =>
          lazymatch d with
          | set_col _ _ _ => fail
          | _ => let c := fresh "c" in let E := fresh "E" in
                 destruct (col n d) as [c|] eqn:E; [|discriminate H]
          end
      end
    | match type of H with
      | context [ewm_mean ?p ?s] =>
          let e := fresh "e" in let E := fresh "Ee" in
          destruct (ewm_mean p s) as [e|] eqn:E; [apply length_ewm_mean in E | discriminate H]
      end
    | progress cbn [mbind option_bind] in H ];
  injection H as <-.

(** After [inv_step]: the three parts of [writes_only] for a frame built by
    assignments. *)
Ltac frame_goals :=
  split; [reflexivity|];
  split;
  [ let Hal := fresh "Hal" in
    intros Hal;
    repeat match goal with
           | E : col _ _ = Some _ |- _ => apply Hal in E
           end;
    repeat (apply aligned_set_col; [|rewrite ?df_len_set_col; len]); exact Hal
  | let name := fresh "name" in let Hn := fresh "Hn" in
    intros name Hn;
    rewrite !col_set_col_ne;
    [reflexivity | let Heq := fresh in intros Heq; apply Hn; rewrite <- Heq; in_list ..] ].

Lemma rsi_writes config :
  writes_only ["RSI"; "RSI_Overbought"; "RSI_Oversold"] (_calculate_rsi config).
Proof. intros df df' H. unfold _calculate_rsi in H. inv_step H. frame_goals. Qed.

Lemma macd_writes config :
  writes_only ["MACD"; "MACD_Signal"; "MACD_Histogram"; "MACD_Bullish_Cross";
               "MACD_Bearish_Cross"] (_calculate_macd config).
Proof. intros df df' H. unfold _calculate_macd in H. inv_step H. frame_goals. Qed.

Lemma bollinger_writes `{NumLib} config :
  writes_only ["BB_Upper"; "BB_Lower"; "BB_Middle"; "BB_Width"; "BB_Position";
               "BB_Overbought"; "BB_Oversold"] (_calculate_bollinger_bands config).
Proof. intros df df' H0. unfold _calculate_bollinger_bands in H0. inv_step H0. frame_goals. Qed.

Lemma stochastic_writes config :
  writes_only ["Stoch_K"; "Stoch_D"; "Stoch_Overbought"; "Stoch_Oversold"]
              (_calculate_stochastic config).
Proof. intros df df' H. unfold _calculate_stochastic in H. inv_step H. frame_goals. Qed.

Lemma williams_r_writes : writes_only ["Williams_R"] _calculate_williams_r.
Proof. intros df df' H. unfold _calculate_williams_r in H. inv_step H. frame_goals. Qed.

Lemma cci_writes : writes_only ["CCI"] _calculate_cci.
Proof.
  intros df df' H. unfold _calculate_cci, typical_price in H. inv_step H. frame_goals.
Qed.

Lemma volume_indicators_writes :
  writes_only ["OBV"; "Volume_ROC"; "Volume_MA"; "Volume_Ratio"] _calculate_volume_indicators.
Proof. intros df df' H. unfold _calculate_volume_indicators in H. inv_step H. frame_goals. Qed.

Lemma atr_writes : writes_only ["ATR"] _calculate_atr.
Proof. intros df df' H. unfold _calculate_atr in H. inv_step H. frame_goals. Qed.

Lemma keltner_writes :
  writes_only ["ATR"; "KC_Upper"; "KC_Lower"; "KC_Middle"] _calculate_keltner_channels.
Proof.
  intros df df' H. unfold _calculate_keltner_channels in H.
  destruct (col "Close" df) as [close|] eqn:Ec; [|discriminate]. cbn [mbind option_bind] in H.
  destruct (ewm_mean 20 close) as [ema|] eqn:Ee; [|discriminate].
  apply length_ewm_mean in Ee. cbn [mbind option_bind] in H.
  destruct (has_col "ATR" df).
  - inv_step H. frame_goals.
  - destruct (_calculate_atr df) as [df1|] eqn:Ea; [|discriminate].
    destruct (atr_writes df df1 Ea) as (Hi & Ha & Hc).
    cbn [mbind option_bind] in H.
    destruct (col "ATR" df1) as [atr|] eqn:Eatr; [|discriminate].
    cbn [mbind option_bind] in H. injection H as <-.
    split; [exact Hi|]. split.
    + intros Hal. specialize (Ha Hal). pose proof (Ha _ _ Eatr) as Latr.
      pose proof (Hal _ _ Ec) as Lc.
      assert (Hlen : df_len df1 = df_len df) by (unfold df_len; congruence).
      repeat (apply aligned_set_col; [|rewrite ?df_len_set_col; len]). exact Ha.
    + intros name Hn. rewrite !col_set_col_ne, Hc; [reflexivity | |..].
      * intros Hin. apply Hn.
        assert (Hs : ["ATR"] ⊆ ["ATR"; "KC_Upper"; "KC_Lower"; "KC_Middle"]) by sub_list.
        exact (Hs _ Hin).
      * intros Heq. apply Hn. rewrite <- Heq. in_list.
      * intros Heq. apply Hn. rewrite <- Heq. in_list.
      * intros Heq. apply Hn. rewrite <- Heq. in_list.
Qed.

Lemma ichimoku_writes :
  writes_only ["Ichimoku_Tenkan"; "Ichimoku_Kijun"; "Ichimoku_Senkou_A"; "Ichimoku_Senkou_B";
               "Ichimoku_Chikou"] _calculate_ichimoku.
Proof.
  intros df df' H. unfold _calculate_ichimoku, mid_range in H. inv_step H. frame_goals.
Qed.

Lemma vwap_writes : writes_only ["VWAP"] _calculate_vwap.
Proof.
  intros df df' H. unfold _calculate_vwap, typical_price in H. inv_step H. frame_goals.
Qed.

Lemma fold_add_sma_None periods : fold_left add_sma periods None = None.
Proof. induction periods; simpl; [reflexivity | exact IHperiods]. Qed.

Lemma fold_add_ema_None periods : fold_left add_ema periods None = None.
Proof. induction periods; simpl; [reflexivity | exact IHperiods]. Qed.

Lemma fold_add_sma_writes periods :
  writes_only (map (fun p : nat => "SMA_" +:+ pretty p) periods)
              (fun df => fold_left add_sma periods (Some df)).
Proof.
  induction periods as [|p periods IH]; intros df df' H.
  - injection H as <-. split; [reflexivity|]. split; [auto | reflexivity].
  - cbn [fold_left] in H. unfold add_sma at 2 in H. cbn [mbind option_bind] in H.
    destruct (col "Close" df) as [close|] eqn:Ec;
      [|cbn [mbind option_bind] in H; rewrite fold_add_sma_None in H; discriminate].
    cbn [mbind option_bind] in H.
    destruct (IH _ _ H) as (Hi & Ha & Hc).
    split; [exact Hi|]. split.
    + intros Hal. apply Ha, aligned_set_col; [exact Hal|].
      rewrite length_rolling. apply (Hal _ _ Ec).
    + intros name Hn. apply not_elem_of_cons in Hn as [Hn1 Hn2].
      rewrite Hc by exact Hn2. apply col_set_col_ne. congruence.
Qed.

Lemma fold_add_ema_writes periods :
  writes_only (map (fun p : nat => "EMA_" +:+ pretty p) periods)
              (fun df => fold_left add_ema periods (Some df)).
Proof.
  induction periods as [|p periods IH]; intros df df' H.
  - injection H as <-. split; [reflexivity|]. split; [auto | reflexivity].
  - cbn [fold_left] in H. unfold add_ema at 2 in H. cbn [mbind option_bind] in H.
    destruct (col "Close" df) as [close|] eqn:Ec;
      [|cbn [mbind option_bind] in H; rewrite fold_add_ema_None in H; discriminate].
    cbn [mbind option_bind] in H.
    destruct (ewm_mean p close) as [e|] eqn:Ee;
      [|cbn [mbind option_bind] in H; rewrite fold_add_ema_None in H; discriminate].
    cbn [mbind option_bind] in H.
    destruct (IH _ _ H) as (Hi & Ha & Hc).
    split; [exact Hi|]. split.
    + intros Hal. apply Ha, aligned_set_col; [exact Hal|].
      rewrite (length_ewm_mean _ _ _ Ee). apply (Hal _ _ Ec).
    + intros name Hn. apply not_elem_of_cons in Hn as [Hn1 Hn2].
      rewrite Hc by exact Hn2. apply col_set_col_ne. congruence.
Qed.

Lemma moving_averages_writes config :
  writes_only (moving_average_columns config) (_calculate_moving_averages config).
Proof.
  intros df df' H. unfold _calculate_moving_averages in H.
  destruct (fold_left add_sma (sma_periods config) (Some df)) as [df1|] eqn:E1; [|discriminate].
  cbn [mbind option_bind] in H.
  destruct (fold_left add_ema (ema_periods config) (Some df1)) as [df2|] eqn:E2; [|discriminate].
  cbn [mbind option_bind] in H.
  destruct (fold_add_sma_writes _ _ _ E1) as (Hi1 & Ha1 & Hc1).
  destruct (fold_add_ema_writes _ _ _ E2) as (Hi2 & Ha2 & Hc2).
  assert (Hc12 : forall name, name ∉ moving_average_columns config -> col name df2 = col name df).
  { intros name Hn. unfold moving_average_columns in Hn.
    apply not_elem_of_app in Hn as [Hn1 Hn2]. apply not_elem_of_app in Hn2 as [Hn2 _].
    rewrite Hc2, Hc1; [reflexivity | exact Hn1 | exact Hn2]. }
  destruct (has_col "SMA_50" df2 && has_col "SMA_200" df2).
  - destruct (col "SMA_50" df2) as [s50|] eqn:E50; [|discriminate].
    destruct (col "SMA_200" df2) as [s200|] eqn:E200; [|discriminate].
    inv_step H. split; [simpl; congruence|]. split.
    + intros Hal. specialize (Ha2 (Ha1 Hal)).
      pose proof (Ha2 _ _ E50) as L50. pose proof (Ha2 _ _ E200) as L200.
      repeat (apply aligned_set_col; [|rewrite ?df_len_set_col; len]). exact Ha2.
    + intros name Hn. rewrite !col_set_col_ne; [apply Hc12, Hn | |];
        intros Heq; apply Hn; rewrite <- Heq; unfold moving_average_columns;
        rewrite !elem_of_app; right; right; in_list.
  - injection H as <-. split; [congruence|]. split; [auto | exact Hc12].
Qed.

Ltac next_method L :=
  apply writes_only_bind;
  [eapply writes_only_weaken; [|exact L]; unfold fixed_indicator_columns; sub_list|].

Lemma later_indicators_writes `{NumLib} config :
  writes_only fixed_indicator_columns (later_indicators config).
Proof.
  unfold later_indicators.
  next_method (rsi_writes config).
  next_method (macd_writes config).
  next_method (bollinger_writes config).
  next_method (stochastic_writes config).
  next_method williams_r_writes.
  next_method cci_writes.
  next_method volume_indicators_writes.
  next_method atr_writes.
  next_method keltner_writes.
  next_method ichimoku_writes.
  eapply writes_only_weaken; [|exact vwap_writes]. unfold fixed_indicator_columns. sub_list.
Qed.

Lemma indicator_pipeline_split `{NumLib} config df :
  indicator_pipeline config df
  = (df1 ← _calculate_moving_averages config df; later_indicators config df1).
Proof. reflexivity. Qed.

Lemma indicator_pipeline_writes `{NumLib} config :
  writes_only (moving_average_columns config ++ fixed_indicator_columns)
              (indicator_pipeline config).
Proof.
  intros df df' H0. rewrite indicator_pipeline_split in H0. revert df df' H0.
  apply writes_only_bind.
  - eapply writes_only_weaken; [|apply moving_averages_writes].
    intros x Hx. apply elem_of_app. left. exact Hx.
  - eapply writes_only_weaken; [|apply later_indicators_writes].
    intros x Hx. apply elem_of_app. right. exact Hx.
Qed.

(* ================================================================= *)
(** ** The frame returned by [calculate_all] *)

Lemma not_indicator_column (config : IndicatorConfig) (name : string) :
  name ∈ required_columns ->
  name ∉ moving_average_columns config ++ fixed_indicator_columns.
Proof.
  intros Hreq Hin.
  assert (Hname : name = "Open" \/ name = "High" \/ name = "Low" \/ name = "Close" \/
                  name = "Volume").
  { unfold required_columns in Hreq.
    repeat (apply elem_of_cons in Hreq as [-> | Hreq]; [tauto|]). inversion Hreq. }
  apply elem_of_app in Hin as [Hin | Hin].
  - unfold moving_average_columns in Hin.
    apply elem_of_app in Hin as [Hin | Hin];
      [|apply elem_of_app in Hin as [Hin | Hin]].
    + apply list_elem_of_fmap in Hin as (p & Hp & _). simpl in Hp.
      destruct Hname as [-> | [-> | [-> | [-> | ->]]]]; discriminate.
    + apply list_elem_of_fmap in Hin as (p & Hp & _). simpl in Hp.
      destruct Hname as [-> | [-> | [-> | [-> | ->]]]]; discriminate.
    + repeat (apply elem_of_cons in Hin as [-> | Hin];
              [destruct Hname as [? | [? | [? | [? | ?]]]]; discriminate|]).
      inversion Hin.
  - unfold fixed_indicator_columns in Hin.
    repeat (apply elem_of_cons in Hin as [-> | Hin];
            [destruct Hname as [? | [? | [? | [? | ?]]]]; discriminate|]).
    inversion Hin.
Qed.

(** X11.  On a price series with valid EMA and MACD spans, [calculate_all]
    returns a new frame and leaves its argument as it was.  The new frame has
    the index of the input and one cell per row in every column; Open, High,
    Low, Close and Volume, and every other column that is not an indicator
    column, are those of the input. *)
Theorem calculate_all_keeps_frame `{NumLib} (config : IndicatorConfig) (σ : store)
    (data : nat) (df : DataFrame) :
  σ !! data = Some df ->
  price_frame df ->
  aligned df ->
  valid_config config ->
  exists r σ' out,
    calculate_all config data σ = Some (r, σ') /\
    r <> data /\
    σ' !! data = Some df /\
    σ' !! r = Some out /\
    index out = index df /\
    aligned out /\
    (forall name, name ∈ required_columns -> col name out = col name df) /\
    (forall name, name ∉ moving_average_columns config ++ fixed_indicator_columns ->
                  col name out = col name df).
Proof.
  intros Hdata Hprice Hal Hcfg. rewrite calculate_all_run, Hdata. obind.
  destruct (indicator_pipeline_is_Some config df Hcfg Hprice) as [out Hout].
  rewrite Hout. obind.
  destruct (indicator_pipeline_writes config df out Hout) as (Hi & Ha & Hc).
  assert (Hfresh : fresh (dom σ) <> data).
  { intros Heq. apply (is_fresh (dom σ)). rewrite Heq. apply elem_of_dom. eauto. }
  eexists _, _, out. split; [reflexivity|].
  split; [exact Hfresh|].
  split; [rewrite lookup_insert_ne by exact Hfresh; exact Hdata|].
  split; [apply lookup_insert_eq|].
  split; [exact Hi|]. split; [exact (Ha Hal)|]. split; [|exact Hc].
  intros name Hreq. apply Hc, not_indicator_column, Hreq.
Qed.

Lemma example_bars_aligned : aligned example_bars.
Proof.
  intros name c Hc. unfold col, example_bars, ohlcv in Hc. cbn [columns] in Hc.
  repeat (apply lookup_insert_Some in Hc as [[_ <-] | [_ Hc]]; [reflexivity|]).
  rewrite lookup_empty in Hc. discriminate.
Qed.

Lemma calculate_all_keeps_frame_witness :
  let σ : store := {[ 0%nat := example_bars ]} in
  exists r σ' out,
    @calculate_all computing_lib default_config 0 σ = Some (r, σ') /\
    r <> 0%nat /\
    σ' !! 0%nat = Some example_bars /\
    σ' !! r = Some out /\
    index out = index example_bars /\
    aligned out /\
    (forall name, name ∈ required_columns -> col name out = col name example_bars) /\
    (forall name, name ∉ moving_average_columns default_config ++ fixed_indicator_columns ->
                  col name out = col name example_bars).
Proof.
  apply (@calculate_all_keeps_frame computing_lib default_config {[ 0%nat := example_bars ]}
           0%nat example_bars).
  - apply lookup_singleton_eq.
  - exact example_prices_frame.
  - exact example_bars_aligned.
  - exact default_config_valid.
Defined.

(* ================================================================= *)
(** ** Momentum flags and their interpretation *)

Lemma interpret_rsi v : _interpret_momentum_indicator "RSI" v = momentum_rule 70 30 v.
Proof. reflexivity. Qed.

Lemma interpret_stoch_k v : _interpret_momentum_indicator "Stoch_K" v = momentum_rule 80 20 v.
Proof. reflexivity. Qed.

Lemma interpret_macd v : _interpret_momentum_indicator "MACD" v = MOMENTUM_NEUTRAL.
Proof. reflexivity. Qed.

Lemma momentum_rule_nan (hi lo : Q) : momentum_rule hi lo NaN = MOMENTUM_NEUTRAL.
Proof. reflexivity. Qed.

Lemma momentum_rule_cases (hi lo : Q) (v : val) :
  lo <= hi ->
  (momentum_rule hi lo v = OVERBOUGHT <-> vgt v (Fin hi) = true) /\
  (momentum_rule hi lo v = OVERSOLD <-> vlt v (Fin lo) = true) /\
  (momentum_rule hi lo v = MOMENTUM_NEUTRAL <->
     vgt v (Fin hi) = false /\ vlt v (Fin lo) = false).
Proof.
  intros Hlh. unfold momentum_rule.
  destruct (vgt v (Fin hi)) eqn:Ehi.
  - assert (Elo : vlt v (Fin lo) = false).
    { unfold vgt in Ehi. destruct v as [| |q|]; try reflexivity; try discriminate.
      simpl in *. destruct (Qlt_bool q lo) eqn:E; [|reflexivity]. qbool. lra. }
    rewrite Elo. repeat split; try discriminate; try reflexivity; intros []; discriminate.
  - destruct (vlt v (Fin lo)); repeat split; try discriminate; try reflexivity;
      intros []; discriminate.
Qed.

Lemma lookup_threshold_flag (p : val -> bool) (s : list val) i :
  astype_int (map p s) !! i = of_bool <$> (p <$> s !! i).
Proof. unfold astype_int. rewrite !list_lookup_fmap. reflexivity. Qed.

Lemma of_bool_one_iff (b : bool) : of_bool b = Fin 1 <-> b = true.
Proof. destruct b; split; try reflexivity; discriminate. Qed.

Lemma of_bool_zero_iff (b : bool) : of_bool b = Fin 0 <-> b = false.
Proof. destruct b; split; try reflexivity; discriminate. Qed.

(** How the two flags of an oscillator relate to the reading of its value
    by the momentum rule with the same thresholds. *)
Lemma flags_agree (hi lo : Q) (s : list val) i v :
  lo <= hi ->
  s !! i = Some v ->
  (astype_int (map (fun x => vgt x (Fin hi)) s) !! i = Some (Fin 1)
     <-> momentum_rule hi lo v = OVERBOUGHT) /\
  (astype_int (map (fun x => vlt x (Fin lo)) s) !! i = Some (Fin 1)
     <-> momentum_rule hi lo v = OVERSOLD) /\
  (astype_int (map (fun x => vgt x (Fin hi)) s) !! i = Some (Fin 0) /\
   astype_int (map (fun x => vlt x (Fin lo)) s) !! i = Some (Fin 0)
     <-> momentum_rule hi lo v = MOMENTUM_NEUTRAL).
Proof.
  intros Hlh Hv. rewrite !lookup_threshold_flag, Hv. cbn [fmap option_fmap option_map].
  destruct (momentum_rule_cases hi lo v Hlh) as (H1 & H2 & H3).
  rewrite H1, H2, H3. split; [|split].
  - split; [intros [= E]; apply of_bool_one_iff, E | intros ->; reflexivity].
  - split; [intros [= E]; apply of_bool_one_iff, E | intros ->; reflexivity].
  - split.
    + intros [[= E1] [= E2]]. split; apply of_bool_zero_iff; assumption.
    + intros [-> ->]. split; reflexivity.
Qed.

(** X12.  The overbought and oversold flags of [indicators.py] and the
    reading of the same value by [_interpret_momentum_indicator] agree, for
    RSI (70/30) and for the stochastic %K (80/20): a flag is 1 exactly when
    the interpretation is OVERBOUGHT (OVERSOLD), both flags are 0 exactly
    when it is NEUTRAL, and a missing value is NEUTRAL. *)
Theorem momentum_flags_agree (config : IndicatorConfig) (df : DataFrame) :
  is_Some (col "Low" df) -> is_Some (col "Close" df) -> is_Some (col "High" df) ->
  exists df1 df2 rsi rsi_over rsi_under k k_over k_under,
    _calculate_rsi config df = Some df1 /\
    _calculate_stochastic config df1 = Some df2 /\
    col "RSI" df2 = Some rsi /\
    col "RSI_Overbought" df2 = Some rsi_over /\
    col "RSI_Oversold" df2 = Some rsi_under /\
    col "Stoch_K" df2 = Some k /\
    col "Stoch_Overbought" df2 = Some k_over /\
    col "Stoch_Oversold" df2 = Some k_under /\
    (forall i v, rsi !! i = Some v ->
       (rsi_over !! i = Some (Fin 1) <-> _interpret_momentum_indicator "RSI" v = OVERBOUGHT) /\
       (rsi_under !! i = Some (Fin 1) <-> _interpret_momentum_indicator "RSI" v = OVERSOLD) /\
       (rsi_over !! i = Some (Fin 0) /\ rsi_under !! i = Some (Fin 0)
          <-> _interpret_momentum_indicator "RSI" v = MOMENTUM_NEUTRAL) /\
       (v = NaN -> _interpret_momentum_indicator "RSI" v = MOMENTUM_NEUTRAL)) /\
    (forall i v, k !! i = Some v ->
       (k_over !! i = Some (Fin 1) <-> _interpret_momentum_indicator "Stoch_K" v = OVERBOUGHT) /\
       (k_under !! i = Some (Fin 1) <-> _interpret_momentum_indicator "Stoch_K" v = OVERSOLD) /\
       (k_over !! i = Some (Fin 0) /\ k_under !! i = Some (Fin 0)
          <-> _interpret_momentum_indicator "Stoch_K" v = MOMENTUM_NEUTRAL) /\
       (v = NaN -> _interpret_momentum_indicator "Stoch_K" v = MOMENTUM_NEUTRAL)).
Proof.
  intros [low Hl] [close Hc] [high Hh].
  unfold _calculate_rsi. rewrite Hc. obind. repeat (col_step; obind).
  eexists _, _, _, _, _, _, _, _. split; [reflexivity|].
  unfold _calculate_stochastic.
  repeat (first [col_step | rewrite Hh | rewrite Hl | rewrite Hc]; obind).
  split; [reflexivity|].
  do 6 (split; [repeat col_step; reflexivity|]).
  split.
  - intros i v Hv. rewrite interpret_rsi.
    destruct (flags_agree 70 30 _ i v ltac:(lra) Hv) as (H1 & H2 & H3).
    split; [exact H1|]. split; [exact H2|]. split; [exact H3|]. intros ->. reflexivity.
  - intros i v Hv. rewrite interpret_stoch_k.
    destruct (flags_agree 80 20 _ i v ltac:(lra) Hv) as (H1 & H2 & H3).
    split; [exact H1|]. split; [exact H2|]. split; [exact H3|]. intros ->. reflexivity.
Qed.

Lemma momentum_flags_agree_witness :
  exists df1 df2 rsi rsi_over rsi_under k k_over k_under,
    _calculate_rsi default_config example_bars = Some df1 /\
    _calculate_stochastic default_config df1 = Some df2 /\
    col "RSI" df2 = Some rsi /\
    col "RSI_Overbought" df2 = Some rsi_over /\
    col "RSI_Oversold" df2 = Some rsi_under /\
    col "Stoch_K" df2 = Some k /\
    col "Stoch_Overbought" df2 = Some k_over /\
    col "Stoch_Oversold" df2 = Some k_under /\
    (forall i v, rsi !! i = Some v ->
       (rsi_over !! i = Some (Fin 1) <-> _interpret_momentum_indicator "RSI" v = OVERBOUGHT) /\
       (rsi_under !! i = Some (Fin 1) <-> _interpret_momentum_indicator "RSI" v = OVERSOLD) /\
       (rsi_over !! i = Some (Fin 0) /\ rsi_under !! i = Some (Fin 0)
          <-> _interpret_momentum_indicator "RSI" v = MOMENTUM_NEUTRAL) /\
       (v = NaN -> _interpret_momentum_indicator "RSI" v = MOMENTUM_NEUTRAL)) /\
    (forall i v, k !! i = Some v ->
       (k_over !! i = Some (Fin 1) <-> _interpret_momentum_indicator "Stoch_K" v = OVERBOUGHT) /\
       (k_under !! i = Some (Fin 1) <-> _interpret_momentum_indicator "Stoch_K" v = OVERSOLD) /\
       (k_over !! i = Some (Fin 0) /\ k_under !! i = Some (Fin 0)
          <-> _interpret_momentum_indicator "Stoch_K" v = MOMENTUM_NEUTRAL) /\
       (v = NaN -> _interpret_momentum_indicator "Stoch_K" v = MOMENTUM_NEUTRAL)).
Proof.
  apply (momentum_flags_agree default_config example_bars).
  - eexists. reflexivity.
  - eexists. reflexivity.
  - eexists. reflexivity.
Defined.

(* ================================================================= *)
(** ** Technical summary *)

Lemma has_col_iff name df : has_col name df = true <-> is_Some (col name df).
Proof. unfold has_col, col. apply bool_decide_eq_true. Qed.

Lemma has_col_false name df : has_col name df = false <-> col name df = None.
Proof.
  unfold has_col, col. rewrite bool_decide_eq_false, <- eq_None_not_Some. reflexivity.
Qed.

Lemma latest_Some name (data : DataFrame) (c : list val) :
  aligned data -> df_len data <> 0%nat -> col name data = Some c ->
  exists v, latest name data = Some v /\ last c = Some v.
Proof.
  intros Hal Hn Hc. unfold latest.
  replace (df_len data =? 0)%nat with false by (symmetry; apply Nat.eqb_neq, Hn).
  rewrite Hc. obind. unfold iloc_last.
  destruct (iloc_last_is_Some c) as [v Hv]; [rewrite (Hal _ _ Hc); lia|].
  exists v. split; exact Hv.
Qed.

Lemma entries_spec {A} (data : DataFrame) (f : string -> val -> A) (names : list string) :
  aligned data -> df_len data <> 0%nat ->
  exists l, entries data f names = Some l /\
    forall name x, (name, x) ∈ l <->
      name ∈ names /\ exists c v, col name data = Some c /\ last c = Some v /\ x = f name v.
Proof.
  intros Hal Hn. unfold entries. induction names as [|n names (l & IH & Hl)].
  - exists []. split; [reflexivity|]. intros name x. split.
    + intros Hin. inversion Hin.
    + intros [Hin _]. inversion Hin.
  - destruct (mapM (entry_if_present data f) names) as [k|] eqn:Ek; [|discriminate].
    cbn [mbind option_bind] in IH. injection IH as <-.
    assert (He : exists e, entry_if_present data f n = Some e /\
              forall name x, (name, x) ∈ e <->
                name = n /\ exists c v, col name data = Some c /\ last c = Some v /\
                                        x = f name v).
    { unfold entry_if_present. destruct (has_col n data) eqn:Eh.
      - apply has_col_iff in Eh as [c Hc].
        destruct (latest_Some n data c Hal Hn Hc) as (v & Hv & Hlast).
        rewrite Hv. cbn [mbind option_bind]. eexists. split; [reflexivity|].
        intros name x. rewrite list_elem_of_singleton. split.
        + intros [= -> ->]. split; [reflexivity|]. exists c, v. repeat split; assumption.
        + intros [-> (c' & v' & Hc' & Hv' & ->)]. rewrite Hc in Hc'. injection Hc' as <-.
          rewrite Hlast in Hv'. injection Hv' as <-. reflexivity.
      - exists []. split; [reflexivity|]. intros name x. split.
        + intros Hin. inversion Hin.
        + intros [-> (c' & v' & Hc' & _)]. apply has_col_false in Eh. congruence. }
    destruct He as (e & He & Hel).
    cbn [mapM]. rewrite He. cbn [mbind option_bind]. rewrite Ek.
    cbn [mbind option_bind mret option_ret].
    eexists. split; [reflexivity|]. intros name x. cbn [concat].
    rewrite elem_of_app, Hel, Hl, elem_of_cons. split.
    + intros [[-> Hx] | [Hin Hx]].
      * split; [left; reflexivity | exact Hx].
      * split; [right; exact Hin | exact Hx].
    + intros [[-> | Hin] Hx]; [left | right]; split; try assumption; reflexivity.
Qed.

(** What the summary of a frame with rows and a Close column holds. *)
Lemma technical_summary_entries (data : DataFrame) (close : list val) :
  aligned data -> df_len data <> 0%nat -> col "Close" data = Some close ->
  exists s price,
    _extract_technical_summary data = Some s /\
    current_price s = price /\ last close = Some price /\
    (forall name x, (name, x) ∈ sma_signals s <->
       name ∈ ["SMA_20"; "SMA_50"; "SMA_200"] /\
       exists c v, col name data = Some c /\ last c = Some v /\
                   x = (v, if vgt price v then BUY else SELL)) /\
    (forall name x, (name, x) ∈ momentum_signals s <->
       name ∈ ["RSI"; "MACD"; "Stoch_K"; "Williams_R"; "CCI"] /\
       exists c v, col name data = Some c /\ last c = Some v /\
                   x = (v, _interpret_momentum_indicator name v)).
Proof.
  intros Hal Hn Hc. unfold _extract_technical_summary.
  destruct (latest_Some "Close" data close Hal Hn Hc) as (price & Hp & Hlast).
  rewrite Hp. cbn [mbind option_bind].
  destruct (entries_spec data (fun _ v => (v, if vgt price v then BUY else SELL))
              (map (fun period : nat => "SMA_" +:+ pretty period) [20; 50; 200]%nat) Hal Hn)
    as (sma & -> & Hsma).
  cbn [mbind option_bind].
  destruct (entries_spec data (fun name v => (v, _interpret_momentum_indicator name v))
              ["RSI"; "MACD"; "Stoch_K"; "Williams_R"; "CCI"] Hal Hn)
    as (mom & -> & Hmom).
  cbn [mbind option_bind].
  assert (Hlatest : forall name, has_col name data = true -> is_Some (latest name data)).
  { intros name [c Hcn]%has_col_iff.
    destruct (latest_Some name data c Hal Hn Hcn) as (v & Hv & _). eauto. }
  destruct (has_col "ATR" data) eqn:Eatr;
    [destruct (Hlatest _ Eatr) as [atr ->]|];
    (destruct (has_col "Volume_Ratio" data) eqn:Evr;
     [destruct (Hlatest _ Evr) as [r ->]|]);
    cbn [mbind option_bind];
    (eexists _, price; split; [reflexivity|]; split; [reflexivity|]; split; [exact Hlast|];
     split; [exact Hsma | exact Hmom]).
Qed.

(** X13.  On a frame whose columns have one cell per row, the technical
    summary raises exactly when the frame has no rows or no Close column;
    otherwise it is computed and its current price is the last close. *)
Theorem technical_summary_defined (data : DataFrame) :
  aligned data ->
  (_extract_technical_summary data = None <->
     df_len data = 0%nat \/ col "Close" data = None) /\
  (forall s, _extract_technical_summary data = Some s ->
     exists close, col "Close" data = Some close /\ last close = Some (current_price s)).
Proof.
  intros Hal.
  destruct (Nat.eq_dec (df_len data) 0%nat) as [H0 | Hn].
  { assert (Hnone : _extract_technical_summary data = None).
    { unfold _extract_technical_summary, latest. rewrite H0. reflexivity. }
    split; [split; [left; exact H0 | intros _; exact Hnone]|].
    intros s Hs. congruence. }
  destruct (col "Close" data) as [close|] eqn:Hc.
  - destruct (technical_summary_entries data close Hal Hn Hc)
      as (s & price & Hs & Hp & Hlast & _).
    split.
    + split; [congruence | intros [? | ?]; [contradiction | discriminate]].
    + intros s' Hs'. rewrite Hs in Hs'. injection Hs' as <-. exists close.
      split; [reflexivity | congruence].
  - assert (Hnone : _extract_technical_summary data = None).
    { unfold _extract_technical_summary, latest. rewrite Hc.
      destruct (df_len data =? 0)%nat; reflexivity. }
    split; [split; [right; reflexivity | intros _; exact Hnone]|].
    intros s Hs. congruence.
Qed.

Lemma technical_summary_defined_witness :
  (_extract_technical_summary example_bars = None <->
     df_len example_bars = 0%nat \/ col "Close" example_bars = None) /\
  (forall s, _extract_technical_summary example_bars = Some s ->
     exists close, col "Close" example_bars = Some close /\
                   last close = Some (current_price s)).
Proof.
  apply (technical_summary_defined example_bars). exact example_bars_aligned.
Defined.

(** X14.  In a technical summary, a moving average that is missing on the
    last bar is reported with the signal SELL, a momentum indicator that is
    missing on the last bar is NEUTRAL, and the MACD entry is NEUTRAL
    whatever its value: no interpretation is registered for it. *)
Theorem technical_summary_missing_values (data : DataFrame) (s : TechnicalSummary) :
  aligned data ->
  _extract_technical_summary data = Some s ->
  (forall name sig, (name, (NaN, sig)) ∈ sma_signals s -> sig = SELL) /\
  (forall name sig, (name, (NaN, sig)) ∈ momentum_signals s -> sig = MOMENTUM_NEUTRAL) /\
  (forall v sig, ("MACD", (v, sig)) ∈ momentum_signals s -> sig = MOMENTUM_NEUTRAL) /\
  (forall name c, name ∈ ["SMA_20"; "SMA_50"; "SMA_200"] ->
     col name data = Some c -> last c = Some NaN -> (name, (NaN, SELL)) ∈ sma_signals s).
Proof.
  intros Hal Hs.
  assert (Hn : df_len data <> 0%nat).
  { intros H0. unfold _extract_technical_summary, latest in Hs. rewrite H0 in Hs.
    discriminate. }
  destruct (col "Close" data) as [close|] eqn:Hc.
  2: { unfold _extract_technical_summary, latest in Hs. rewrite Hc in Hs.
       destruct (df_len data =? 0)%nat; discriminate. }
  destruct (technical_summary_entries data close Hal Hn Hc)
    as (s' & price & Hs' & Hp & Hlast & Hsma & Hmom).
  rewrite Hs in Hs'. injection Hs' as <-.
  split; [|split; [|split]].
  - intros name sig Hin. apply Hsma in Hin as (_ & c & v & _ & _ & [= <- ->]).
    destruct price; reflexivity.
  - intros name sig Hin. apply Hmom in Hin as (Hname & c & v & _ & _ & [= <- ->]).
    repeat (apply elem_of_cons in Hname as [-> | Hname]; [reflexivity|]).
    inversion Hname.
  - intros v sig Hin. apply Hmom in Hin as (_ & c & v' & _ & _ & [= <- ->]).
    reflexivity.
  - intros name c Hname Hcol Hnan. apply Hsma. split; [exact Hname|].
    exists c, NaN. split; [exact Hcol|]. split; [exact Hnan | reflexivity].
Qed.

Lemma indicators_example_run :
  @indicator_pipeline computing_lib default_config example_bars = Some indicators_example.
Proof. vm_compute. reflexivity. Qed.

Lemma indicators_example_aligned : aligned indicators_example.
Proof.
  destruct (@indicator_pipeline_writes computing_lib default_config _ _ indicators_example_run)
    as (_ & Hal & _).
  apply Hal, example_bars_aligned.
Qed.

Lemma technical_summary_missing_values_witness :
  (forall name sig, (name, (NaN, sig)) ∈ sma_signals summary_example -> sig = SELL) /\
  (forall name sig, (name, (NaN, sig)) ∈ momentum_signals summary_example ->
                    sig = MOMENTUM_NEUTRAL) /\
  (forall v sig, ("MACD", (v, sig)) ∈ momentum_signals summary_example ->
                 sig = MOMENTUM_NEUTRAL) /\
  (forall name c, name ∈ ["SMA_20"; "SMA_50"; "SMA_200"] ->
     col name indicators_example = Some c -> last c = Some NaN ->
     (name, (NaN, SELL)) ∈ sma_signals summary_example).
Proof.
  apply (technical_summary_missing_values indicators_example summary_example).
  - exact indicators_example_aligned.
  - vm_compute. reflexivity.
Defined.

(* ================================================================= *)
(** ** The summary of a short history *)

Lemma sma_name_not_fixed (p : nat) : "SMA_" +:+ pretty p ∉ fixed_indicator_columns.
Proof.
  intros Hin. unfold fixed_indicator_columns in Hin. simpl in Hin.
  repeat (apply elem_of_cons in Hin as [Hin | Hin]; [discriminate|]). inversion Hin.
Qed.

Lemma sma_name_not_ema (p : nat) (periods : list nat) :
  "SMA_" +:+ pretty p ∉ map (fun q : nat => "EMA_" +:+ pretty q) periods.
Proof. intros (q & Hq & _)%list_elem_of_fmap. simpl in Hq. discriminate. Qed.

(** The SMA columns of the frame [calculate_all] builds. *)
Lemma pipeline_sma_col `{NumLib} (config : IndicatorConfig) (df out : DataFrame)
    (close : list val) (p : nat) :
  col "Close" df = Some close ->
  p ∈ sma_periods config ->
  indicator_pipeline config df = Some out ->
  col ("SMA_" +:+ pretty p) out = Some (rolling p agg_mean close).
Proof.
  intros Hc Hp Hout. rewrite indicator_pipeline_split in Hout.
  destruct (_calculate_moving_averages config df) as [df1|] eqn:E1; [|discriminate].
  cbn [mbind option_bind] in Hout.
  destruct (later_indicators_writes config df1 out Hout) as (_ & _ & Hlater).
  rewrite Hlater by apply sma_name_not_fixed.
  unfold _calculate_moving_averages in E1.
  destruct (fold_add_sma (sma_periods config) df close Hc) as (dfa & Ea & _ & Hsma & _).
  rewrite Ea in E1. cbn [mbind option_bind] in E1.
  destruct (fold_left add_ema (ema_periods config) (Some dfa)) as [dfb|] eqn:Eb; [|discriminate].
  cbn [mbind option_bind] in E1.
  destruct (fold_add_ema_writes _ _ _ Eb) as (_ & _ & Hema).
  assert (Hb : col ("SMA_" +:+ pretty p) dfb = Some (rolling p agg_mean close)).
  { rewrite Hema by apply sma_name_not_ema. apply Hsma, Hp. }
  destruct (has_col "SMA_50" dfb && has_col "SMA_200" dfb).
  - destruct (col "SMA_50" dfb) as [s50|]; [|discriminate].
    destruct (col "SMA_200" dfb) as [s200|]; [|discriminate].
    inv_step E1. rewrite !col_set_col_ne by (simpl; discriminate). exact Hb.
  - injection E1 as <-. exact Hb.
Qed.

Lemma last_rolling_short w agg (s : list val) :
  (0 < length s < w)%nat -> last (rolling w agg s) = Some NaN.
Proof.
  intros Hs. rewrite last_lookup, length_rolling. unfold rolling.
  rewrite list_lookup_imap.
  destruct (lookup_lt_is_Some_2 s (pred (length s))) as [x ->]; [lia|].
  cbn [fmap option_fmap option_map]. unfold window.
  replace (pred (length s) + 1 <? w)%nat with true by (symmetry; apply Nat.ltb_lt; lia).
  rewrite orb_true_r. reflexivity.
Qed.

(** X15.  A price series with fewer bars than the period of a moving average
    that the summary reads (20, 50 or 200, configured) gets all indicators
    and a technical summary, and the summary reports that average as missing
    with the signal SELL. *)
Theorem short_history_sma_sell `{NumLib} (config : IndicatorConfig) (df : DataFrame)
    (p : nat) :
  price_frame df -> aligned df -> valid_config config ->
  p ∈ [20; 50; 200]%nat -> p ∈ sma_periods config ->
  (0 < df_len df < p)%nat ->
  exists out s,
    indicator_pipeline config df = Some out /\
    _extract_technical_summary out = Some s /\
    ("SMA_" +:+ pretty p, (NaN, SELL)) ∈ sma_signals s.
Proof.
  intros Hprice Hal Hcfg Hp Hpc Hlen.
  destruct (indicator_pipeline_is_Some config df Hcfg Hprice) as [out Hout].
  destruct (indicator_pipeline_writes config df out Hout) as (Hidx & Halo & Hcols).
  destruct Hprice as ([close Hc] & _).
  assert (Hco : col "Close" out = Some close).
  { rewrite Hcols; [exact Hc|]. apply not_indicator_column.
    apply (bool_decide_unpack _). vm_compute. exact I. }
  assert (Hn : df_len out <> 0%nat) by (unfold df_len in *; rewrite Hidx; lia).
  destruct (technical_summary_entries out close (Halo Hal) Hn Hco)
    as (s & price & Hs & _ & _ & Hsma & _).
  exists out, s. split; [exact Hout|]. split; [exact Hs|].
  apply Hsma. split.
  { repeat (apply elem_of_cons in Hp as [-> | Hp];
            [apply (bool_decide_unpack _); vm_compute; exact I|]).
    inversion Hp. }
  exists (rolling p agg_mean close), NaN.
  split; [exact (pipeline_sma_col config df out close p Hc Hpc Hout)|].
  split; [|reflexivity].
  apply last_rolling_short. rewrite (Hal _ _ Hc). exact Hlen.
Qed.

Lemma short_history_sma_sell_witness :
  exists out s,
    @indicator_pipeline computing_lib default_config example_bars = Some out /\
    _extract_technical_summary out = Some s /\
    ("SMA_" +:+ pretty 200%nat, (NaN, SELL)) ∈ sma_signals s.
Proof.
  apply (@short_history_sma_sell computing_lib default_config example_bars 200%nat).
  - exact example_prices_frame.
  - exact example_bars_aligned.
  - exact default_config_valid.
  - apply (bool_decide_unpack _). vm_compute. exact I.
  - apply (bool_decide_unpack _). vm_compute. exact I.
  - vm_compute. lia.
Defined.

(* ================================================================= *)
(** ** Longest streaks *)

Lemma streak_step_true (c m : nat) :
  streak_step (c, m) (of_bool true) = (S c, Nat.max m (S c)).
Proof. reflexivity. Qed.

Lemma streak_step_false (c m : nat) : streak_step (c, m) (of_bool false) = (0%nat, m).
Proof. reflexivity. Qed.

(** The loop over the flags, started in any state whose running streak does
    not exceed the longest one: the result bounds every run of ones, and a
    run that starts at the first flag extends the running streak. *)
Lemma streak_fold_bounds (p : val -> bool) (s : list val) (c m : nat) :
  (c <= m)%nat ->
  let r := fold_left streak_step (astype_int (map p s)) (c, m) in
  (r.1 <= r.2)%nat /\ (m <= r.2)%nat /\
  (forall k, (k <= length s)%nat ->
     (forall j x, (j < k)%nat -> s !! j = Some x -> p x = true) -> (c + k <= r.2)%nat) /\
  (forall i k, (i + k <= length s)%nat ->
     (forall j x, (i <= j < i + k)%nat -> s !! j = Some x -> p x = true) -> (k <= r.2)%nat).
Proof.
  revert c m. induction s as [|x s IH]; intros c m Hcm; cbn zeta.
  - unfold astype_int. simpl. split; [exact Hcm|]. split; [lia|]. split; intros; simpl in *; lia.
  - unfold astype_int in *. cbn [List.map fold_left]. destruct (p x) eqn:Epx.
    + rewrite streak_step_true.
      assert (Hc' : (S c <= Nat.max m (S c))%nat) by lia.
      destruct (IH (S c) (Nat.max m (S c)) Hc') as (H1 & H2 & H3 & H4).
      split; [exact H1|]. split; [lia|]. split.
      * intros k Hk Hrun. destruct k as [|k]; [lia|].
        assert (S c + k <= (fold_left streak_step (List.map of_bool (List.map p s))
                              (S c, Nat.max m (S c))).2)%nat; [|lia].
        apply H3; [simpl in Hk; lia|]. intros j y Hj Hy. apply (Hrun (S j) y); [lia | exact Hy].
      * intros i k Hik Hrun. destruct i as [|i].
        -- destruct k as [|k]; [lia|].
           assert (S c + k <= (fold_left streak_step (List.map of_bool (List.map p s))
                                 (S c, Nat.max m (S c))).2)%nat; [|lia].
           apply H3; [simpl in Hik; lia|].
           intros j y Hj Hy. apply (Hrun (S j) y); [lia | exact Hy].
        -- apply (H4 i k); [simpl in Hik; lia|].
           intros j y Hj Hy. apply (Hrun (S j) y); [lia | exact Hy].
    + rewrite streak_step_false.
      assert (Hc' : (0 <= m)%nat) by lia.
      destruct (IH 0%nat m Hc') as (H1 & H2 & H3 & H4).
      split; [exact H1|]. split; [exact H2|]. split.
      * intros k Hk Hrun. destruct k as [|k]; [lia|].
        specialize (Hrun 0%nat x ltac:(lia) eq_refl). congruence.
      * intros i k Hik Hrun. destruct i as [|i].
        -- destruct k as [|k]; [lia|].
           specialize (Hrun 0%nat x ltac:(lia) eq_refl). congruence.
        -- apply (H4 i k); [simpl in Hik; lia|].
           intros j y Hj Hy. apply (Hrun (S j) y); [lia | exact Hy].
Qed.

(** The result is reached: it is the longest streak at the start, or the
    running streak extended by a run at the first flags, or a run. *)
Lemma streak_fold_reached (p : val -> bool) (s : list val) (c m : nat) :
  let r := fold_left streak_step (astype_int (map p s)) (c, m) in
  r.2 = m \/
  (exists k, (k <= length s)%nat /\ r.2 = (c + k)%nat /\
     forall j x, (j < k)%nat -> s !! j = Some x -> p x = true) \/
  (exists i k, (i + k <= length s)%nat /\ r.2 = k /\
     forall j x, (i <= j < i + k)%nat -> s !! j = Some x -> p x = true).
Proof.
  revert c m. induction s as [|x s IH]; intros c m; cbn zeta.
  - left. reflexivity.
  - unfold astype_int in *. cbn [List.map fold_left]. destruct (p x) eqn:Epx.
    + rewrite streak_step_true.
      destruct (IH (S c) (Nat.max m (S c))) as [Hm | [(k & Hk & Hr & Hrun) | (i & k & Hik & Hr & Hrun)]].
      * rewrite Hm. destruct (Nat.max_spec m (S c)) as [[_ ->] | [_ ->]].
        -- right. left. exists 1%nat. split; [simpl; lia|]. split; [lia|].
           intros j y Hj Hy. destruct j; [|lia]. simpl in Hy. congruence.
        -- left. reflexivity.
      * right. left. exists (S k). split; [simpl; lia|]. split; [lia|].
        intros j y Hj Hy. destruct j as [|j]; [simpl in Hy; congruence|].
        apply (Hrun j y); [lia | exact Hy].
      * right. right. exists (S i), k. split; [simpl; lia|]. split; [exact Hr|].
        intros j y Hj Hy. destruct j as [|j]; [lia|]. apply (Hrun j y); [lia | exact Hy].
    + rewrite streak_step_false.
      destruct (IH 0%nat m) as [Hm | [(k & Hk & Hr & Hrun) | (i & k & Hik & Hr & Hrun)]].
      * left. exact Hm.
      * right. right. exists 1%nat, k. split; [simpl; lia|]. split; [lia|].
        intros j y Hj Hy. destruct j as [|j]; [lia|]. apply (Hrun j y); [lia | exact Hy].
      * right. right. exists (S i), k. split; [simpl; lia|]. split; [exact Hr|].
        intros j y Hj Hy. destruct j as [|j]; [lia|]. apply (Hrun j y); [lia | exact Hy].
Qed.

(** The longest streak of the cells that pass a test is the length of the
    longest run of such cells. *)
Lemma longest_streak_is_longest_run (p : val -> bool) (s : list val) :
  let m := longest_streak (astype_int (map p s)) in
  (forall i k, (i + k <= length s)%nat ->
     (forall j x, (i <= j < i + k)%nat -> s !! j = Some x -> p x = true) -> (k <= m)%nat) /\
  (exists i, (i + m <= length s)%nat /\
     forall j x, (i <= j < i + m)%nat -> s !! j = Some x -> p x = true).
Proof.
  cbn zeta. unfold longest_streak. split.
  - intros i k Hik Hrun.
    destruct (streak_fold_bounds p s 0 0 (le_n 0)) as (_ & _ & _ & H4). apply (H4 i k Hik Hrun).
  - destruct (streak_fold_reached p s 0 0)
      as [Hm | [(k & Hk & Hr & Hrun) | (i & k & Hik & Hr & Hrun)]].
    + exists 0%nat. rewrite Hm. split; [lia|]. intros; lia.
    + exists 0%nat. rewrite Hr. split; [simpl; lia|].
      intros j y Hj Hy. apply (Hrun j y); [lia | exact Hy].
    + exists i. rewrite Hr. split; [exact Hik | exact Hrun].
Qed.

(** A run of wins and a run of losses do not overlap. *)
Lemma longest_streaks_sum (returns : list val) :
  (_max_consecutive_wins returns + _max_consecutive_losses returns <= length returns)%nat.
Proof.
  destruct (longest_streak_is_longest_run (fun r => vgt r (Fin 0)) returns) as [_ Hw2].
  destruct (longest_streak_is_longest_run (fun r => vlt r (Fin 0)) returns) as [_ Hl2].
  fold (_max_consecutive_wins returns) in Hw2.
  fold (_max_consecutive_losses returns) in Hl2.
  destruct Hw2 as (i & Hi & Hwin). destruct Hl2 as (i' & Hi' & Hloss).
  destruct (Nat.le_gt_cases (_max_consecutive_wins returns + _max_consecutive_losses returns)
              (length returns)) as [Hle | Hgt]; [exact Hle|].
  exfalso.
  destruct (lookup_lt_is_Some_2 returns (Nat.max i i')) as [r Hr]; [lia|].
  specialize (Hwin (Nat.max i i') r ltac:(lia) Hr).
  specialize (Hloss (Nat.max i i') r ltac:(lia) Hr).
  unfold vgt in Hwin. apply vlt_asym in Hwin. congruence.
Qed.

(** X16.  [_max_consecutive_wins] is the length of the longest run of
    consecutive positive returns: no run is longer, and a run of that length
    exists.  [_max_consecutive_losses] is the same for negative returns.
    The two runs do not overlap, so the two numbers add up to the number of
    returns at most. *)
Theorem max_consecutive_runs (returns : list val) :
  (forall i k, (i + k <= length returns)%nat ->
     (forall j r, (i <= j < i + k)%nat -> returns !! j = Some r -> vgt r (Fin 0) = true) ->
     (k <= _max_consecutive_wins returns)%nat) /\
  (exists i, (i + _max_consecutive_wins returns <= length returns)%nat /\
     forall j r, (i <= j < i + _max_consecutive_wins returns)%nat ->
       returns !! j = Some r -> vgt r (Fin 0) = true) /\
  (forall i k, (i + k <= length returns)%nat ->
     (forall j r, (i <= j < i + k)%nat -> returns !! j = Some r -> vlt r (Fin 0) = true) ->
     (k <= _max_consecutive_losses returns)%nat) /\
  (exists i, (i + _max_consecutive_losses returns <= length returns)%nat /\
     forall j r, (i <= j < i + _max_consecutive_losses returns)%nat ->
       returns !! j = Some r -> vlt r (Fin 0) = true) /\
  (_max_consecutive_wins returns + _max_consecutive_losses returns <= length returns)%nat.
Proof.
  destruct (longest_streak_is_longest_run (fun r => vgt r (Fin 0)) returns) as [Hw1 Hw2].
  destruct (longest_streak_is_longest_run (fun r => vlt r (Fin 0)) returns) as [Hl1 Hl2].
  fold (_max_consecutive_wins returns) in Hw1, Hw2.
  fold (_max_consecutive_losses returns) in Hl1, Hl2.
  split; [exact Hw1|]. split; [exact Hw2|]. split; [exact Hl1|]. split; [exact Hl2|].
  apply longest_streaks_sum.
Qed.

(* ================================================================= *)
(** ** Returns of a series of prices *)

Lemma positive_prices_map (close : list val) :
  positive_prices close -> exists qs, close = map Fin qs /\ Forall (fun q => 0 < q) qs.
Proof.
  induction 1 as [|v close (q & -> & Hq) _ (qs & -> & Hqs)].
  - exists []. split; [reflexivity | constructor].
  - exists (q :: qs). split; [reflexivity | constructor; assumption].
Qed.

Lemma shift_1_cons (x : val) (l : list val) :
  shift 1 (x :: l) = NaN :: take (length l) (x :: l).
Proof. reflexivity. Qed.

Lemma zip_with_take_r {A B C} (f : A -> B -> C) (l : list A) (k : list B) :
  zip_with f l (take (length l) k) = zip_with f l k.
Proof.
  revert k. induction l as [|x l IH]; intros [|y k]; simpl; try reflexivity.
  now rewrite IH.
Qed.

(** The percentage changes of positive prices: nothing for the first bar,
    then one number above -1 per bar. *)
Lemma pct_change_positive (q0 : Q) (qs : list Q) :
  Forall (fun q => 0 < q) (q0 :: qs) ->
  exists rs,
    pct_change 1 (map Fin (q0 :: qs)) = NaN :: map Fin rs /\
    length rs = length qs /\
    Forall (fun r => -1 < r) rs /\
    forall j a b, (q0 :: qs) !! j = Some a -> qs !! j = Some b ->
      exists r, rs !! j = Some r /\ r == b / a - 1.
Proof.
  intros Hpos. unfold pct_change, ffill.
  rewrite ffill_from_no_nan
    by (apply Forall_forall; intros v (q & -> & _)%list_elem_of_fmap; reflexivity).
  cbn [map]. rewrite shift_1_cons. cbn [zip_with map]. rewrite zip_with_take_r.
  change (vsub (vdiv (Fin q0) NaN) (Fin 1)) with NaN.
  assert (Hrs : exists rs,
            map (fun v => vsub v (Fin 1)) (zip_with vdiv (map Fin qs) (Fin q0 :: map Fin qs))
            = map Fin rs /\ length rs = length qs /\ Forall (fun r => -1 < r) rs /\
            forall j a b, (q0 :: qs) !! j = Some a -> qs !! j = Some b ->
              exists r, rs !! j = Some r /\ r == b / a - 1).
  { clear -Hpos. revert q0 Hpos. induction qs as [|q1 qs IH]; intros q0 Hpos.
    - exists []. repeat split; try constructor. intros j a b _ Hb. destruct j; discriminate.
    - apply Forall_cons in Hpos as [H0 Hpos]. pose proof Hpos as Hpos'.
      apply Forall_cons in Hpos' as [H1 _].
      destruct (IH q1 Hpos) as (rs & Hrs & Hlen & Hgt & Hlook).
      cbn [map zip_with]. rewrite Hrs. simpl vdiv.
      replace (Qeq_bool q0 0) with false by (symmetry; apply Qeq_bool_false; lra).
      unfold vsub. simpl. unfold num.
      exists (Qred (Qred (q1 / q0) + Qred (- (1))) :: rs).
      split; [reflexivity|]. split; [simpl; lia|]. split.
      + constructor; [|exact Hgt]. rewrite !Qred_correct.
        assert (0 < q1 / q0) by (apply Qlt_shift_div_l; lra). lra.
      + intros j a b Ha Hb. destruct j as [|j].
        * injection Ha as <-. injection Hb as <-. eexists. split; [reflexivity|].
          rewrite !Qred_correct. lra.
        * apply (Hlook j a b Ha Hb). }
  destruct Hrs as (rs & -> & Hrest). exists rs. split; [reflexivity | exact Hrest].
Qed.

Lemma dropna_cons_nan (l : list val) : dropna (NaN :: l) = dropna l.
Proof. reflexivity. Qed.

Lemma close_returns_positive (close : list val) :
  positive_prices close ->
  exists rs, dropna (pct_change 1 close) = map Fin rs /\
             length rs = (length close - 1)%nat /\ Forall (fun r => -1 < r) rs.
Proof.
  intros (qs & -> & Hqs)%positive_prices_map. destruct qs as [|q0 qs].
  - exists []. split; [reflexivity|]. split; [reflexivity | constructor].
  - destruct (pct_change_positive q0 qs Hqs) as (rs & -> & Hlen & Hgt & _).
    exists rs. rewrite dropna_cons_nan, dropna_map_Fin.
    split; [reflexivity|]. split; [simpl; rewrite length_map; lia | exact Hgt].
Qed.

(* ================================================================= *)
(** ** Performance metrics *)

(** X17.  On a series of positive prices, the performance metrics are the
    empty dict when there are fewer than two bars.  With two bars or more
    they are computed; the total return is (last / first - 1) * 100, is
    above -100, and is positive exactly when the last close is above the
    first; the longest winning and losing streaks together do not exceed the
    number of returns. *)
Theorem performance_metrics_total_return `{NumLib} `{FloatPow} (data : DataFrame)
    (close : list val) :
  col "Close" data = Some close ->
  positive_prices close ->
  ((length close <= 1)%nat -> _calculate_performance_metrics data = Some None) /\
  ((2 <= length close)%nat ->
   exists m a b t,
     _calculate_performance_metrics data = Some (Some m) /\
     head close = Some (Fin a) /\ last close = Some (Fin b) /\
     total_return_pct m = Fin t /\ t == (b / a - 1) * 100 /\
     -100 < t /\ (0 < t <-> a < b) /\
     (max_consecutive_wins m + max_consecutive_losses m <= length close - 1)%nat).
Proof.
  intros Hc Hpos. unfold _calculate_performance_metrics, close_returns. rewrite Hc. obind.
  destruct (close_returns_positive close Hpos) as (rs & Hrs & Hlen & _).
  split; intros Hn.
  - rewrite Hrs, length_map, Hlen.
    replace (length close - 1 =? 0)%nat with true by (symmetry; apply Nat.eqb_eq; lia).
    reflexivity.
  - assert (Hl : length (dropna (pct_change 1 close)) = (length close - 1)%nat)
      by (rewrite Hrs, length_map; exact Hlen).
    rewrite Hl.
    replace (length close - 1 =? 0)%nat with false by (symmetry; apply Nat.eqb_neq; lia).
    destruct (positive_prices_map close Hpos) as (qs & -> & Hqs).
    destruct qs as [|a qs]; [simpl in Hn; lia|].
    destruct (iloc_last_is_Some (map Fin (a :: qs))) as [lastv Hlast]; [simpl; lia|].
    rewrite Hlast. obind. cbn [iloc_first head map]. obind.
    unfold iloc_last in Hlast.
    assert (Hb : exists b, lastv = Fin b /\ 0 < b).
    { rewrite last_lookup in Hlast. rewrite list_lookup_fmap in Hlast.
      destruct ((a :: qs) !! pred (length (map Fin (a :: qs)))) as [b|] eqn:Eb; [|discriminate].
      injection Hlast as <-. exists b. split; [reflexivity|].
      rewrite Forall_lookup in Hqs. apply (Hqs _ _ Eb). }
    destruct Hb as (b & -> & Hbpos). apply Forall_cons in Hqs as [Ha _].
    assert (Ht : vmul (vsub (vdiv (Fin b) (Fin a)) (Fin 1)) (Fin 100)
                 = Fin (Qred (Qred (Qred (b / a) + Qred (- (1))) * 100))).
    { simpl vdiv. replace (Qeq_bool a 0) with false by (symmetry; apply Qeq_bool_false; lra).
      reflexivity. }
    eexists _, a, b, _. split; [reflexivity|]. split; [reflexivity|].
    split; [exact Hlast|]. cbn [total_return_pct max_consecutive_wins max_consecutive_losses].
    split; [exact Ht|]. rewrite !Qred_correct.
    assert (Hq : 0 < b / a) by (apply Qlt_shift_div_l; lra).
    split; [lra|]. split; [lra|]. split.
    + split; intros Hgt.
      * assert (1 < b / a) by lra.
        assert (Hba : b == b / a * a) by (field; lra). nra.
      * assert (1 < b / a); [|lra]. apply Qlt_shift_div_l; lra.
    + pose proof (longest_streaks_sum (dropna (pct_change 1 (map Fin (a :: qs))))) as Hsum.
      rewrite Hl in Hsum. exact Hsum.
Qed.

Lemma performance_metrics_total_return_witness :
  let data := frame_at 0 [100; 110; 121] in
  let close := map Fin [100; 110; 121] in
  ((length close <= 1)%nat ->
   @_calculate_performance_metrics computing_lib computing_pow data = Some None) /\
  ((2 <= length close)%nat ->
   exists m a b t,
     @_calculate_performance_metrics computing_lib computing_pow data = Some (Some m) /\
     head close = Some (Fin a) /\ last close = Some (Fin b) /\
     total_return_pct m = Fin t /\ t == (b / a - 1) * 100 /\
     -100 < t /\ (0 < t <-> a < b) /\
     (max_consecutive_wins m + max_consecutive_losses m <= length close - 1)%nat).
Proof.
  apply (@performance_metrics_total_return computing_lib computing_pow
           (frame_at 0 [100; 110; 121]) (map Fin [100; 110; 121])).
  - reflexivity.
  - repeat constructor; (eexists; split; [reflexivity|]; vm_compute; reflexivity).
Defined.

(* ================================================================= *)
(** ** Validation of loaded data *)

Lemma validate_data_columns (data : DataFrame) :
  _validate_data data = Some tt <->
  df_empty data = false /\ forall c, c ∈ required_columns -> is_Some (col c data).
Proof.
  unfold _validate_data. destruct (df_empty data); [split; [discriminate | intros [? _]; discriminate]|].
  cbv zeta. split.
  - destruct (bool_decide _) eqn:Eb; [|discriminate]. intros _. split; [reflexivity|].
    apply bool_decide_eq_true in Eb. intros c Hc. apply has_col_iff.
    destruct (has_col c data) eqn:Eh; [reflexivity|]. exfalso.
    assert (Hin : c ∈ filter (fun c => has_col c data = false) required_columns)
      by (apply list_elem_of_filter; split; assumption).
    rewrite Eb in Hin. inversion Hin.
  - intros [_ Hcols]. rewrite bool_decide_eq_true_2; [reflexivity|].
    destruct (filter (fun c => has_col c data = false) required_columns) as [|c l] eqn:Ef;
      [reflexivity|].
    assert (Hin : c ∈ filter (fun c => has_col c data = false) required_columns)
      by (rewrite Ef; left).
    apply list_elem_of_filter in Hin as [Hf Hc].
    apply has_col_false in Hf. destruct (Hcols c Hc) as [x Hx]. congruence.
Qed.

(** X18.  [_validate_data] accepts a frame exactly when it is not empty and
    has the Open, High, Low, Close and Volume columns; on a frame it accepts,
    the indicator pipeline of [calculate_all] does not raise for any
    configuration with valid spans. *)
Theorem validated_data_is_analysable `{NumLib} (config : IndicatorConfig) (data : DataFrame) :
  (_validate_data data = Some tt <->
     df_empty data = false /\ forall c, c ∈ required_columns -> is_Some (col c data)) /\
  (_validate_data data = Some tt -> valid_config config ->
     price_frame data /\ exists out, indicator_pipeline config data = Some out).
Proof.
  split; [apply validate_data_columns|].
  intros [_ Hcols]%validate_data_columns Hcfg.
  assert (Hprice : price_frame data).
  { unfold price_frame. repeat split; apply Hcols; apply (bool_decide_unpack _);
      vm_compute; exact I. }
  split; [exact Hprice|]. apply indicator_pipeline_is_Some; assumption.
Qed.

Lemma validated_data_is_analysable_witness :
  (_validate_data example_bars = Some tt <->
     df_empty example_bars = false /\
     forall c, c ∈ required_columns -> is_Some (col c example_bars)) /\
  (_validate_data example_bars = Some tt -> valid_config default_config ->
     price_frame example_bars /\
     exists out, @indicator_pipeline computing_lib default_config example_bars = Some out).
Proof.
  apply (@validated_data_is_analysable computing_lib default_config example_bars).
Defined.

(* ================================================================= *)
(** ** Correlation with a benchmark: ranges *)

Lemma clip_unit_cases (v : val) :
  clip (Fin (-1)) (Fin 1) v = NaN \/
  exists c, clip (Fin (-1)) (Fin 1) v = Fin c /\ -1 <= c <= 1.
Proof.
  unfold clip. destruct v as [| |q|]; simpl.
  - left. reflexivity.
  - right. exists (-1). split; [reflexivity | lra].
  - destruct (Qlt_bool q (-1)) eqn:E1; [right; exists (-1); split; [reflexivity | lra]|].
    destruct (Qlt_bool 1 q) eqn:E2; [right; exists 1; split; [reflexivity | lra]|].
    qbool. right. exists q. split; [reflexivity | lra].
  - right. exists 1. split; [reflexivity | lra].
Qed.

Lemma s_corr_cases `{NumLib} (a b : list val) :
  s_corr a b = NaN \/ exists c, s_corr a b = Fin c /\ -1 <= c <= 1.
Proof.
  unfold s_corr. destruct (_ <? 1)%nat; [left; reflexivity|]. apply clip_unit_cases.
Qed.

(** X19.  When [_calculate_correlations] reports a result, the correlation
    with the benchmark is missing or a number between -1 and 1, and
    r_squared is its square: missing, or a number between 0 and 1. *)
Theorem correlation_within_unit `{NumLib} (data benchmark : DataFrame)
    (r : CorrelationResult) :
  _calculate_correlations data benchmark = Some (Some r) ->
  (correlation_with_benchmark r = NaN \/
   exists c, correlation_with_benchmark r = Fin c /\ -1 <= c <= 1) /\
  r_squared r = vmul (correlation_with_benchmark r) (correlation_with_benchmark r) /\
  (r_squared r = NaN \/ exists q, r_squared r = Fin q /\ 0 <= q <= 1).
Proof.
  unfold _calculate_correlations.
  destruct (df_empty benchmark || negb (df_len data =? df_len benchmark)%nat); [discriminate|].
  destruct (iseries "Close" data) as [close|]; [|discriminate]. obind.
  destruct (iseries "Close" benchmark) as [bclose|]; [|discriminate]. obind.
  destruct (_ <? 10)%nat; [discriminate|].
  intros [= <-]. cbn [correlation_with_benchmark r_squared].
  match goal with |- context [s_corr ?a ?b] => destruct (s_corr_cases a b) as [-> | (c & -> & Hc)] end.
  - split; [left; reflexivity|]. split; [reflexivity|]. left. reflexivity.
  - split; [right; exists c; split; [reflexivity | exact Hc]|]. split; [reflexivity|].
    right. eexists. split; [reflexivity|]. rewrite Qred_correct. nra.
Qed.

Lemma correlation_within_unit_witness :
  (correlation_with_benchmark correlation_example = NaN \/
   exists c, correlation_with_benchmark correlation_example = Fin c /\ -1 <= c <= 1) /\
  r_squared correlation_example
  = vmul (correlation_with_benchmark correlation_example)
         (correlation_with_benchmark correlation_example) /\
  (r_squared correlation_example = NaN \/
   exists q, r_squared correlation_example = Fin q /\ 0 <= q <= 1).
Proof.
  apply (@correlation_within_unit computing_lib (frame_at 0 (ramp 12))
           (frame_at 0 (squares 12)) correlation_example).
  vm_compute. reflexivity.
Defined.

(* ================================================================= *)
(** ** The portfolio: which symbols it needs *)

Lemma dict_set_keys {V} (k : string) (v : V) (d : list (string * V)) :
  (dict_set k v d).*1 = if bool_decide (k ∈ d.*1) then d.*1 else d.*1 ++ [k].
Proof.
  unfold dict_set. destruct (bool_decide (k ∈ d.*1)).
  - induction d as [|[k' v'] d IH]; [reflexivity|].
    cbn [map fmap list_fmap fst]. f_equal; [|exact IH].
    simpl. destruct (bool_decide (k' = k)) eqn:E; [|reflexivity].
    apply bool_decide_eq_true in E. simpl. congruence.
  - rewrite fmap_app. reflexivity.
Qed.

Lemma collect_returns_None (data : gmap string DataFrame) (symbols : list string) :
  fold_left (collect_returns data) symbols None = None.
Proof. induction symbols as [|s l IH]; [reflexivity | exact IH]. Qed.

Lemma not_loaded_has_closes (data : gmap string DataFrame) (s : string) :
  not_loaded data s -> has_closes data s -> False.
Proof.
  intros [Hn | (df & Hd & He)] (df' & Hd' & He' & _); congruence.
Qed.

(** One turn of the loop: the keys stay, or the symbol is appended. *)
Lemma collect_returns_step (data : gmap string DataFrame)
    (acc rd : list (string * list (Z * val))) (s : string) :
  collect_returns data (Some acc) s = Some rd ->
  (not_loaded data s /\ rd = acc) \/
  (has_closes data s /\ rd.*1 = if bool_decide (s ∈ acc.*1) then acc.*1 else acc.*1 ++ [s]).
Proof.
  unfold collect_returns. cbn [mbind option_bind].
  destruct (data !! s) as [df|] eqn:Hd.
  - destruct (df_empty df) eqn:He.
    + intros [= <-]. left. split; [right; exists df; auto | reflexivity].
    + unfold iseries. destruct (col "Close" df) as [c|] eqn:Hc; [|discriminate].
      cbn [mbind option_bind]. intros [= <-]. right. split.
      * exists df. rewrite Hc. eauto.
      * apply dict_set_keys.
  - intros [= <-]. left. split; [left; exact Hd | reflexivity].
Qed.

Lemma collect_returns_fold (data : gmap string DataFrame) (symbols : list string) :
  forall (acc rd : list (string * list (Z * val))),
  fold_left (collect_returns data) symbols (Some acc) = Some rd ->
  NoDup acc.*1 ->
  NoDup rd.*1 /\
  (length rd <= length acc + length symbols)%nat /\
  (forall s, s ∈ acc.*1 -> s ∈ rd.*1) /\
  (forall s, s ∈ symbols -> has_closes data s -> s ∈ rd.*1) /\
  (Forall (not_loaded data) symbols -> rd = acc) /\
  (length rd = (length acc + length symbols)%nat ->
   rd.*1 = acc.*1 ++ symbols /\ Forall (has_closes data) symbols).
Proof.
  induction symbols as [|s l IH]; intros acc rd Hf Hnd.
  - cbn [fold_left] in Hf. injection Hf as <-.
    split; [exact Hnd|]. split; [simpl; lia|]. split; [auto|].
    split; [intros s Hs; inversion Hs|]. split; [reflexivity|].
    intros _. rewrite app_nil_r. split; [reflexivity | constructor].
  - cbn [fold_left] in Hf.
    destruct (collect_returns data (Some acc) s) as [mid|] eqn:Hs;
      [|rewrite collect_returns_None in Hf; discriminate].
    assert (Hmid : NoDup mid.*1 /\ (length mid <= length acc + 1)%nat /\
                   (forall x, x ∈ acc.*1 -> x ∈ mid.*1) /\
                   (has_closes data s -> s ∈ mid.*1) /\
                   (not_loaded data s -> mid = acc) /\
                   (length mid = (length acc + 1)%nat ->
                    mid.*1 = acc.*1 ++ [s] /\ has_closes data s)).
    { destruct (collect_returns_step _ _ _ _ Hs) as [[Hn ->] | [Hh Hk]].
      - split; [exact Hnd|]. split; [lia|]. split; [auto|].
        split; [intros Hh; destruct (not_loaded_has_closes _ _ Hn Hh)|].
        split; [reflexivity|]. intros Hl. lia.
      - assert (Hlen : length mid = length mid.*1) by (rewrite length_fmap; reflexivity).
        assert (Hlen' : length acc = length acc.*1) by (rewrite length_fmap; reflexivity).
        destruct (bool_decide (s ∈ acc.*1)) eqn:Es.
        + apply bool_decide_eq_true in Es. rewrite Hk.
          split; [exact Hnd|]. split; [rewrite Hlen, Hk; lia|]. split; [auto|].
          split; [intros _; exact Es|].
          split; [intros Hn; destruct (not_loaded_has_closes _ _ Hn Hh)|].
          intros Hl. rewrite Hlen, Hk in Hl. lia.
        + apply bool_decide_eq_false in Es. rewrite Hk.
          split.
          { apply NoDup_app. split; [exact Hnd|]. split; [|apply NoDup_singleton].
            intros x Hx Hx'. apply list_elem_of_singleton in Hx'. subst x. auto. }
          split; [rewrite Hlen, Hk, length_app; simpl; lia|].
          split; [intros x Hx; apply elem_of_app; left; exact Hx|].
          split; [intros _; apply elem_of_app; right; apply list_elem_of_singleton; reflexivity|].
          split; [intros Hn; destruct (not_loaded_has_closes _ _ Hn Hh)|].
          intros _. split; [reflexivity | exact Hh]. }
    destruct Hmid as (Hnd' & Hle & Hin & Hhs & Hnl & Hfull).
    destruct (IH mid rd Hf Hnd') as (R1 & R2 & R3 & R4 & R5 & R6).
    split; [exact R1|]. split; [cbn [length]; lia|].
    split; [intros x Hx; apply R3, Hin, Hx|].
    split.
    { intros x Hx Hh. apply elem_of_cons in Hx as [-> | Hx].
      - apply R3, Hhs, Hh.
      - apply R4; assumption. }
    split.
    { intros Hall. apply Forall_cons in Hall as [Hs1 Hl]. rewrite (R5 Hl). apply Hnl, Hs1. }
    intros Hl. cbn [length] in Hl.
    destruct (R6 ltac:(lia)) as [Hk Hall].
    destruct (Hfull ltac:(lia)) as [Hk' Hh].
    split; [rewrite Hk, Hk', <- app_assoc; reflexivity|].
    constructor; assumption.
Qed.

Lemma vmul_comm (a b : val) : vmul a b = vmul b a.
Proof.
  destruct a as [| |x|], b as [| |y|]; try reflexivity.
  simpl. unfold num. f_equal. apply Qred_complete. ring.
Qed.

Lemma codeviation_sym (a b : list val) : codeviation a b = codeviation b a.
Proof.
  unfold codeviation. cbv zeta. f_equal.
  rewrite <- zip_with_flip. apply zip_with_ext; [|reflexivity|reflexivity].
  intros x y. unfold flip. apply vmul_comm.
Qed.

Lemma pandas_corr_sym `{NumLib} (a b : list val) :
  length a = length b -> pandas_corr a b = pandas_corr b a.
Proof.
  intros Hl. unfold pandas_corr. rewrite Hl, (codeviation_sym a b).
  rewrite (vmul_comm (codeviation a a)). reflexivity.
Qed.

Lemma corr_matrix_entry `{NumLib} (n : nat) (rows : list (list val)) (i j : nat)
    (ri : list val) (x : val) :
  corr_matrix n rows !! i = Some ri -> ri !! j = Some x ->
  x = pandas_corr (column_of i rows) (column_of j rows).
Proof.
  unfold corr_matrix. intros Hi Hj.
  rewrite list_lookup_fmap in Hi.
  destruct (seq 0 n !! i) as [i'|] eqn:Ei; [|discriminate].
  apply lookup_seq in Ei as [-> _]. simpl in Hi. injection Hi as <-.
  rewrite list_lookup_fmap in Hj.
  destruct (seq 0 n !! j) as [j'|] eqn:Ej; [|discriminate].
  apply lookup_seq in Ej as [-> _]. simpl in Hj. injection Hj as <-. reflexivity.
Qed.

Lemma corr_matrix_symmetric `{NumLib} (n : nat) (rows : list (list val)) :
  symmetric_table n (corr_matrix n rows).
Proof.
  split; [unfold corr_matrix; rewrite length_map, length_seq; reflexivity|].
  split.
  - unfold corr_matrix. apply Forall_forall. intros row Hr.
    apply list_elem_of_fmap in Hr as (i & -> & _).
    rewrite length_map, length_seq. reflexivity.
  - intros i j ri rj x y Hi Hx Hj Hy.
    rewrite (corr_matrix_entry _ _ _ _ _ _ Hi Hx), (corr_matrix_entry _ _ _ _ _ _ Hj Hy).
    apply pandas_corr_sym. unfold column_of. rewrite !length_map. reflexivity.
Qed.

(** What a reported snapshot says about the loop that collected the returns. *)
Lemma analyze_portfolio_snapshot `{NumLib} (data : gmap string DataFrame)
    (symbols : list string) (snap : PortfolioSnapshot) :
  _analyze_portfolio data symbols = Some (Some snap) ->
  exists rd, fold_left (collect_returns data) symbols (Some []) = Some rd /\
             length rd = length symbols /\
             portfolio_symbols snap = rd.*1 /\
             correlation_matrix snap
             = corr_matrix (length rd) (dropna_rows (frame_rows rd.*2)).
Proof.
  unfold _analyze_portfolio.
  destruct (fold_left (collect_returns data) symbols (Some [])) as [rd|]; [|discriminate].
  cbn [mbind option_bind].
  destruct (bool_decide (rd = [])); [discriminate|].
  destruct (pca_explained_variance_ratio _ _) as [evr|]; [|discriminate].
  cbn [mbind option_bind].
  destruct (length rd =? length symbols)%nat eqn:E; [|discriminate].
  apply Nat.eqb_eq in E. cbn [negb]. intros [= <-].
  exists rd. cbn [portfolio_symbols correlation_matrix]. auto.
Qed.

Lemma analyze_portfolio_reported `{NumLib} (data : gmap string DataFrame)
    (symbols : list string) (snap : PortfolioSnapshot) :
  _analyze_portfolio data symbols = Some (Some snap) ->
  NoDup symbols /\ Forall (has_closes data) symbols /\
  portfolio_symbols snap = symbols /\
  symmetric_table (length symbols) (correlation_matrix snap).
Proof.
  intros Hs.
  destruct (analyze_portfolio_snapshot _ _ _ Hs) as (rd & Hf & Hl & Hk & Hm).
  destruct (collect_returns_fold _ _ _ _ Hf (NoDup_nil_2 : NoDup ([] : list (string * list (Z * val))).*1))
    as (Hnd & _ & _ & _ & _ & Hfull).
  destruct (Hfull Hl) as [Hkeys Hall]. simpl in Hkeys.
  split; [rewrite <- Hkeys; exact Hnd|]. split; [exact Hall|].
  split; [congruence|]. rewrite Hm, <- Hl. apply corr_matrix_symmetric.
Qed.

Lemma collect_returns_nothing_loaded (data : gmap string DataFrame) (symbols : list string) :
  Forall (not_loaded data) symbols ->
  forall acc, fold_left (collect_returns data) symbols (Some acc) = Some acc.
Proof.
  induction 1 as [|s l Hs Hl IH]; intros acc; [reflexivity|].
  cbn [fold_left].
  assert (Hstep : collect_returns data (Some acc) s = Some acc).
  { unfold collect_returns. cbn [mbind option_bind].
    destruct Hs as [-> | (df & -> & ->)]; reflexivity. }
  rewrite Hstep. apply IH.
Qed.

Lemma analyze_portfolio_nothing_loaded `{NumLib} (data : gmap string DataFrame)
    (symbols : list string) :
  Forall (not_loaded data) symbols -> _analyze_portfolio data symbols = Some None.
Proof.
  intros Hall. unfold _analyze_portfolio.
  rewrite (collect_returns_nothing_loaded _ _ Hall). reflexivity.
Qed.

(** A listed symbol with closes beside one without data, or a symbol listed
    twice: the call raises. *)
Lemma analyze_portfolio_raises `{NumLib} (data : gmap string DataFrame)
    (symbols : list string) (s : string) :
  s ∈ symbols -> has_closes data s ->
  (exists s', s' ∈ symbols /\ not_loaded data s') \/ ~ NoDup symbols ->
  _analyze_portfolio data symbols = None.
Proof.
  intros Hs Hh Hbad.
  destruct (_analyze_portfolio data symbols) as [[snap|]|] eqn:Hr; [| |reflexivity].
  - exfalso. destruct (analyze_portfolio_reported _ _ _ Hr) as (Hnd & Hall & _).
    destruct Hbad as [(s' & Hs' & Hn) | Hdup]; [|exact (Hdup Hnd)].
    rewrite Forall_forall in Hall. exact (not_loaded_has_closes _ _ Hn (Hall _ Hs')).
  - exfalso. revert Hr. unfold _analyze_portfolio.
    destruct (fold_left (collect_returns data) symbols (Some [])) as [rd|] eqn:Hf; [|discriminate].
    destruct (collect_returns_fold _ _ _ _ Hf (NoDup_nil_2 : NoDup ([] : list (string * list (Z * val))).*1))
      as (_ & _ & _ & Hin & _).
    specialize (Hin s Hs Hh). cbn [mbind option_bind].
    destruct (bool_decide (rd = [])) eqn:E.
    + apply bool_decide_eq_true in E. subst rd. inversion Hin.
    + destruct (pca_explained_variance_ratio _ _); cbn [mbind option_bind]; [|discriminate].
      destruct (negb _); discriminate.
Qed.

(** X20.  [_analyze_portfolio] needs every listed symbol: it returns the
    empty dict when nothing was loaded for any of them; a snapshot it
    reports is over exactly the listed symbols, which are then distinct and
    all loaded with closes, and its correlation matrix is square and
    symmetric; and when some listed symbol has closes while another was not
    loaded, or the list names a symbol twice, the call raises. *)
Theorem portfolio_needs_every_symbol `{NumLib} (data : gmap string DataFrame)
    (symbols : list string) :
  (Forall (not_loaded data) symbols -> _analyze_portfolio data symbols = Some None) /\
  (forall snap, _analyze_portfolio data symbols = Some (Some snap) ->
     NoDup symbols /\ Forall (has_closes data) symbols /\
     portfolio_symbols snap = symbols /\
     symmetric_table (length symbols) (correlation_matrix snap)) /\
  (forall s, s ∈ symbols -> has_closes data s ->
     (exists s', s' ∈ symbols /\ not_loaded data s') \/ ~ NoDup symbols ->
     _analyze_portfolio data symbols = None).
Proof.
  split; [apply analyze_portfolio_nothing_loaded|].
  split; [apply analyze_portfolio_reported | apply analyze_portfolio_raises].
Qed.

Lemma portfolio_needs_every_symbol_witness :
  (NoDup ["A"; "B"] /\ Forall (has_closes uncorrelated_portfolio) ["A"; "B"] /\
   portfolio_symbols uncorrelated_snapshot = ["A"; "B"] /\
   symmetric_table 2 (correlation_matrix uncorrelated_snapshot)) /\
  @_analyze_portfolio computing_lib (<["A" := frame_at 0 [100; 110; 121]]> ∅) ["A"; "B"] = None.
Proof.
  split.
  - apply (proj1 (proj2 (@portfolio_needs_every_symbol computing_lib
                           uncorrelated_portfolio ["A"; "B"])) uncorrelated_snapshot).
    vm_compute. reflexivity.
  - apply (proj2 (proj2 (@portfolio_needs_every_symbol computing_lib
                           (<["A" := frame_at 0 [100; 110; 121]]> ∅) ["A"; "B"])) "A").
    + apply (bool_decide_unpack _). vm_compute. exact I.
    + eexists. split; [vm_compute; reflexivity|]. split; [reflexivity|].
      eexists. vm_compute. reflexivity.
    + left. exists "B". split; [apply (bool_decide_unpack _); vm_compute; exact I|].
      left. vm_compute. reflexivity.
Defined.

(* ================================================================= *)
(** ** The analysis of a batch of symbols *)

Lemma risk_metrics_is_Some `{NumLib} (data : DataFrame) :
  is_Some (col "Close" data) -> is_Some (_calculate_risk_metrics data).
Proof.
  intros [close Hc]. unfold _calculate_risk_metrics, close_returns. rewrite Hc.
  cbn [mbind option_bind]. destruct (_ <? 30)%nat; eexists; reflexivity.
Qed.

Lemma detect_market_regime_is_Some `{NumLib} (data : DataFrame) :
  is_Some (col "Close" data) -> is_Some (_detect_market_regime data).
Proof.
  intros [close Hclose].
  assert (Hret : close_returns data = Some (dropna (pct_change 1 close))).
  { unfold close_returns. rewrite Hclose. reflexivity. }
  destruct (close_returns_length _ _ Hret) as (close' & Hclose' & Hlen).
  rewrite Hclose in Hclose'. injection Hclose' as <-.
  set (returns := dropna (pct_change 1 close)) in *.
  unfold _detect_market_regime. rewrite Hret. cbn [mbind option_bind].
  destruct (length returns <? 20)%nat eqn:Hn; [eexists; reflexivity|].
  apply Nat.ltb_ge in Hn.
  destruct (iloc_last_is_Some (rolling 20 agg_std returns)) as [sd ->].
  { rewrite length_rolling. lia. }
  cbn [mbind option_bind]. rewrite Hclose. cbn [mbind option_bind].
  rewrite (length_tail_slice 20 returns) by lia.
  destruct (linregress_slope_arange (tail_slice 20 close)) as [slope ->].
  { apply length_tail_slice. lia. }
  cbn [mbind option_bind].
  destruct (iloc_last_is_Some close) as [last_close ->]; [lia|].
  cbn [mbind option_bind]. eexists. reflexivity.
Qed.

Lemma support_resistance_is_Some (w : nat) (df : DataFrame) :
  is_Some (col "High" df) -> is_Some (col "Low" df) ->
  is_Some (calculate_support_resistance w df).
Proof.
  intros [high Hh] [low Hl]. unfold calculate_support_resistance.
  rewrite Hh. cbn [mbind option_bind]. rewrite Hl. cbn [mbind option_bind].
  eexists. reflexivity.
Qed.

Lemma correlations_is_Some `{NumLib} (data benchmark : DataFrame) :
  is_Some (col "Close" data) ->
  (df_empty benchmark = false -> is_Some (col "Close" benchmark)) ->
  is_Some (_calculate_correlations data benchmark).
Proof.
  intros [close Hc] Hb. unfold _calculate_correlations.
  destruct (df_empty benchmark) eqn:He; [eexists; reflexivity|].
  destruct (Hb eq_refl) as [bclose Hbc]. cbn [orb].
  destruct (negb _); [eexists; reflexivity|].
  unfold iseries. rewrite Hc, Hbc. cbn [mbind option_bind].
  destruct (_ <? 10)%nat; eexists; reflexivity.
Qed.

Lemma performance_metrics_is_Some `{NumLib} `{FloatPow} (data : DataFrame) :
  is_Some (col "Close" data) -> is_Some (_calculate_performance_metrics data).
Proof.
  intros [close Hclose].
  assert (Hret : close_returns data = Some (dropna (pct_change 1 close))).
  { unfold close_returns. rewrite Hclose. reflexivity. }
  destruct (close_returns_length _ _ Hret) as (close' & Hclose' & Hlen).
  rewrite Hclose in Hclose'. injection Hclose' as <-.
  set (returns := dropna (pct_change 1 close)) in *.
  unfold _calculate_performance_metrics. rewrite Hret. cbn [mbind option_bind].
  destruct (length returns =? 0)%nat eqn:Hn; [eexists; reflexivity|].
  apply Nat.eqb_neq in Hn. rewrite Hclose. cbn [mbind option_bind].
  destruct (iloc_last_is_Some close) as [last_close ->]; [lia|].
  cbn [mbind option_bind]. unfold iloc_first.
  assert (Hpos : (0 < length close)%nat) by lia.
  destruct (head close) as [first_close|] eqn:Eh.
  - cbn [mbind option_bind]. eexists. reflexivity.
  - apply head_None in Eh. rewrite Eh in Hpos. simpl in Hpos. lia.
Qed.


Lemma analyze_symbol_is_Some `{NumLib} `{FloatPow} (config : IndicatorConfig)
    (data : gmap string DataFrame) (benchmark : string) (df : DataFrame) :
  valid_config config -> benchmark_usable data benchmark ->
  price_frame df -> aligned df -> df_empty df = false ->
  is_Some (analyze_symbol config data benchmark df).
Proof.
  intros Hcfg Hb Hprice Hal He. unfold analyze_symbol.
  destruct (indicator_pipeline_is_Some config df Hcfg Hprice) as [out Hout].
  rewrite Hout. cbn [mbind option_bind].
  destruct (indicator_pipeline_writes config df out Hout) as (Hi & Ha & Hc).
  assert (Hreq : forall name, name ∈ required_columns -> col name out = col name df).
  { intros name Hreq. apply Hc, not_indicator_column, Hreq. }
  destruct Hprice as (Hclose & Hhigh & Hlow & _).
  rewrite <- (Hreq "Close") in Hclose by in_list.
  rewrite <- (Hreq "High") in Hhigh by in_list.
  rewrite <- (Hreq "Low") in Hlow by in_list.
  assert (Hlen : df_len out <> 0%nat).
  { unfold df_len. rewrite Hi. unfold df_empty in He.
    apply orb_false_elim in He as [_ He]. apply Nat.eqb_neq in He. exact He. }
  destruct Hclose as [close Hclose].
  destruct (technical_summary_entries out close (Ha Hal) Hlen Hclose) as (ti & _ & -> & _).
  cbn [mbind option_bind].
  destruct (risk_metrics_is_Some out (ex_intro _ close Hclose)) as [rm ->].
  cbn [mbind option_bind].
  destruct (detect_market_regime_is_Some out (ex_intro _ close Hclose)) as [mr ->].
  cbn [mbind option_bind].
  destruct (support_resistance_is_Some 20 out Hhigh Hlow) as [sr ->].
  cbn [mbind option_bind].
  destruct (correlations_is_Some out (default empty_frame (data !! benchmark))
              (ex_intro _ close Hclose)) as [co ->].
  { destruct (data !! benchmark) as [b|] eqn:Eb; [exact (Hb b Eb)|].
    simpl. intros Hne. vm_compute in Hne. discriminate. }
  cbn [mbind option_bind].
  destruct (performance_metrics_is_Some out (ex_intro _ close Hclose)) as [pm ->].
  cbn [mbind option_bind]. eexists. reflexivity.
Qed.

Lemma dict_set_key_iff {V} (k : string) (v : V) (d : list (string * V)) (x : string) :
  x ∈ (dict_set k v d).*1 <-> x ∈ d.*1 \/ x = k.
Proof.
  rewrite dict_set_keys. destruct (bool_decide (k ∈ d.*1)) eqn:E.
  - apply bool_decide_eq_true in E. split; [auto | intros [Hx | ->]; assumption].
  - rewrite elem_of_app, list_elem_of_singleton. reflexivity.
Qed.

Lemma analyze_step_None `{NumLib} `{FloatPow} (config : IndicatorConfig)
    (data : gmap string DataFrame) (benchmark : string) (symbols : list string) :
  fold_left (analyze_step config data benchmark) symbols None = None.
Proof. induction symbols as [|s l IH]; [reflexivity | exact IH]. Qed.

(** The loop over the symbols does not raise on valid frames; it enters the
    symbols that were loaded with bars. *)
Lemma analyze_step_fold `{NumLib} `{FloatPow} (config : IndicatorConfig)
    (data : gmap string DataFrame) (benchmark : string) (symbols : list string) :
  valid_config config -> benchmark_usable data benchmark ->
  loaded_frames_valid data symbols ->
  forall acc, exists res,
    fold_left (analyze_step config data benchmark) symbols (Some acc) = Some res /\
    forall k, k ∈ res.*1 <-> k ∈ acc.*1 \/ (k ∈ symbols /\ loaded data k).
Proof.
  intros Hcfg Hb. induction symbols as [|s l IH]; intros Hok acc.
  - exists acc. split; [reflexivity|]. intros k. split; [auto|].
    intros [Hk | [Hk _]]; [exact Hk | inversion Hk].
  - assert (Hok' : loaded_frames_valid data l).
    { intros s' df Hs'. apply Hok. apply elem_of_cons. right. exact Hs'. }
    cbn [fold_left].
    assert (Hstep : exists mid, analyze_step config data benchmark (Some acc) s = Some mid /\
                    forall k, k ∈ mid.*1 <-> k ∈ acc.*1 \/ (k = s /\ loaded data k)).
    { unfold analyze_step. cbn [mbind option_bind].
      destruct (data !! s) as [df|] eqn:Hd.
      - destruct (df_empty df) eqn:He.
        + exists acc. split; [reflexivity|]. intros k. split; [auto|].
          intros [Hk | [-> (df' & Hd' & He')]]; [exact Hk | congruence].
        + destruct (Hok s df) as [Hprice Hal]; [apply elem_of_cons; left; reflexivity|exact Hd|exact He|].
          destruct (analyze_symbol_is_Some config data benchmark df Hcfg Hb Hprice Hal He)
            as [a ->].
          cbn [mbind option_bind]. eexists. split; [reflexivity|].
          intros k. rewrite dict_set_key_iff. split.
          * intros [Hk | ->]; [left; exact Hk | right; split; [reflexivity | exists df; auto]].
          * intros [Hk | [-> _]]; [left; exact Hk | right; reflexivity].
      - exists acc. split; [reflexivity|]. intros k. split; [auto|].
        intros [Hk | [-> (df' & Hd' & _)]]; [exact Hk | congruence]. }
    destruct Hstep as (mid & -> & Hmid).
    destruct (IH Hok' mid) as (res & Hres & Hkeys).
    exists res. split; [exact Hres|].
    intros k. rewrite Hkeys, Hmid, elem_of_cons. split.
    + intros [[Hk | [-> Hl]] | [Hk Hl]]; auto.
    + intros [Hk | [[-> | Hk] Hl]]; auto.
Qed.

(** X21.  When every listed symbol that was loaded is a price series with one
    cell per row, the indicator spans are valid and a loaded benchmark has
    closes, the analysis of the symbols themselves never raises:
    [analyze_market] raises only for two or more symbols, and then exactly
    when the portfolio step raises.  The result has an entry for a listed
    symbol exactly when bars were loaded for it. *)
Theorem analyze_market_on_valid_frames `{NumLib} `{FloatPow} (config : IndicatorConfig)
    (data : gmap string DataFrame) (symbols : list string) (benchmark : string) :
  valid_config config -> benchmark_usable data benchmark ->
  loaded_frames_valid data symbols ->
  (analyze_market config data symbols benchmark = None <->
     (2 <= length symbols)%nat /\ _analyze_portfolio data symbols = None) /\
  (forall res, analyze_market config data symbols benchmark = Some res ->
     (forall s, s <> "portfolio_analysis" ->
                (s ∈ res.*1 <-> s ∈ symbols /\ loaded data s)) /\
     ((2 <= length symbols)%nat -> "portfolio_analysis" ∈ res.*1)).
Proof.
  intros Hcfg Hb Hok.
  destruct (analyze_step_fold config data benchmark symbols Hcfg Hb Hok [])
    as (res0 & Hfold & Hkeys).
  assert (Hkeys0 : forall k, k ∈ res0.*1 <-> k ∈ symbols /\ loaded data k).
  { intros k. rewrite Hkeys. split; [intros [Hk | Hk]; [inversion Hk | exact Hk] | auto]. }
  unfold analyze_market. rewrite Hfold. cbn [mbind option_bind].
  destruct (1 <? length symbols)%nat eqn:En.
  - apply Nat.ltb_lt in En.
    destruct (_analyze_portfolio data symbols) as [p|]; cbn [mbind option_bind].
    + split; [split; [discriminate | intros [_ ?]; discriminate]|].
      intros res [= <-]. split.
      * intros s Hs. rewrite dict_set_key_iff, Hkeys0. split; [|auto].
        intros [Hk | Hk]; [exact Hk | contradiction].
      * intros _. apply dict_set_key_iff. right. reflexivity.
    + split; [split; [intros _; split; [lia | reflexivity] | reflexivity]|].
      intros res Hres. discriminate.
  - apply Nat.ltb_ge in En.
    split; [split; [discriminate | intros [? _]; lia]|].
    intros res [= <-]. split; [intros s _; apply Hkeys0 | intros ?; lia].
Qed.

Lemma analyze_market_on_valid_frames_witness :
  let data : gmap string DataFrame := <["A" := example_bars]> ∅ in
  (@analyze_market computing_lib computing_pow default_config data ["A"] "SPY" = None <->
     (2 <= length ["A"])%nat /\ @_analyze_portfolio computing_lib data ["A"] = None) /\
  (forall res,
     @analyze_market computing_lib computing_pow default_config data ["A"] "SPY" = Some res ->
     (forall s, s <> "portfolio_analysis" ->
                (s ∈ res.*1 <-> s ∈ ["A"] /\ loaded data s)) /\
     ((2 <= length ["A"])%nat -> "portfolio_analysis" ∈ res.*1)).
Proof.
  apply (@analyze_market_on_valid_frames computing_lib computing_pow default_config
           (<["A" := example_bars]> ∅) ["A"] "SPY").
  - exact default_config_valid.
  - intros b Hb. vm_compute in Hb. discriminate.
  - intros s df Hs Hd He. apply list_elem_of_singleton in Hs. subst s.
    rewrite lookup_insert_eq in Hd. injection Hd as <-.
    split; [exact example_prices_frame | exact example_bars_aligned].
Defined.

Lemma two_symbols (symbols : list string) (s : string) (data : gmap string DataFrame) :
  s ∈ symbols -> has_closes data s ->
  (exists s', s' ∈ symbols /\ not_loaded data s') \/ ~ NoDup symbols ->
  (2 <= length symbols)%nat.
Proof.
  intros Hs Hh Hbad. destruct symbols as [|a [|b l]]; [inversion Hs| |simpl; lia].
  exfalso. apply list_elem_of_singleton in Hs. subst a.
  destruct Hbad as [(s' & Hs' & Hn) | Hdup].
  - apply list_elem_of_singleton in Hs'. subst s'. exact (not_loaded_has_closes _ _ Hn Hh).
  - apply Hdup, NoDup_singleton.
Qed.

(** X22.  One symbol without data spoils a batch: when a listed symbol has
    closes and another listed symbol was not loaded (or a symbol is listed
    twice), [analyze_market] raises, whatever the other frames hold. *)
Theorem analyze_market_needs_every_symbol `{NumLib} `{FloatPow} (config : IndicatorConfig)
    (data : gmap string DataFrame) (symbols : list string) (benchmark s : string) :
  s ∈ symbols -> has_closes data s ->
  (exists s', s' ∈ symbols /\ not_loaded data s') \/ ~ NoDup symbols ->
  analyze_market config data symbols benchmark = None.
Proof.
  intros Hs Hh Hbad. pose proof (two_symbols _ _ _ Hs Hh Hbad) as Hlen.
  unfold analyze_market.
  destruct (fold_left _ symbols (Some [])) as [res|]; [|reflexivity].
  cbn [mbind option_bind].
  replace (1 <? length symbols)%nat with true by (symmetry; apply Nat.ltb_lt; lia).
  rewrite (analyze_portfolio_raises data symbols s Hs Hh Hbad). reflexivity.
Qed.

Lemma analyze_market_needs_every_symbol_witness :
  @analyze_market computing_lib computing_pow default_config
     (<["A" := example_bars]> (<["B" := empty_frame]> ∅)) ["A"; "B"] "SPY" = None.
Proof.
  apply (@analyze_market_needs_every_symbol computing_lib computing_pow default_config
           (<["A" := example_bars]> (<["B" := empty_frame]> ∅)) ["A"; "B"] "SPY" "A").
  - in_list.
  - exists example_bars. split; [apply lookup_insert_eq|]. split; [reflexivity|].
    apply example_prices_frame.
  - left. exists "B". split; [in_list|]. right. exists empty_frame.
    split; [vm_compute; reflexivity | reflexivity].
Defined.

(* ================================================================= *)
(** ** Loading a batch of symbols *)

Lemma dict_set_NoDup {V} (k : string) (v : V) (d : list (string * V)) :
  NoDup d.*1 -> NoDup (dict_set k v d).*1.
Proof.
  intros Hnd. rewrite dict_set_keys. destruct (bool_decide (k ∈ d.*1)) eqn:E; [exact Hnd|].
  apply bool_decide_eq_false in E. apply NoDup_app. split; [exact Hnd|].
  split; [|apply NoDup_singleton].
  intros x Hx Hx'. apply list_elem_of_singleton in Hx'. subst x. auto.
Qed.

Lemma dict_set_elem {V} (k : string) (v : V) (d : list (string * V)) (e : string * V) :
  e ∈ dict_set k v d -> e ∈ d \/ e = (k, v).
Proof.
  unfold dict_set. destruct (bool_decide (k ∈ d.*1)).
  - intros He. apply list_elem_of_fmap in He as (e' & -> & He').
    destruct (bool_decide (e'.1 = k)); auto.
  - rewrite elem_of_app, list_elem_of_singleton. auto.
Qed.

Lemma list_to_map_replace {V} (k : string) (v : V) (d : list (string * V)) :
  list_to_map (map (fun e => if bool_decide (e.1 = k) then (k, v) else e) d)
  =@{gmap string V}
  if bool_decide (k ∈ d.*1) then <[k := v]> (list_to_map d) else list_to_map d.
Proof.
  induction d as [|[k' v'] d IH]; [reflexivity|].
  cbn [map fst]. destruct (bool_decide (k' = k)) eqn:Ek; cbv iota.
  - apply bool_decide_eq_true in Ek. subst k'.
    rewrite !(list_to_map_cons (M:=gmap string)), IH.
    rewrite (bool_decide_eq_true_2 (k ∈ ((k, v') :: d).*1))
      by (apply elem_of_cons; left; reflexivity).
    destruct (bool_decide (k ∈ d.*1)); rewrite !insert_insert_eq; reflexivity.
  - apply bool_decide_eq_false in Ek.
    rewrite !(list_to_map_cons (M:=gmap string)), IH.
    destruct (bool_decide (k ∈ d.*1)) eqn:Ed.
    + apply bool_decide_eq_true in Ed.
      rewrite (bool_decide_eq_true_2 (k ∈ ((k', v') :: d).*1))
        by (apply elem_of_cons; right; exact Ed).
      apply insert_insert_ne. congruence.
    + apply bool_decide_eq_false in Ed.
      rewrite (bool_decide_eq_false_2 (k ∈ ((k', v') :: d).*1)); [reflexivity|].
      intros [Hk | Hk]%elem_of_cons; [simpl in Hk; congruence | exact (Ed Hk)].
Qed.

(** The dict as a map: an assignment is an insertion. *)
Lemma list_to_map_dict_set {V} (k : string) (v : V) (d : list (string * V)) :
  list_to_map (dict_set k v d) =@{gmap string V} <[k := v]> (list_to_map d).
Proof.
  unfold dict_set. destruct (bool_decide (k ∈ d.*1)) eqn:E.
  - rewrite list_to_map_replace, E. reflexivity.
  - apply bool_decide_eq_false in E. apply list_to_map_snoc, E.
Qed.

(** Where the frame of a successful [try] comes from. *)
Lemma try_load_Some `{DataWorld W} (start_date end_date source : string) (use_cache : bool)
    (symbol : string) (w : W) (df : DataFrame) :
  (try_load start_date end_date source use_cache symbol w).1 = Some df ->
  (use_cache = true /\
   (_get_cached_data symbol start_date end_date source w).1 = Some df) \/
  (exists src w0, sources source = Some src /\
                  (fetch_data src symbol start_date end_date w0).1 = Some df /\
                  _validate_data df = Some tt).
Proof.
  unfold try_load. destruct use_cache.
  - destruct (_get_cached_data symbol start_date end_date source w) as [[cached|] w1] eqn:Ec.
    + simpl. intros [= <-]. left. split; reflexivity.
    + destruct (sources source) as [src|]; [|discriminate].
      destruct (fetch_data src symbol start_date end_date w1) as [[data|] w2] eqn:Ef;
        [|discriminate].
      destruct (_validate_data data) as [[]|] eqn:Ev; [|discriminate].
      simpl. intros [= <-]. right. exists src, w1. rewrite Ef. auto.
  - destruct (sources source) as [src|]; [|discriminate].
    destruct (fetch_data src symbol start_date end_date w) as [[data|] w2] eqn:Ef;
      [|discriminate].
    destruct (_validate_data data) as [[]|] eqn:Ev; [|discriminate].
    simpl. intros [= <-]. right. exists src, w. rewrite Ef. auto.
Qed.

(** The loop of [load_data]: the keys are those assigned, each entry is the
    frame of a [try] or the empty frame of its handler, and the entry of a
    listed symbol is that of some turn for it. *)
Lemma load_symbol_fold `{DataWorld W} (start_date end_date source : string) (use_cache : bool)
    (symbols : list string) :
  forall (acc res : list (string * DataFrame)) (w w' : W),
  fold_left (load_symbol start_date end_date source use_cache) symbols (acc, w) = (res, w') ->
  (NoDup acc.*1 -> NoDup res.*1) /\
  (forall k, k ∈ res.*1 <-> k ∈ acc.*1 \/ k ∈ symbols) /\
  (forall s df, (s, df) ∈ res ->
     (s, df) ∈ acc \/
     (s ∈ symbols /\ exists w0,
        df = default empty_frame (try_load start_date end_date source use_cache s w0).1)) /\
  (forall s, s ∈ symbols -> exists w0,
     (list_to_map res : gmap string DataFrame) !! s
     = Some (default empty_frame (try_load start_date end_date source use_cache s w0).1)) /\
  (forall s, s ∉ symbols ->
     (list_to_map res : gmap string DataFrame) !! s = (list_to_map acc : gmap string DataFrame) !! s).
Proof.
  induction symbols as [|s l IH]; intros acc res w w' Hf.
  - cbn [fold_left] in Hf. injection Hf as <- <-.
    split; [auto|]. split.
    { intros k. split; [auto | intros [Hk | Hk]; [exact Hk | inversion Hk]]. }
    split; [auto|]. split; [intros s Hs; inversion Hs | reflexivity].
  - cbn [fold_left] in Hf. unfold load_symbol at 2 in Hf.
    destruct (try_load start_date end_date source use_cache s w) as [r w1] eqn:Et.
    destruct (IH _ _ _ _ Hf) as (Hnd & Hkeys & Hfrom & Hin & Hout).
    split; [intros Ha; apply Hnd, dict_set_NoDup, Ha|].
    split.
    { intros k. rewrite Hkeys, dict_set_key_iff, elem_of_cons. tauto. }
    split.
    { intros s0 df Hs0. destruct (Hfrom s0 df Hs0) as [Hacc | (Hl & w0 & Hw0)].
      - apply dict_set_elem in Hacc as [Hacc | Heq]; [left; exact Hacc|].
        injection Heq as -> ->. right. split; [apply elem_of_cons; left; reflexivity|].
        exists w. rewrite Et. reflexivity.
      - right. split; [apply elem_of_cons; right; exact Hl|]. exists w0. exact Hw0. }
    split.
    { intros s0 Hs0. destruct (decide (s0 ∈ l)) as [Hl | Hl]; [exact (Hin s0 Hl)|].
      apply elem_of_cons in Hs0 as [-> | Hs0]; [|contradiction].
      exists w. rewrite (Hout s Hl), list_to_map_dict_set, lookup_insert_eq, Et. reflexivity. }
    intros s0 Hs0. apply not_elem_of_cons in Hs0 as [Hne Hl].
    rewrite (Hout s0 Hl), list_to_map_dict_set. apply lookup_insert_ne. congruence.
Qed.

(** X23.  [load_data] returns one entry for each distinct requested symbol
    and no other.  An entry is the empty frame, or a frame a known source
    returned and [_validate_data] accepted, or, with the cache in use, a
    frame read from the cache, which is not validated. *)
Theorem load_data_entries `{DataWorld W} (symbols : list string)
    (start_date end_date source : string) (use_cache : bool) (w : W) :
  let results := (load_data symbols start_date end_date source use_cache w).1 in
  NoDup results.*1 /\
  (forall s, s ∈ results.*1 <-> s ∈ symbols) /\
  (forall s df, (s, df) ∈ results ->
     df = empty_frame \/
     (exists src w0, sources source = Some src /\
                     (fetch_data src s start_date end_date w0).1 = Some df /\
                     _validate_data df = Some tt) \/
     (use_cache = true /\
      exists w0, (_get_cached_data s start_date end_date source w0).1 = Some df)).
Proof.
  unfold load_data.
  destruct (fold_left _ symbols ([], w)) as [res w'] eqn:Hf. cbn [fst].
  destruct (load_symbol_fold _ _ _ _ _ _ _ _ _ Hf) as (Hnd & Hkeys & Hfrom & _).
  split; [apply Hnd; constructor|].
  split.
  { intros s. rewrite Hkeys. split; [intros [Hs | Hs]; [inversion Hs | exact Hs] | auto]. }
  intros s df Hs. destruct (Hfrom s df Hs) as [Hacc | (_ & w0 & ->)]; [inversion Hacc|].
  destruct (try_load start_date end_date source use_cache s w0).1 as [d|] eqn:Et;
    [|left; reflexivity].
  simpl. apply try_load_Some in Et as [[Hc Hget] | Hfetch].
  - right. right. split; [exact Hc | exists w0; exact Hget].
  - right. left. exact Hfetch.
Qed.

(* ================================================================= *)
(** ** The analysis after loading *)

(** What the loader stored for a requested symbol. *)
Lemma load_data_lookup `{DataWorld W} (symbols : list string)
    (start_date end_date source : string) (use_cache : bool) (w : W) (s : string) :
  s ∈ symbols ->
  exists w0,
    (list_to_map (load_data symbols start_date end_date source use_cache w).1
       : gmap string DataFrame) !! s
    = Some (default empty_frame (try_load start_date end_date source use_cache s w0).1).
Proof.
  intros Hs. unfold load_data.
  destruct (fold_left _ symbols ([], w)) as [res w'] eqn:Hf. cbn [fst].
  destruct (load_symbol_fold _ _ _ _ _ _ _ _ _ Hf) as (_ & _ & _ & Hin & _).
  exact (Hin s Hs).
Qed.

Lemma empty_frame_empty : df_empty empty_frame = true.
Proof. reflexivity. Qed.

(** X24.  A failed download spoils the batch: when the loader obtains bars
    with closes for one listed symbol and its [try] fails for another listed
    symbol, [analyze_market] raises. *)
Theorem failed_download_spoils_batch `{NumLib} `{FloatPow} `{DataWorld W}
    (config : IndicatorConfig) (symbols : list string)
    (start_date end_date benchmark : string) (w : W) (s s' : string) :
  s ∈ symbols -> s' ∈ symbols ->
  (forall w0, exists df,
     (try_load start_date end_date "yahoo" true s w0).1 = Some df /\
     df_empty df = false /\ is_Some (col "Close" df)) ->
  (forall w0, (try_load start_date end_date "yahoo" true s' w0).1 = None) ->
  (analyze_market_from config symbols start_date end_date benchmark w).1 = None.
Proof.
  intros Hs Hs' Hgood Hbad. unfold analyze_market_from.
  pose proof (load_data_lookup (symbols ++ [benchmark]) start_date end_date "yahoo" true w s
                ltac:(apply elem_of_app; left; exact Hs)) as (w1 & Hl1).
  pose proof (load_data_lookup (symbols ++ [benchmark]) start_date end_date "yahoo" true w s'
                ltac:(apply elem_of_app; left; exact Hs')) as (w2 & Hl2).
  destruct (load_data (symbols ++ [benchmark]) start_date end_date "yahoo" true w)
    as [data w'] eqn:Hl.
  cbn [fst] in *.
  destruct (Hgood w1) as (df & Hdf & Hne & Hclose). rewrite Hdf in Hl1. simpl in Hl1.
  rewrite (Hbad w2) in Hl2. simpl in Hl2.
  assert (Hh : has_closes (list_to_map data) s) by (exists df; auto).
  assert (Hcase : (exists x, x ∈ symbols /\ not_loaded (list_to_map data) x) \/ ~ NoDup symbols).
  { left. exists s'. split; [exact Hs'|]. right. exists empty_frame.
    split; [exact Hl2 | exact empty_frame_empty]. }
  pose proof (two_symbols _ _ _ Hs Hh Hcase) as Hlen.
  unfold analyze_market.
  destruct (fold_left _ symbols (Some [])) as [res|]; [|reflexivity].
  cbn [mbind option_bind].
  replace (1 <? length symbols)%nat with true by (symmetry; apply Nat.ltb_lt; lia).
  rewrite (analyze_portfolio_raises _ symbols s Hs Hh Hcase). reflexivity.
Qed.

Lemma failed_download_spoils_batch_witness :
  (@analyze_market_from computing_lib computing_pow unit example_world default_config
     ["A"; "B"] "2024-01-01" "2024-02-01" "SPY" tt).1 = None.
Proof.
  apply (@failed_download_spoils_batch computing_lib computing_pow unit example_world
           default_config ["A"; "B"] "2024-01-01" "2024-02-01" "SPY" tt "A" "B").
  - in_list.
  - in_list.
  - intros w0. exists example_bars. split; [reflexivity|]. split; [reflexivity|].
    apply example_prices_frame.
  - intros w0. reflexivity.
Defined.

(** X25.  A request for a single symbol never raises, whatever the download
    does: it is enough that the indicator spans are valid, that the loader's
    frames have one cell per row in every column, and that a frame with rows
    read from the cache has the required columns. *)
Theorem single_symbol_analysis_never_raises `{NumLib} `{FloatPow} `{DataWorld W}
    (config : IndicatorConfig) (symbols : list string)
    (start_date end_date benchmark : string) (w : W) :
  valid_config config ->
  (length symbols <= 1)%nat ->
  (forall s w0 df, (try_load start_date end_date "yahoo" true s w0).1 = Some df -> aligned df) ->
  (forall s w0 df, (_get_cached_data s start_date end_date "yahoo" w0).1 = Some df ->
                   df_empty df = false -> _validate_data df = Some tt) ->
  is_Some (analyze_market_from config symbols start_date end_date benchmark w).1.
Proof.
  intros Hcfg Hlen Hal Hcache. unfold analyze_market_from.
  assert (Hentry : forall s, s ∈ symbols ++ [benchmark] -> forall df,
            (list_to_map (load_data (symbols ++ [benchmark]) start_date end_date "yahoo" true w).1
               : gmap string DataFrame) !! s = Some df ->
            df_empty df = false -> _validate_data df = Some tt /\ aligned df).
  { intros s Hs df Hd Hne.
    destruct (load_data_lookup (symbols ++ [benchmark]) start_date end_date "yahoo" true w s Hs)
      as (w0 & Hw0).
    rewrite Hd in Hw0. injection Hw0 as Hw0.
    destruct (try_load start_date end_date "yahoo" true s w0).1 as [d|] eqn:Et.
    - simpl in Hw0. subst d. split; [|exact (Hal _ _ _ Et)].
      apply try_load_Some in Et as [[_ Hget] | (src & w1 & _ & _ & Hv)]; [|exact Hv].
      exact (Hcache _ _ _ Hget Hne).
    - simpl in Hw0. subst df. rewrite empty_frame_empty in Hne. discriminate. }
  destruct (load_data (symbols ++ [benchmark]) start_date end_date "yahoo" true w)
    as [data w'].
  cbn [fst] in *.
  assert (Hprice : forall df, _validate_data df = Some tt -> price_frame df).
  { intros df [_ Hcols]%validate_data_columns.
    unfold price_frame. repeat split; apply Hcols; in_list. }
  assert (Hb : benchmark_usable (list_to_map data) benchmark).
  { intros b Hbd Hne.
    destruct (Hentry benchmark ltac:(apply elem_of_app; right; left) b Hbd Hne) as [Hv _].
    apply Hprice in Hv. apply Hv. }
  assert (Hok : loaded_frames_valid (list_to_map data) symbols).
  { intros s df Hs Hd Hne.
    destruct (Hentry s ltac:(apply elem_of_app; left; exact Hs) df Hd Hne) as [Hv Ha].
    split; [exact (Hprice _ Hv) | exact Ha]. }
  destruct (analyze_step_fold config (list_to_map data) benchmark symbols Hcfg Hb Hok [])
    as (res & Hfold & _).
  unfold analyze_market. rewrite Hfold. cbn [mbind option_bind].
  replace (1 <? length symbols)%nat with false by (symmetry; apply Nat.ltb_ge; lia).
  eexists. reflexivity.
Qed.

Lemma single_symbol_analysis_never_raises_witness :
  is_Some (@analyze_market_from computing_lib computing_pow unit example_world default_config
             ["A"] "2024-01-01" "2024-02-01" "SPY" tt).1.
Proof.
  apply (@single_symbol_analysis_never_raises computing_lib computing_pow unit example_world
           default_config ["A"] "2024-01-01" "2024-02-01" "SPY" tt).
  - exact default_config_valid.
  - simpl. lia.
  - intros s w0 df Ht.
    apply (@try_load_Some unit example_world) in Ht as [[_ Hc] | (src & w1 & _ & Hf & _)];
      [simpl in Hc; discriminate|].
    simpl in Hf. destruct (String.eqb s "A"); [|discriminate].
    injection Hf as <-. exact example_bars_aligned.
  - intros s w0 df Hc. simpl in Hc. discriminate.
Defined.

(* ================================================================= *)
(** ** Support and resistance levels *)

Lemma fold_Qmax_in (l : list Q) (x : Q) : fold_left Qmax l x ∈ x :: l.
Proof.
  revert x. induction l as [|y l IH]; intros x; cbn [fold_left]; [left|].
  specialize (IH (Qmax x y)). apply elem_of_cons in IH as [-> | IH].
  - unfold Qmax. destruct (Qlt_bool x y); [right; left | left].
  - right. right. exact IH.
Qed.

Lemma fold_Qmin_in (l : list Q) (x : Q) : fold_left Qmin l x ∈ x :: l.
Proof.
  revert x. induction l as [|y l IH]; intros x; cbn [fold_left]; [left|].
  specialize (IH (Qmin x y)). apply elem_of_cons in IH as [-> | IH].
  - unfold Qmin. destruct (Qlt_bool y x); [right; left | left].
  - right. right. exact IH.
Qed.

Lemma agg_max_picks : picks agg_max.
Proof.
  intros [|x l]; [left; reflexivity|]. right. exists (fold_left Qmax l x).
  split; [apply fold_Qmax_in | reflexivity].
Qed.

Lemma agg_min_picks : picks agg_min.
Proof.
  intros [|x l]; [left; reflexivity|]. right. exists (fold_left Qmin l x).
  split; [apply fold_Qmin_in | reflexivity].
Qed.

Lemma length_rolling_center w agg (s : list val) : length (rolling_center w agg s) = length s.
Proof. unfold rolling_center. apply length_imap. Qed.

Lemma lookup_rolling_center w agg (s : list val) i v :
  rolling_center w agg s !! i = Some v -> v = from_option agg NaN (window_center w i s).
Proof.
  unfold rolling_center. rewrite list_lookup_imap. destruct (s !! i); simpl; congruence.
Qed.

(** A defined centered window: its cells exist and are numbers. *)
Lemma window_center_Some w i (s : list val) (xs : list Q) :
  window_center w i s = Some xs ->
  let offset := ((w - 1) / 2)%nat in
  (i + 1 + offset <= length s)%nat /\ (1 <= w <= i + offset + 1)%nat /\ length xs = w /\
  forall k x, xs !! k = Some x -> s !! (i + offset + 1 - w + k)%nat = Some (Fin x).
Proof.
  unfold window_center. cbv zeta.
  destruct (length s <? i + 1 + (w - 1) / 2)%nat eqn:El; [discriminate|].
  apply Nat.ltb_ge in El. intros Hw.
  destruct (window_Some _ _ _ _ Hw) as (Hwi & _ & Hk).
  split; [exact El|]. split; [lia|].
  split; [apply (window_length _ _ _ _ Hw); lia|]. exact Hk.
Qed.

(** A cell of a centered aggregate that is present is one of the numbers of
    the column, and its window lies inside the column. *)
Lemma rolling_center_cell w agg (s : list val) i v :
  picks agg -> rolling_center w agg s !! i = Some v -> is_nan v = false ->
  (exists j h, s !! j = Some (Fin h) /\ v = num h) /\
  (w <= i + (w - 1) / 2 + 1)%nat /\ (i + 1 + (w - 1) / 2 <= length s)%nat.
Proof.
  intros Hagg Hv Hn. apply lookup_rolling_center in Hv. subst v.
  destruct (window_center w i s) as [xs|] eqn:Ew; [|discriminate]. cbn [from_option] in *.
  destruct (window_center_Some _ _ _ _ Ew) as (Hl & Hwi & _ & Hk).
  split; [|split; [lia | exact Hl]].
  destruct (Hagg xs) as [E | (q & Hq & E)]; [rewrite E in Hn; discriminate|].
  apply list_elem_of_lookup in Hq as [k Hq]. rewrite E. eauto.
Qed.

Lemma select_eq_elem (s other : list val) (v : val) :
  v ∈ select_eq s other ->
  exists i o, s !! i = Some v /\ other !! i = Some o /\ veq v o = true.
Proof.
  unfold select_eq. intros Hv. apply list_elem_of_fmap in Hv as ([a o] & -> & Hp).
  apply list_elem_of_filter in Hp as [Heq Hp]. simpl in Heq.
  apply list_elem_of_lookup in Hp as [i Hi]. apply lookup_zip_with_Some in Hi
    as (a' & o' & Heq' & Ha & Ho). injection Heq' as <- <-.
  exists i, o. auto.
Qed.

Lemma veq_not_nan (a b : val) : veq a b = true -> is_nan a = false /\ is_nan b = false.
Proof. destruct a, b; simpl; try discriminate; auto. Qed.

(** The local extremes: cells of the centered aggregate that equal the
    centered aggregate of the aggregate. *)
Lemma local_extremes w agg (s : list val) (v : val) :
  (1 <= w)%nat -> picks agg ->
  v ∈ dropna (select_eq (rolling_center w agg s)
                        (rolling_center w agg (rolling_center w agg s))) ->
  (exists j h, s !! j = Some (Fin h) /\ v = num h) /\ (2 * w - 1 <= length s)%nat.
Proof.
  intros Hw Hagg Hv. apply list_elem_of_filter in Hv as [_ Hv].
  apply select_eq_elem in Hv as (i & o & Hi & Ho & Heq).
  apply veq_not_nan in Heq as [Hnv Hno].
  destruct (rolling_center_cell _ _ _ _ _ Hagg Hi Hnv) as (Hcell & _ & _).
  split; [exact Hcell|].
  apply lookup_rolling_center in Ho. subst o.
  destruct (window_center w i (rolling_center w agg s)) as [xs|] eqn:Ew; [|discriminate].
  destruct (window_center_Some _ _ _ _ Ew) as (Hl & Hwi & Hlen & Hk).
  rewrite length_rolling_center in Hl.
  destruct (lookup_lt_is_Some_2 xs 0) as [x0 Hx0]; [lia|].
  destruct (lookup_lt_is_Some_2 xs (w - 1)) as [x1 Hx1]; [lia|].
  apply Hk in Hx0. apply Hk in Hx1.
  destruct (rolling_center_cell _ _ _ _ _ Hagg Hx0 eq_refl) as (_ & Hfirst & _).
  destruct (rolling_center_cell _ _ _ _ _ Hagg Hx1 eq_refl) as (_ & _ & Hlast).
  lia.
Qed.

(** *** Sorting *)

Lemma vle_refl (a : val) : is_nan a = false -> vle a a = true.
Proof.
  destruct a; simpl; try discriminate; try reflexivity.
  intros _. unfold vle. simpl. rewrite (proj2 (Qeq_bool_iff q q)) by reflexivity.
  apply orb_true_r.
Qed.

Lemma vle_total (a b : val) :
  is_nan a = false -> is_nan b = false -> vlt a b = false -> vle b a = true.
Proof.
  destruct a, b; simpl; try discriminate; try reflexivity.
  intros _ _ H. rewrite vle_Fin. unfold Qlt_bool in H. apply negb_false_iff in H.
  apply Qle_bool_iff in H. exact H.
Qed.

Lemma vinsert_Forall (P : val -> Prop) (x : val) (l : list val) :
  P x -> Forall P l -> Forall P (vinsert x l).
Proof.
  intros Hx Hl. induction Hl as [|y l Hy Hl IH]; simpl; [constructor; [exact Hx | constructor]|].
  destruct (vlt y x); constructor; auto.
Qed.

Lemma vsort_Forall (P : val -> Prop) (l : list val) : Forall P l -> Forall P (vsort l).
Proof.
  induction 1 as [|x l Hx Hl IH]; [constructor|]. simpl. apply vinsert_Forall; assumption.
Qed.

Lemma vinsert_sorted (x : val) (l : list val) :
  is_nan x = false -> Forall (fun v => is_nan v = false) l ->
  StronglySorted (fun a b => vle a b = true) l ->
  StronglySorted (fun a b => vle a b = true) (vinsert x l).
Proof.
  intros Hx Hn Hs. induction Hs as [|y l Hs IH Hy]; simpl.
  - constructor; constructor.
  - apply Forall_cons in Hn as [Hny Hnl]. destruct (vlt y x) eqn:E.
    + constructor; [exact (IH Hnl)|].
      apply vinsert_Forall; [apply vlt_vle, E | exact Hy].
    + pose proof (vle_total _ _ Hny Hx E) as Hxy.
      constructor; [constructor; assumption|].
      constructor; [exact Hxy|].
      eapply Forall_impl; [exact Hy|]. intros z Hz. exact (vle_trans _ _ _ Hxy Hz).
Qed.

Lemma vsort_sorted (l : list val) :
  Forall (fun v => is_nan v = false) l ->
  StronglySorted (fun a b => vle a b = true) (vsort l).
Proof.
  induction 1 as [|x l Hx Hl IH]; simpl; [constructor|].
  apply vinsert_sorted; [exact Hx | apply vsort_Forall, Hl | exact IH].
Qed.

Lemma sorted_ascending (l : list val) :
  Forall (fun v => is_nan v = false) l ->
  StronglySorted (fun a b => vle a b = true) l -> ascending l.
Proof.
  intros Hn Hs. induction Hs as [|x l Hs IH Hx]; intros i j a b Hij Ha Hb.
  - rewrite lookup_nil in Ha. discriminate.
  - apply Forall_cons in Hn as [Hnx Hnl]. destruct i as [|i], j as [|j]; cbn in Ha, Hb.
    + injection Ha as <-. injection Hb as <-. apply vle_refl, Hnx.
    + injection Ha as <-. rewrite Forall_forall in Hx.
      apply Hx. eapply list_elem_of_lookup_2, Hb.
    + lia.
    + apply (IH Hnl i j); [lia | assumption | assumption].
Qed.

Lemma dropna_no_nan (s : list val) : Forall (fun v => is_nan v = false) (dropna s).
Proof.
  apply Forall_forall. intros v Hv. apply list_elem_of_filter in Hv as [Hv _]. exact Hv.
Qed.

Lemma nsmallest_ascending (k : nat) (s : list val) : ascending (nsmallest k s).
Proof.
  pose proof (sorted_ascending _ (vsort_Forall _ _ (dropna_no_nan s))
                (vsort_sorted _ (dropna_no_nan s))) as Hasc.
  intros i j a b Hij Ha Hb. unfold nsmallest in *.
  apply lookup_take_Some in Ha as [Ha _]. apply lookup_take_Some in Hb as [Hb _].
  exact (Hasc i j a b Hij Ha Hb).
Qed.

Lemma nlargest_descending (k : nat) (s : list val) : descending (nlargest k s).
Proof.
  pose proof (sorted_ascending _ (vsort_Forall _ _ (dropna_no_nan s))
                (vsort_sorted _ (dropna_no_nan s))) as Hasc.
  intros i j a b Hij Ha Hb. unfold nlargest in *.
  apply lookup_take_Some in Ha as [Ha _]. apply lookup_take_Some in Hb as [Hb _].
  pose proof (lookup_lt_Some _ _ _ Ha) as Hi. pose proof (lookup_lt_Some _ _ _ Hb) as Hj.
  rewrite length_reverse in Hi, Hj.
  rewrite reverse_lookup in Ha by exact Hi. rewrite reverse_lookup in Hb by exact Hj.
  assert (Hle : (length (vsort (dropna s)) - S j <= length (vsort (dropna s)) - S i)%nat)
    by lia.
  exact (Hasc _ _ b a Hle Hb Ha).
Qed.

Lemma vsort_elem (l : list val) (v : val) : v ∈ vsort l -> v ∈ l.
Proof.
  intros Hv.
  assert (H : Forall (fun x => x ∈ l) (vsort l)).
  { apply vsort_Forall, Forall_forall. auto. }
  rewrite Forall_forall in H. exact (H v Hv).
Qed.

Lemma nlargest_elem k (s : list val) (v : val) : v ∈ nlargest k s -> v ∈ dropna s.
Proof.
  unfold nlargest. intros Hv. apply list_elem_of_lookup in Hv as [i Hi].
  apply lookup_take_Some in Hi as [Hi _]. apply list_elem_of_lookup_2 in Hi.
  rewrite elem_of_reverse in Hi. apply vsort_elem, Hi.
Qed.

Lemma nsmallest_elem k (s : list val) (v : val) : v ∈ nsmallest k s -> v ∈ dropna s.
Proof.
  unfold nsmallest. intros Hv. apply list_elem_of_lookup in Hv as [i Hi].
  apply lookup_take_Some in Hi as [Hi _]. apply list_elem_of_lookup_2 in Hi.
  apply vsort_elem, Hi.
Qed.

Lemma dropna_idemp (s : list val) : dropna (dropna s) = dropna s.
Proof.
  unfold dropna. induction s as [|x s IH]; [reflexivity|].
  rewrite (filter_cons _ x s). destruct (decide (is_nan x = false)) as [E | E].
  - rewrite filter_cons, decide_True by exact E. f_equal. exact IH.
  - exact IH.
Qed.

(** X26.  [calculate_support_resistance] reports at most three resistance
    levels, the highest first, and at most three support levels, the lowest
    first.  Every resistance level is the High of some bar and every support
    level the Low of some bar.  A history of fewer than [2 * window - 1] bars
    (39 with the default window of 20) has no level at all. *)
Theorem support_resistance_levels (w : nat) (df : DataFrame) (high low : list val) :
  (1 <= w)%nat ->
  col "High" df = Some high -> col "Low" df = Some low ->
  exists sr,
    calculate_support_resistance w df = Some sr /\
    (length (resistance sr) <= 3)%nat /\ (length (support sr) <= 3)%nat /\
    descending (resistance sr) /\ ascending (support sr) /\
    (forall r, r ∈ resistance sr -> exists j h, high !! j = Some (Fin h) /\ r = num h) /\
    (forall s, s ∈ support sr -> exists j l, low !! j = Some (Fin l) /\ s = num l) /\
    ((length high < 2 * w - 1)%nat -> resistance sr = []) /\
    ((length low < 2 * w - 1)%nat -> support sr = []).
Proof.
  intros Hw Hh Hl. unfold calculate_support_resistance.
  rewrite Hh. cbn [mbind option_bind]. rewrite Hl. cbn [mbind option_bind].
  eexists. split; [reflexivity|]. cbn [resistance support].
  split; [unfold nlargest; rewrite length_take; lia|].
  split; [unfold nsmallest; rewrite length_take; lia|].
  split; [apply nlargest_descending|]. split; [apply nsmallest_ascending|].
  split.
  { intros r Hr. apply nlargest_elem in Hr. rewrite dropna_idemp in Hr.
    exact (proj1 (local_extremes _ _ _ _ Hw agg_max_picks Hr)). }
  split.
  { intros s Hs. apply nsmallest_elem in Hs. rewrite dropna_idemp in Hs.
    exact (proj1 (local_extremes _ _ _ _ Hw agg_min_picks Hs)). }
  split.
  - intros Hshort.
    destruct (nlargest 3 _) as [|r l] eqn:E; [reflexivity|]. exfalso.
    assert (Hr : r ∈ nlargest 3 (dropna (select_eq (rolling_center w agg_max high)
                   (rolling_center w agg_max (rolling_center w agg_max high)))))
      by (rewrite E; left).
    apply nlargest_elem in Hr. rewrite dropna_idemp in Hr.
    pose proof (proj2 (local_extremes _ _ _ _ Hw agg_max_picks Hr)). lia.
  - intros Hshort.
    destruct (nsmallest 3 _) as [|r l] eqn:E; [reflexivity|]. exfalso.
    assert (Hr : r ∈ nsmallest 3 (dropna (select_eq (rolling_center w agg_min low)
                   (rolling_center w agg_min (rolling_center w agg_min low)))))
      by (rewrite E; left).
    apply nsmallest_elem in Hr. rewrite dropna_idemp in Hr.
    pose proof (proj2 (local_extremes _ _ _ _ Hw agg_min_picks Hr)). lia.
Qed.

Lemma support_resistance_levels_witness :
  let high := map Fin [12; 13; 14] in
  let low := map Fin [9; 10; 11] in
  exists sr,
    calculate_support_resistance 2 example_bars = Some sr /\
    (length (resistance sr) <= 3)%nat /\ (length (support sr) <= 3)%nat /\
    descending (resistance sr) /\ ascending (support sr) /\
    (forall r, r ∈ resistance sr -> exists j h, high !! j = Some (Fin h) /\ r = num h) /\
    (forall s, s ∈ support sr -> exists j l, low !! j = Some (Fin l) /\ s = num l) /\
    ((length high < 2 * 2 - 1)%nat -> resistance sr = []) /\
    ((length low < 2 * 2 - 1)%nat -> support sr = []).
Proof.
  apply (support_resistance_levels 2 example_bars (map Fin [12; 13; 14]) (map Fin [9; 10; 11])).
  - lia.
  - vm_compute. reflexivity.
  - vm_compute. reflexivity.
Defined.

(* ================================================================= *)
(** ** Value at risk *)

Lemma length_vinsert (x : val) (l : list val) : length (vinsert x l) = S (length l).
Proof.
  induction l as [|y l IH]; [reflexivity|]. simpl. destruct (vlt y x); simpl; [|reflexivity].
  rewrite IH. reflexivity.
Qed.

Lemma length_vsort (l : list val) : length (vsort l) = length l.
Proof.
  induction l as [|x l IH]; [reflexivity|]. simpl. rewrite length_vinsert, IH. reflexivity.
Qed.

Lemma numbers_map_Fin (P : Q -> Prop) (l : list val) :
  Forall (fun v => exists q, v = Fin q /\ P q) l ->
  exists qs, l = map Fin qs /\ Forall P qs.
Proof.
  induction 1 as [|v l (q & -> & Hq) _ (qs & -> & Hqs)].
  - exists []. split; [reflexivity | constructor].
  - exists (q :: qs). split; [reflexivity | constructor; assumption].
Qed.

(** Sorting numbers: the same numbers, in ascending order. *)
Lemma vsort_numbers (rs : list Q) :
  exists ss, vsort (map Fin rs) = map Fin ss /\ length ss = length rs /\
             (forall x, x ∈ ss -> x ∈ rs) /\
             forall i j a b, (i <= j)%nat -> ss !! i = Some a -> ss !! j = Some b -> a <= b.
Proof.
  assert (Hall : Forall (fun v => exists q, v = Fin q /\ q ∈ rs) (vsort (map Fin rs))).
  { apply vsort_Forall, Forall_forall. intros v (q & -> & Hq)%list_elem_of_fmap. eauto. }
  destruct (numbers_map_Fin _ _ Hall) as (ss & Hss & Hin).
  exists ss. split; [exact Hss|].
  split.
  { apply (f_equal length) in Hss. rewrite length_vsort, !length_map in Hss. lia. }
  split; [rewrite Forall_forall in Hin; exact Hin|].
  assert (Hnn : Forall (fun v => is_nan v = false) (map Fin rs)).
  { apply Forall_forall. intros v (q & -> & _)%list_elem_of_fmap. reflexivity. }
  pose proof (sorted_ascending _ (vsort_Forall _ _ Hnn) (vsort_sorted _ Hnn)) as Hasc.
  rewrite Hss in Hasc. intros i j a b Hij Ha Hb.
  apply vle_Fin. apply (Hasc i j); [exact Hij | |];
    rewrite list_lookup_fmap; [rewrite Ha | rewrite Hb]; reflexivity.
Qed.

Lemma lerp_Fin (a b t : Q) : exists v, lerp (Fin a) (Fin b) t = Fin v /\ v == a + (b - a) * t.
Proof.
  unfold lerp. cbv zeta. destruct (Qle_bool (1 # 2) t); simpl; unfold num;
    (eexists; split; [reflexivity|]; rewrite !Qred_correct; ring).
Qed.

(** [np.percentile] of numbers: an interpolation between two neighbours of
    the sorted sample. *)
Lemma percentile_numbers (rs ss : list Q) (q : Q) :
  vsort (map Fin rs) = map Fin ss -> length ss = length rs ->
  rs <> [] -> 0 <= q <= 100 ->
  let virt := q / 100 * inject_Z (Z.of_nat (length rs - 1)) in
  let lo := Z.to_nat (Qfloor virt) in
  let gamma := virt - inject_Z (Qfloor virt) in
  exists a b v,
    ss !! lo = Some a /\ ss !! Nat.min (lo + 1) (length rs - 1) = Some b /\
    percentile (map Fin rs) q = Fin v /\ v == a + (b - a) * gamma /\
    0 <= gamma < 1 /\ (0 <= Qfloor virt)%Z /\ (lo <= length rs - 1)%nat.
Proof.
  intros Hss Hlen Hne Hq virt lo gamma.
  assert (Hn : (1 <= length rs)%nat) by (destruct rs; [contradiction | simpl; lia]).
  assert (Hv0 : 0 <= virt).
  { unfold virt. apply Qmult_le_0_compat; [|change 0 with (inject_Z 0); rewrite <- Zle_Qle; lia].
    apply Qle_shift_div_l; lra. }
  assert (Hv1 : virt <= inject_Z (Z.of_nat (length rs - 1))).
  { unfold virt.
    assert (0 <= inject_Z (Z.of_nat (length rs - 1)))
      by (change 0 with (inject_Z 0); rewrite <- Zle_Qle; lia).
    assert (q / 100 <= 1) by (apply Qle_shift_div_r; lra). nra. }
  assert (Hf0 : (0 <= Qfloor virt)%Z).
  { change 0%Z with (Qfloor 0). apply Qfloor_resp_le, Hv0. }
  assert (Hf1 : (Qfloor virt <= Z.of_nat (length rs - 1))%Z).
  { rewrite <- (Qfloor_Z (Z.of_nat (length rs - 1))). apply Qfloor_resp_le, Hv1. }
  assert (Hlo : (lo <= length rs - 1)%nat) by (unfold lo; lia).
  destruct (lookup_lt_is_Some_2 ss lo) as [a Ha]; [lia|].
  destruct (lookup_lt_is_Some_2 ss (Nat.min (lo + 1) (length rs - 1))) as [b Hb]; [lia|].
  destruct (lerp_Fin a b gamma) as (v & Hv & Hval).
  exists a, b, v. split; [exact Ha|]. split; [exact Hb|].
  split.
  { unfold percentile. cbv zeta. rewrite length_map, Hss, !list_lookup_fmap.
    fold virt. fold lo. rewrite Ha, Hb. exact Hv. }
  split; [exact Hval|]. split; [|split; [exact Hf0 | exact Hlo]].
  unfold gamma. pose proof (Qfloor_le virt). pose proof (Qlt_floor virt) as Hlt.
  rewrite inject_Z_plus in Hlt. change (inject_Z 1) with 1 in Hlt. lra.
Qed.

Lemma percentile_monotone (rs : list Q) (q1 q2 : Q) :
  rs <> [] -> 0 <= q1 -> q1 <= q2 -> q2 <= 100 ->
  exists v1 v2 lo hi,
    percentile (map Fin rs) q1 = Fin v1 /\ percentile (map Fin rs) q2 = Fin v2 /\
    v1 <= v2 /\ lo ∈ rs /\ hi ∈ rs /\ (forall r, r ∈ rs -> lo <= r <= hi) /\
    lo <= v1 /\ v2 <= hi.
Proof.
  intros Hne H1 H12 H2.
  destruct (vsort_numbers rs) as (ss & Hss & Hlen & Hin & Hsorted).
  destruct (percentile_numbers rs ss q1 Hss Hlen Hne ltac:(lra))
    as (a1 & b1 & v1 & Ha1 & Hb1 & Hp1 & Hv1 & Hg1 & Hf1 & Hlo1).
  destruct (percentile_numbers rs ss q2 Hss Hlen Hne ltac:(lra))
    as (a2 & b2 & v2 & Ha2 & Hb2 & Hp2 & Hv2 & Hg2 & Hf2 & Hlo2).
  set (n1 := inject_Z (Z.of_nat (length rs - 1))) in *.
  set (virt1 := q1 / 100 * n1) in *. set (virt2 := q2 / 100 * n1) in *.
  assert (Hn : (1 <= length rs)%nat) by (destruct rs; [contradiction | simpl; lia]).
  assert (Hvirt : virt1 <= virt2).
  { unfold virt1, virt2.
    assert (0 <= n1) by (unfold n1; change 0 with (inject_Z 0); rewrite <- Zle_Qle; lia).
    assert (q1 / 100 <= q2 / 100) by (apply Qmult_le_compat_r; [lra | discriminate]). nra. }
  pose proof (Qfloor_resp_le _ _ Hvirt) as Hfl.
  assert (Hab1 : a1 <= b1) by (refine (Hsorted _ _ _ _ _ Ha1 Hb1); lia).
  assert (Hab2 : a2 <= b2) by (refine (Hsorted _ _ _ _ _ Ha2 Hb2); lia).
  destruct (lookup_lt_is_Some_2 ss 0) as [lo Hlo]; [lia|].
  destruct (lookup_lt_is_Some_2 ss (length rs - 1)) as [hi Hhi]; [lia|].
  assert (Hmin : forall i x, ss !! i = Some x -> lo <= x <= hi).
  { intros i x Hx. pose proof (lookup_lt_Some _ _ _ Hx) as Hi. split.
    - apply (Hsorted 0%nat i); [lia | exact Hlo | exact Hx].
    - apply (Hsorted i (length rs - 1)%nat); [lia | exact Hx | exact Hhi]. }
  assert (Hperm : forall r, r ∈ rs -> exists i, ss !! i = Some r).
  { intros r Hr.
    assert (Hs : Fin r ∈ vsort (map Fin rs)).
    { assert (Hall : Forall (fun v => v ∈ vsort (map Fin rs)) (map Fin rs)).
      { clear. induction (map Fin rs) as [|x l IH]; [constructor|]. simpl. constructor.
        - clear. induction (vsort l) as [|y k IHk]; simpl; [left|].
          destruct (vlt y x); [right; exact IHk | left].
        - eapply Forall_impl; [exact IH|]. intros v Hv. clear -Hv.
          induction (vsort l) as [|y k IHk]; [inversion Hv|]. simpl.
          destruct (vlt y x).
          + apply elem_of_cons in Hv as [-> | Hv]; [left | right; exact (IHk Hv)].
          + right. exact Hv. }
      rewrite Forall_forall in Hall. apply Hall, list_elem_of_fmap. eauto. }
    rewrite Hss in Hs. apply list_elem_of_fmap in Hs as (x & [= ->] & Hx).
    apply list_elem_of_lookup in Hx. exact Hx. }
  exists v1, v2, lo, hi. split; [exact Hp1|]. split; [exact Hp2|].
  split.
  { destruct (Z.eq_dec (Qfloor virt1) (Qfloor virt2)) as [Heq | Hneq].
    - rewrite Heq in *. rewrite Ha1 in Ha2. injection Ha2 as <-.
      rewrite Hb1 in Hb2. injection Hb2 as <-. nra.
    - assert (Hb1a2 : b1 <= a2).
      { refine (Hsorted _ _ _ _ _ Hb1 Ha2). lia. }
      nra. }
  split; [apply Hin; eapply list_elem_of_lookup_2, Hlo|].
  split; [apply Hin; eapply list_elem_of_lookup_2, Hhi|].
  split; [intros r Hr; destruct (Hperm r Hr) as [i Hi]; exact (Hmin i r Hi)|].
  pose proof (Hmin _ _ Ha1). pose proof (Hmin _ _ Hb2). split; nra.
Qed.

Lemma fold_vadd_numbers (xs : list Q) (a : Q) :
  exists s, fold_left vadd (map Fin xs) (Fin a) = Fin s /\ s == a + Qsum xs.
Proof.
  revert a. induction xs as [|x xs IH]; intros a.
  - exists a. split; [reflexivity|]. unfold Qsum. cbn [fold_right]. ring.
  - cbn [map fold_left]. change (vadd (Fin a) (Fin x)) with (Fin (Qred (a + x))).
    destruct (IH (Qred (a + x))) as (s & Hs & Hval). exists s. split; [exact Hs|].
    rewrite Hval, Qred_correct. unfold Qsum. cbn [fold_right]. ring.
Qed.

(** The mean of numbers is their arithmetic mean. *)
Lemma s_mean_numbers (xs : list Q) :
  xs <> [] -> exists m, s_mean (map Fin xs) = Fin m /\ m == Qmean xs.
Proof.
  intros Hne. unfold s_mean. cbv zeta. rewrite dropna_map_Fin, length_map.
  unfold vsum. destruct (fold_vadd_numbers xs 0) as (s & -> & Hs).
  pose proof (Qlen_pos xs Hne) as Hpos. unfold Qlen in Hpos.
  unfold of_nat, vdiv.
  replace (Qeq_bool (inject_Z (Z.of_nat (length xs))) 0) with false
    by (symmetry; apply Qeq_bool_false; lra).
  eexists. split; [reflexivity|]. rewrite Qred_correct, Hs. unfold Qmean, Qlen.
  field. lra.
Qed.

(** X27.  With at least 30 returns that are all numbers, the risk metrics
    order as the quantiles do: var_99 is at most var_95 and both lie between
    the smallest and the largest return.  At least one return is at or below
    var_95, so expected_shortfall, their mean, is a number. *)
Theorem value_at_risk_ordered `{NumLib} (data : DataFrame) (rs : list Q) :
  close_returns data = Some (map Fin rs) ->
  (30 <= length rs)%nat ->
  exists m v95 v99 es lo hi,
    _calculate_risk_metrics data = Some m /\
    var_95 m = Fin v95 /\ var_99 m = Fin v99 /\ expected_shortfall m = Fin es /\
    lo ∈ rs /\ hi ∈ rs /\ (forall r, r ∈ rs -> lo <= r <= hi) /\
    lo <= v99 /\ v99 <= v95 /\ v95 <= hi.
Proof.
  intros Hret Hlen.
  assert (Hne : rs <> []) by (destruct rs; [simpl in Hlen; lia | discriminate]).
  destruct (percentile_monotone rs 1 5 Hne ltac:(lra) ltac:(lra) ltac:(lra))
    as (v99 & v95 & lo & hi & H99 & H95 & Hle & Hlo & Hhi & Hall & Hlo99 & H95hi).
  assert (Hfilter : filter (fun r => vle r (Fin v95) = true) (map Fin rs)
                    = map Fin (filter (fun r => Qle_bool r v95 = true) rs)).
  { clear. induction rs as [|r rs IH]; [reflexivity|]. cbn [map].
    rewrite !filter_cons, IH.
    destruct (decide (vle (Fin r) (Fin v95) = true)) as [E | E];
      destruct (decide (Qle_bool r v95 = true)) as [E' | E']; try reflexivity.
    - apply vle_Fin, Qle_bool_iff in E. contradiction.
    - apply Qle_bool_iff, vle_Fin in E'. contradiction. }
  assert (Htail : filter (fun r => Qle_bool r v95 = true) rs <> []).
  { intros Hnil.
    assert (Hin : lo ∈ filter (fun r => Qle_bool r v95 = true) rs)
      by (apply list_elem_of_filter; split; [apply Qle_bool_iff; lra | exact Hlo]).
    rewrite Hnil in Hin. inversion Hin. }
  destruct (s_mean_numbers _ Htail) as (es & Hes & _).
  unfold _calculate_risk_metrics. rewrite Hret. cbn [mbind option_bind].
  rewrite length_map.
  replace (length rs <? 30)%nat with false by (symmetry; apply Nat.ltb_ge; lia).
  cbv zeta. eexists _, v95, v99, es, lo, hi. split; [reflexivity|].
  cbn [var_95 var_99 expected_shortfall].
  split; [exact H95|]. split; [exact H99|].
  split; [rewrite H95, Hfilter; exact Hes|].
  split; [exact Hlo|]. split; [exact Hhi|]. split; [exact Hall|].
  split; [exact Hlo99|]. split; [exact Hle | exact H95hi].
Qed.

Lemma value_at_risk_ordered_witness :
  exists m v95 v99 es lo hi,
    @_calculate_risk_metrics computing_lib (frame_at 0 (ramp 31)) = Some m /\
    var_95 m = Fin v95 /\ var_99 m = Fin v99 /\ expected_shortfall m = Fin es /\
    lo ∈ ramp31_return_numbers /\ hi ∈ ramp31_return_numbers /\
    (forall r, r ∈ ramp31_return_numbers -> lo <= r <= hi) /\
    lo <= v99 /\ v99 <= v95 /\ v95 <= hi.
Proof.
  apply (@value_at_risk_ordered computing_lib (frame_at 0 (ramp 31)) ramp31_return_numbers).
  - vm_compute. reflexivity.
  - vm_compute. lia.
Defined.


(* ================================================================= *)
(** ** Which cells are defined *)

Lemma within_fin_cell (L U : Q) (v : val) : nan_or_within L U v -> v = NaN \/ exists q, v = Fin q.
Proof. intros [-> | (q & -> & _)]; [left; reflexivity | right; eauto]. Qed.

(** X2.  When every close is a number, the moving averages are computed for
    valid EMA periods and every configured SMA and EMA column has one cell
    per bar.  An SMA cell is missing exactly while its window is not full
    and is a number afterwards; every EMA cell is a number, from the first
    bar on. *)
Theorem moving_averages_defined (config : IndicatorConfig) (df : DataFrame)
    (close : list val) :
  Forall (fun p => 1 <= p)%nat (ema_periods config) ->
  col "Close" df = Some close ->
  all_numbers close ->
  exists df',
    _calculate_moving_averages config df = Some df' /\
    (forall p, p ∈ sma_periods config ->
       exists s, col ("SMA_" +:+ pretty p) df' = Some s /\
                 length s = length close /\
                 forall i v, s !! i = Some v ->
                   (v = NaN <-> (p = 0 \/ i + 1 < p)%nat) /\
                   (v = NaN \/ exists q, v = Fin q)) /\
    (forall p, p ∈ ema_periods config ->
       exists e, col ("EMA_" +:+ pretty p) df' = Some e /\
                 length e = length close /\ all_numbers e).
Proof.
  intros Hv Hc Hnum. destruct (all_numbers_within close Hnum) as (L & U & Hb).
  destruct (moving_averages_cells config df close L U Hv Hc Hb) as (df' & Hrun & Hsma & Hema).
  exists df'. split; [exact Hrun|]. split.
  - intros p Hp. destruct (Hsma p Hp) as (s & Hs & Hlen & Hcells).
    exists s. split; [exact Hs|]. split; [exact Hlen|].
    intros i v Hiv. destruct (Hcells i v Hiv) as [Hw Hnan].
    split; [exact Hnan | exact (within_fin_cell _ _ _ Hw)].
  - intros p Hp. destruct (Hema p Hp) as (e & He & Hlen & Hw).
    exists e. split; [exact He|]. split; [exact Hlen | exact (within_all_numbers _ _ _ Hw)].
Qed.

Lemma long_close_numbers : all_numbers (map Fin long_close).
Proof. repeat constructor. Qed.

Lemma moving_averages_defined_witness :
  (exists df',
     _calculate_moving_averages default_config long_bars = Some df' /\
     (forall p, p ∈ [5; 10; 20; 50; 200]%nat ->
        exists s, col ("SMA_" +:+ pretty p) df' = Some s /\
                  length s = 15%nat /\
                  forall i v, s !! i = Some v ->
                    (v = NaN <-> (p = 0 \/ i + 1 < p)%nat) /\
                    (v = NaN \/ exists q, v = Fin q)) /\
     (forall p, p ∈ [8; 12; 21; 26; 50]%nat ->
        exists e, col ("EMA_" +:+ pretty p) df' = Some e /\
                  length e = 15%nat /\ all_numbers e)) /\
  cell "SMA_5" 3 moving_averages_example = NaN /\
  cell "SMA_5" 4 moving_averages_example = Fin 13 /\
  cell "SMA_20" 14 moving_averages_example = NaN /\
  cell "EMA_8" 0 moving_averages_example = Fin 11.
Proof.
  split; [|repeat split; reflexivity].
  apply (moving_averages_defined default_config long_bars (map Fin long_close)).
  - simpl. repeat constructor; lia.
  - reflexivity.
  - exact long_close_numbers.
Defined.

(** *** The volume weighted average price *)

Lemma all_numbers_common (a b c : list val) :
  all_numbers a -> all_numbers b -> all_numbers c ->
  exists L U, within L U a /\ within L U b /\ within L U c.
Proof.
  intros Ha Hb Hc.
  assert (Hall : all_numbers (a ++ b ++ c)).
  { unfold all_numbers in *. rewrite !Forall_app. auto. }
  destruct (all_numbers_within _ Hall) as (L & U & Hw).
  unfold within in *. rewrite !Forall_app in Hw. destruct Hw as (Wa & Wb & Wc).
  exists L, U. auto.
Qed.

(** The running sum of volumes that are not negative is zero exactly while
    no volume has been added. *)
Lemma cum_volume_zero (volume : list val) :
  nonneg_numbers volume ->
  forall (b0 : Q) i b, 0 <= b0 ->
    cum_from vadd (Some (Fin b0)) volume !! i = Some (Fin b) ->
    (b == 0 <-> b0 == 0 /\ no_volume_so_far volume i).
Proof.
  induction 1 as [|v volume (qv & -> & Hqv) Hvol IH]; intros b0 i b Hb0 Hi.
  - cbn [cum_from] in Hi. rewrite lookup_nil in Hi. discriminate.
  - cbn [cum_from is_nan vadd] in Hi. cbv zeta in Hi. unfold num in Hi.
    destruct i as [|i].
    + injection Hi as <-. rewrite Qred_correct. split.
      * intros Hz. split; [lra|]. intros j q Hj Hq.
        replace j with 0%nat in Hq by lia. injection Hq as <-. lra.
      * intros [Hz Hno]. specialize (Hno 0%nat qv (le_n 0) eq_refl). lra.
    + cbn [lookup list_lookup] in Hi.
      assert (Hb1 : 0 <= Qred (b0 + qv)) by (rewrite Qred_correct; lra).
      rewrite (IH _ _ _ Hb1 Hi), Qred_correct. split.
      * intros [Hz Hno]. split; [lra|]. intros j q Hj Hq. destruct j as [|j].
        -- injection Hq as <-. lra.
        -- apply (Hno j q); [lia | exact Hq].
      * intros [Hz Hno]. split.
        -- specialize (Hno 0%nat qv ltac:(lia) eq_refl). lra.
        -- intros j q Hj Hq. apply (Hno (S j) q); [lia | exact Hq].
Qed.

Lemma cumsum_volume_zero (volume : list val) i b :
  nonneg_numbers volume ->
  cumsum volume !! i = Some (Fin b) ->
  (b == 0 <-> no_volume_so_far volume i).
Proof.
  intros Hvol. unfold cumsum.
  destruct Hvol as [|v volume (qv & -> & Hqv) Hvol];
    [cbn [cum_from]; rewrite lookup_nil; discriminate|].
  cbn [cum_from is_nan]. cbv zeta. destruct i as [|i].
  - intros [= <-]. split.
    + intros Hz j q Hj Hq. replace j with 0%nat in Hq by lia. injection Hq as <-. exact Hz.
    + intros Hno. exact (Hno 0%nat qv (le_n 0) eq_refl).
  - cbn [lookup list_lookup]. intros Hi.
    rewrite (cum_volume_zero volume Hvol qv i b Hqv Hi). split.
    + intros [Hz Hno] j q Hj Hq. destruct j as [|j].
      * injection Hq as <-. exact Hz.
      * apply (Hno j q); [lia | exact Hq].
    + intros Hno. split.
      * exact (Hno 0%nat qv ltac:(lia) eq_refl).
      * intros j q Hj Hq. apply (Hno (S j) q); [lia | exact Hq].
Qed.

(** X10.  When High, Low and Close of every bar are numbers and no volume is
    negative, VWAP is computed and has one cell per bar.  A cell is missing
    exactly while no volume has traded up to its bar (0/0), and is a number
    from the first bar with volume on. *)
Theorem vwap_defined_once_traded (df : DataFrame) (high low close volume : list val) :
  col "High" df = Some high -> col "Low" df = Some low ->
  col "Close" df = Some close -> col "Volume" df = Some volume ->
  length low = length high -> length close = length high ->
  length volume = length high ->
  all_numbers high -> all_numbers low -> all_numbers close ->
  nonneg_numbers volume ->
  exists df' vwap,
    _calculate_vwap df = Some df' /\
    col "VWAP" df' = Some vwap /\
    length vwap = length close /\
    forall i v, vwap !! i = Some v ->
      (v = NaN <-> no_volume_so_far volume i) /\
      (v = NaN \/ exists q, v = Fin q).
Proof.
  intros Hh Hl Hc Hv Ll Lc Lv Nh Nl Nc Hvol.
  destruct (all_numbers_common high low close Nh Nl Nc) as (L & U & Wh & Wl & Wc).
  destruct (vwap_cells df high low close volume L U Hh Hl Hc Hv Ll Lc Lv Wh Wl Wc Hvol)
    as (df' & vwap & Hrun & Hcol & Hlen & Hcells).
  exists df', vwap. split; [exact Hrun|]. split; [exact Hcol|]. split; [exact Hlen|].
  intros i v Hiv. destruct (Hcells i v Hiv) as (Hw & b & Hb & _ & Hnan).
  split; [|exact (within_fin_cell _ _ _ Hw)].
  rewrite Hnan. exact (cumsum_volume_zero volume i b Hvol Hb).
Qed.

Lemma vwap_defined_once_traded_witness :
  (exists df' vwap,
     _calculate_vwap quiet_bars = Some df' /\
     col "VWAP" df' = Some vwap /\
     length vwap = 3%nat /\
     forall i v, vwap !! i = Some v ->
       (v = NaN <-> no_volume_so_far (map Fin [0; 0; 300]) i) /\
       (v = NaN \/ exists q, v = Fin q)) /\
  col "VWAP" vwap_example = Some [NaN; NaN; Fin (38 # 3)].
Proof.
  split; [|reflexivity].
  apply (vwap_defined_once_traded quiet_bars (map Fin [12; 13; 14]) (map Fin [9; 10; 11])
           (map Fin [11; 12; 13]) (map Fin [0; 0; 300]));
    try reflexivity; try (repeat constructor).
  all: eexists; split; [reflexivity|]; vm_compute; discriminate.
Defined.

(* ================================================================= *)
(** ** The range of the RSI *)




